(** * Natural-disaster geocoding pipeline: embedding and verification

    A shallow embedding of the Python sources of the repository
    ([generate_geojson.py], [geocode_nominatim.py], [geocode_missing.py],
    [list_unmatched.py], [csv_to_db.py], [scraping.py]) together with the
    properties its specification states about them.

    Python strings are sequences of Unicode code points and are modelled as
    lists of [N].  White space is modelled for the whole code space.  Case
    mapping and the word class are the tables of CPython on the code points
    that [Py.charted] names (Basic Latin, the Latin-1 Supplement, white
    space, the en and the em dash) and leave the other code points alone, so
    a statement that depends on them speaks about text of charted
    characters.

    Floating point coordinates are modelled by the rational they denote; the
    gazetteer literals are kept as decimal literals. *)

From Stdlib Require Import List NArith ZArith QArith String Ascii Bool Lia.
From Stdlib Require Import Sorting.Permutation Sorting.Sorted.
Import ListNotations.

Set Implicit Arguments.
Local Open Scope N_scope.

(* ================================================================== *)
(** * Part I: definitions                                              *)
(* ================================================================== *)

(** ** Python strings *)

Module Py.

Definition str := list N.

(** An ASCII literal as a Python string. *)
Definition lit (s : string) : str :=
  map N_of_ascii (list_ascii_of_string s).

Fixpoint str_eqb (a b : str) : bool :=
  match a, b with
  | [], [] => true
  | x :: a', y :: b' => (x =? y) && str_eqb a' b'
  | _, _ => false
  end.

(** [not s] on a string: true exactly on the empty string. *)
Definition falsy (s : str) : bool :=
  match s with [] => true | _ => false end.

(** All the characters of a text are of one class. *)
Definition all (p : N -> bool) (s : str) : Prop :=
  Forall (fun c => p c = true) s.

Definition between (lo hi c : N) : bool := (lo <=? c) && (c <=? hi).

(** A text that UTF-8 can encode: its code points are Unicode scalar values
    (no surrogate).  [str.encode] and [Path.write_text] raise on the
    others. *)
Definition scalar (c : N) : bool :=
  (c <? 55296) || ((57343 <? c) && (c <? 1114112)).

Definition encodable (s : str) : bool := forallb scalar s.

(** [str.isspace] on one character, which is also the class [\s] of the
    [re] module on [str] patterns (both are [Py_UNICODE_ISSPACE]). *)
Definition is_space (c : N) : bool :=
  between 9 13 c || between 28 32 c || (c =? 133) || (c =? 160)
  || (c =? 5760) || between 8192 8202 c || (c =? 8232) || (c =? 8233)
  || (c =? 8239) || (c =? 8287) || (c =? 12288).

Definition is_digit (c : N) : bool := between 48 57 c.
Definition is_ascii_upper (c : N) : bool := between 65 90 c.
Definition is_ascii_lower (c : N) : bool := between 97 122 c.

(** The class [[0-9a-zA-Z]]. *)
Definition is_ascii_alnum (c : N) : bool :=
  is_digit c || is_ascii_upper c || is_ascii_lower c.

(** The class [\w] of the [re] module on [str] patterns: alphanumeric
    ([str.isalnum]) or the underscore.  The table covers the code points up
    to U+00FF; no code point above is taken for a word character. *)
Definition is_word (c : N) : bool :=
  is_ascii_alnum c || (c =? 95)
  || (c =? 170) || (c =? 178) || (c =? 179) || (c =? 181)
  || (c =? 185) || (c =? 186) || between 188 190 c
  || between 192 214 c || between 216 246 c || between 248 255 c.

(** [str.lower], character by character.  The table covers the code
    points up to U+00FF; the code points above are left as they are. *)
Definition lower_char (c : N) : N :=
  if is_ascii_upper c then c + 32
  else if between 192 222 c && negb (c =? 215) then c + 32
  else c.

Definition lower (s : str) : str := map lower_char s.


(** [str.upper]; one character may become several ([ß] becomes [SS]).
    The table covers the code points up to U+00FF; the code points above
    are left as they are. *)
Definition upper_char (c : N) : str :=
  if is_ascii_lower c then [c - 32]
  else if between 224 254 c && negb (c =? 247) then [c - 32]
  else if c =? 223 then [83; 83]
  else if c =? 255 then [376]
  else if c =? 181 then [924]
  else [c].

Definition upper (s : str) : str := flat_map upper_char s.

Fixpoint prefixb (p s : str) : bool :=
  match p, s with
  | [], _ => true
  | x :: p', y :: s' => (x =? y) && prefixb p' s'
  | _ :: _, [] => false
  end.

(** [p in s]: substring containment. *)
Fixpoint contains (p s : str) : bool :=
  prefixb p s || match s with [] => false | _ :: s' => contains p s' end.

(** [s.endswith(p)]. *)
Definition endswith (s p : str) : bool := prefixb (rev p) (rev s).

Fixpoint drop_while (p : N -> bool) (s : str) : str :=
  match s with
  | [] => []
  | c :: s' => if p c then drop_while p s' else s
  end.

Definition lstrip_by (p : N -> bool) (s : str) : str := drop_while p s.
Definition rstrip_by (p : N -> bool) (s : str) : str :=
  rev (drop_while p (rev s)).

(** [s.strip()] and [s.strip(chars)] for a one-character set. *)
Definition strip_by (p : N -> bool) (s : str) : str :=
  rstrip_by p (lstrip_by p s).
Definition strip (s : str) : str := strip_by is_space s.

(** [s.replace(old, new)] for a non-empty [old]: occurrences are replaced
    from the left and do not overlap.  [skip] counts the characters of the
    current occurrence that are still to be passed over. *)
Fixpoint replace_go (old new : str) (skip : nat) (s : str) : str :=
  match s with
  | [] => []
  | c :: s' =>
      match skip with
      | S k => replace_go old new k s'
      | O => if prefixb old s
             then new ++ replace_go old new (Nat.pred (List.length old)) s'
             else c :: replace_go old new 0 s'
      end
  end.

Definition replace (old new s : str) : str := replace_go old new 0 s.

(** [sep.join(l)]. *)
Fixpoint join (sep : str) (l : list str) : str :=
  match l with
  | [] => []
  | [x] => x
  | x :: l' => x ++ sep ++ join sep l'
  end.

(** [re.sub(r'[cls]+', rep, s)]: every maximal run of characters of the
    class is replaced by [rep].  [in_run] tells that the previous character
    belonged to a run already replaced. *)
Fixpoint sub_plus_go (cls : N -> bool) (rep : str) (in_run : bool) (s : str)
  : str :=
  match s with
  | [] => []
  | c :: s' =>
      if cls c
      then (if in_run then [] else rep) ++ sub_plus_go cls rep true s'
      else c :: sub_plus_go cls rep false s'
  end.

Definition sub_plus (cls : N -> bool) (rep s : str) : str :=
  sub_plus_go cls rep false s.

(** Shapes of a normalised text: no character of a class at either end,
    and white space only as single blanks between other characters. *)
Definition edges_clean (p : N -> bool) (s : str) : Prop :=
  match s with [] => True | c :: _ => p c = false end
  /\ match rev s with [] => True | c :: _ => p c = false end.

Fixpoint single_spaced (s : str) : bool :=
  match s with
  | [] => true
  | c :: s' =>
      (negb (is_space c)
       || ((c =? 32)
           && match s' with d :: _ => negb (is_space d) | [] => true end))
      && single_spaced s'
  end.

(** [re.sub(r"\band\b", ' and ', s)]: a match is the text [and] with a word
    boundary on either side.  [prev_word] tells whether the character before
    the current position is a word character; [skip] passes over the rest of
    a match. *)
Definition and_word : str := lit "and".

Definition word_end (s : str) : bool :=
  match s with [] => true | c :: _ => negb (is_word c) end.

Fixpoint sub_and_go (skip : nat) (prev_word : bool) (s : str) : str :=
  match s with
  | [] => []
  | c :: s' =>
      match skip with
      | S k => sub_and_go k true s'
      | O =>
          if negb prev_word && prefixb and_word s && word_end (skipn 3 s)
          then lit " and " ++ sub_and_go 2 true s'
          else c :: sub_and_go 0 (is_word c) s'
      end
  end.

Definition sub_and (s : str) : str := sub_and_go 0 false s.

(** [re.sub(r'\s*-\s*', '-', s)].  At a position the pattern matches when the
    white space found there is followed by a hyphen; the match then extends
    over the white space after the hyphen.  White space that is not followed
    by a hyphen is copied.  [buf] holds (reversed) the white space read and
    not yet decided; [after] tells that a match has just ended, whose trailing
    white space is being consumed. *)
Definition hyphen : N := 45.

Fixpoint sub_hyphen_go (buf : str) (after : bool) (s : str) : str :=
  match s with
  | [] => rev buf
  | c :: s' =>
      if c =? hyphen then hyphen :: sub_hyphen_go [] true s'
      else if is_space c
           then (if after then sub_hyphen_go [] true s'
                 else sub_hyphen_go (c :: buf) false s')
           else rev buf ++ c :: sub_hyphen_go [] false s'
  end.

Definition sub_hyphen (s : str) : str := sub_hyphen_go [] false s.






(** The same property read one character at a time, without looking ahead.
    The state tells what precedes the current position: the inside of a word
    that cannot be a stand-alone [and] ([Word]); a character that is not a
    word character, or the start of the text ([Gap]); or the first one, two
    or three letters of [and] read from the start of a word ([A1], [A2],
    [A3]).  The flag tells whether the character before that word start is a
    blank or a hyphen, or that there is none. *)
Inductive scan_state : Type :=
| Word
| Gap (lok : bool)
| A1 (lok : bool)
| A2 (lok : bool)
| A3 (lok : bool).

Definition delim (c : N) : bool := is_space c || (c =? hyphen).

Definition scan_step (q : scan_state) (c : N) : option scan_state :=
  if is_word c then
    Some match q with
         | Gap lok => if c =? 97 then A1 lok else Word
         | A1 lok => if c =? 110 then A2 lok else Word
         | A2 lok => if c =? 100 then A3 lok else Word
         | A3 _ | Word => Word
         end
  else
    match q with
    | A3 lok => if lok && delim c then Some (Gap true) else None
    | _ => Some (Gap (delim c))
    end.

Definition scan_final (q : scan_state) : bool :=
  match q with A3 lok => lok | _ => true end.

Fixpoint scan_run (q : scan_state) (s : str) : bool :=
  match s with
  | [] => scan_final q
  | c :: s' =>
      match scan_step q c with
      | Some q' => scan_run q' s'
      | None => false
      end
  end.




(** One state is at least as good as another: the same, or with the flag
    raised. *)
Definition scan_le (q q' : scan_state) : bool :=
  match q, q' with
  | Word, Word => true
  | Gap l, Gap l' | A1 l, A1 l' | A2 l, A2 l' | A3 l, A3 l' => implb l l'
  | _, _ => false
  end.

(** [re.split] for a pattern that is an alternation of a character class
    (one character [cls], or a run [cls+] when [runs] is set) and of literal
    separators, tried in this order at each position.  [cur] is the piece
    being read (reversed); [skip] passes over the rest of a literal
    separator; [in_run] tells that a run of class characters is being
    passed over. *)
Fixpoint first_prefix (seps : list str) (s : str) : option nat :=
  match seps with
  | [] => None
  | p :: seps' => if prefixb p s then Some (List.length p) else first_prefix seps' s
  end.

Fixpoint split_go (cls : N -> bool) (runs : bool) (seps : list str)
  (skip : nat) (in_run : bool) (cur : str) (s : str) : list str :=
  match s with
  | [] => [rev cur]
  | c :: s' =>
      match skip with
      | S k => split_go cls runs seps k false cur s'
      | O =>
          if cls c then
            if in_run && runs then split_go cls runs seps 0 true cur s'
            else rev cur :: split_go cls runs seps 0 true [] s'
          else
            match first_prefix seps s with
            | Some (S k) => rev cur :: split_go cls runs seps k false [] s'
            | _ => split_go cls runs seps 0 false (c :: cur) s'
            end
      end
  end.

Definition split (cls : N -> bool) (runs : bool) (seps : list str) (s : str)
  : list str :=
  split_go cls runs seps 0 false [] s.

(** ** Python dictionaries: insertion-ordered association lists *)

Section Dict.
Variables (K V : Type) (eqb : K -> K -> bool).

Definition dict := list (K * V).

(** [d.get(k)]. *)
Fixpoint dict_get (k : K) (d : dict) : option V :=
  match d with
  | [] => None
  | (k', v) :: d' => if eqb k k' then Some v else dict_get k d'
  end.

(** [k in d]. *)
Definition dict_mem (k : K) (d : dict) : bool :=
  match dict_get k d with Some _ => true | None => false end.

(** [d[k] = v]: an existing key keeps its place, a new key goes last. *)
Fixpoint dict_set (k : K) (v : V) (d : dict) : dict :=
  match d with
  | [] => [(k, v)]
  | (k', v') :: d' =>
      if eqb k k' then (k', v) :: d' else (k', v') :: dict_set k v d'
  end.

(** [d.update(items)]. *)
Definition dict_update (d : dict) (items : list (K * V)) : dict :=
  fold_left (fun acc kv => dict_set (fst kv) (snd kv) acc) items d.

(** A dictionary display [{k1: v1, ...}]. *)
Definition dict_of (items : list (K * V)) : dict := dict_update [] items.

Definition dict_keys (d : dict) : list K := map fst d.
End Dict.

End Py.

(** ** The [disasters] table as the scripts read it *)

Module Db.
Import Py.

(** A row of [SELECT rowid, * FROM disasters]: [r[0]] is the row id and
    [r[i+1]] the cell of column [i], a text or NULL. *)
Record row := { rowid : Z; cells : list (option str) }.

(** [cols]: the column names of [PRAGMA table_info(disasters)]. *)
Record table := { cols : list str; rows : list row }.

(** [find_col]: the first column whose name contains [key]. *)
Definition find_col (cols : list str) (key : str) : option str :=
  find (fun c => contains key c) cols.

(** [a or b] on optional column names. *)
Definition or_else {A} (a b : option A) : option A :=
  match a with Some _ => a | None => b end.

(** [idx = {name: i for i, name in enumerate(['rowid'] + cols)}]. *)
Definition idx_of (cols : list str) : dict str nat :=
  let header := lit "rowid" :: cols in
  dict_of str_eqb (combine header (seq 0 (List.length header))).

(** [r[idx[name]]] for a text column. *)
Definition cell (idx : dict str nat) (r : row) (name : str) : option str :=
  match dict_get str_eqb name idx with
  | Some (S i) => nth i (cells r) None
  | _ => None
  end.

(** [r[idx[col]] if col else None]. *)
Definition cell_opt (idx : dict str nat) (r : row) (col : option str)
  : option str :=
  match col with Some c => cell idx r c | None => None end.

(** Truth value of a cell: NULL and the empty text are false. *)
Definition truthy (v : option str) : bool :=
  match v with Some (_ :: _) => true | _ => false end.

(** [v or ''] on a cell. *)
Definition text_of (v : option str) : str :=
  match v with Some s => s | None => [] end.

End Db.

(** ** Output features *)

Module Geo.
Import Py.

(** One entry of the [features] list: a point [[lon, lat]] and the
    properties bag. *)
Record feature := {
  f_id : Z;
  f_lon : Q;
  f_lat : Q;
  f_year : option str;
  f_disaster : option str;
  f_article : option str;
  f_location : option str
}.

End Geo.

(** ** [generate_geojson.py]: the rule-based resolver *)

Module generate_geojson.
Import Py Db Geo.

Local Open Scope Q_scope.

(** A coordinate pair [(lat, lon)]. *)
Definition coord := (Q * Q)%type.

(** A valid coordinate: latitude within [-90, 90], longitude within
    [-180, 180]. *)
Definition valid_coord (c : coord) : Prop :=
  (-90 <= fst c /\ fst c <= 90) /\ (-180 <= snd c /\ snd c <= 180).

Definition valid_coordb (c : coord) : bool :=
  Qle_bool (-90) (fst c) && Qle_bool (fst c) 90
  && Qle_bool (-180) (snd c) && Qle_bool (snd c) 180.

Definition sdict (V : Type) := dict str V.
Definition sget {V} (k : str) (d : sdict V) : option V := dict_get str_eqb k d.
Definition smem {V} (k : str) (d : sdict V) : bool := dict_mem str_eqb k d.
Definition sdict_of {V} (items : list (str * V)) : sdict V :=
  dict_of str_eqb items.
Definition supdate {V} (d : sdict V) (items : list (str * V)) : sdict V :=
  dict_update str_eqb d items.

(** Approximate centroids for US states and common regions (lat, lon). *)
Definition STATE_COORDS : sdict coord := sdict_of
  [ (lit "alabama", (32.806671, -86.791130));
    (lit "alaska", (61.370716, -152.404419));
    (lit "arizona", (33.729759, -111.431221));
    (lit "arkansas", (34.969704, -92.373123));
    (lit "california", (36.116203, -119.681564));
    (lit "colorado", (39.059811, -105.311104));
    (lit "connecticut", (41.597782, -72.755371));
    (lit "delaware", (39.318523, -75.507141));
    (lit "florida", (27.766279, -81.686783));
    (lit "georgia", (33.040619, -83.643074));
    (lit "hawaii", (21.094318, -157.498337));
    (lit "idaho", (44.240459, -114.478828));
    (lit "illinois", (40.349457, -88.986137));
    (lit "indiana", (39.849426, -86.258278));
    (lit "iowa", (42.011539, -93.210526));
    (lit "kansas", (38.526600, -96.726486));
    (lit "kentucky", (37.668140, -84.670067));
    (lit "louisiana", (31.169546, -91.867805));
    (lit "maine", (44.693947, -69.381927));
    (lit "maryland", (39.063946, -76.802101));
    (lit "massachusetts", (42.230171, -71.530106));
    (lit "michigan", (43.326618, -84.536095));
    (lit "minnesota", (45.694454, -93.900192));
    (lit "mississippi", (32.741646, -89.678696));
    (lit "missouri", (38.456085, -92.288368));
    (lit "montana", (46.921925, -110.454353));
    (lit "nebraska", (41.125370, -98.268082));
    (lit "nevada", (38.313515, -117.055374));
    (lit "new hampshire", (43.452492, -71.563896));
    (lit "new jersey", (40.298904, -74.521011));
    (lit "new mexico", (34.840515, -106.248482));
    (lit "new york", (42.165726, -74.948051));
    (lit "north carolina", (35.630066, -79.806419));
    (lit "north dakota", (47.528912, -99.784012));
    (lit "ohio", (40.388783, -82.764915));
    (lit "oklahoma", (35.565342, -96.928917));
    (lit "oregon", (44.572021, -122.070938));
    (lit "pennsylvania", (40.590752, -77.209755));
    (lit "rhode island", (41.680893, -71.511780));
    (lit "south carolina", (33.856892, -80.945007));
    (lit "south dakota", (44.299782, -99.438828));
    (lit "tennessee", (35.747845, -86.692345));
    (lit "texas", (31.054487, -97.563461));
    (lit "utah", (40.150032, -111.862434));
    (lit "vermont", (44.045876, -72.710686));
    (lit "virginia", (37.769337, -78.169968));
    (lit "washington", (47.400902, -121.490494));
    (lit "west virginia", (38.491226, -80.954453));
    (lit "wisconsin", (44.268543, -89.616508));
    (lit "wyoming", (42.755966, -107.302490));
    (lit "district of columbia", (38.9072, -77.0369));
    (lit "puerto rico", (18.2208, -66.5901)) ].

(** Some common region keywords mapped to approximate coordinates.  Two
    values are read with [STATE_COORDS.get], whose result is optional, so
    the values of this table are optional coordinates. *)
Definition REGION_COORDS : sdict (option coord) := sdict_of
  [ (lit "southern united states", Some (31.0, -86.0));
    (lit "southern united states,midwestern united states", Some (36.0, -88.0));
    (lit "midwestern united states", Some (41.5, -90.0));
    (lit "western united states", Some (40.0, -120.0));
    (lit "eastern united states", Some (40.0, -75.0));
    (lit "northeastern united states", Some (43.0, -71.0));
    (lit "southeastern united states", Some (32.0, -82.0));
    (lit "great lakes region", Some (43.0, -84.0));
    (lit "hawaii", sget (lit "hawaii") STATE_COORDS);
    (lit "alaska", sget (lit "alaska") STATE_COORDS) ].

(** The text normalisation at the head of [find_location_coords]. *)
Definition normalize (loc_text : str) : str :=
  let s := lower loc_text in
  let s := replace [10%N] (lit " ") s in
  let s := sub_and s in
  let s := replace [8211%N] (lit "-") s in
  let s := replace [8212%N] (lit "-") s in
  let s := replace (lit "/") (lit ", ") s in
  let s := sub_plus (fun c => (c =? 95)%N || (c =? 9)%N) (lit " ") s in
  let s := sub_plus (fun c => contains [c] (lit ".()[]")) (lit " ") s in
  let s := sub_hyphen s in
  strip (sub_plus is_space (lit " ") s).

(** A text that starts with a Basic Latin small letter. *)
Definition starts_lower (k : str) : bool :=
  match k with c :: _ => is_ascii_lower c | [] => false end.

(** A character that the steps before the hyphen substitution leave as it
    is: it is its own lower case and none of the characters they replace. *)
Definition settled (c : N) : bool :=
  (lower_char c =? c)%N
  && negb (existsb (N.eqb c) [10; 8211; 8212; 47; 95; 9; 46; 40; 41; 91; 93]%N).

(** [for k, v in table.items(): if k in s: return v]. *)
Fixpoint first_contained {V} (table : sdict V) (s : str) : option V :=
  match table with
  | [] => None
  | (k, v) :: table' =>
      if contains k s then Some v else first_contained table' s
  end.

(** The dictionary display of postal codes, as written in the source. *)
Definition abbr_display : list (str * str) :=
  [ (lit "AL", lit "alabama"); (lit "AK", lit "alaska");
    (lit "AZ", lit "arizona"); (lit "AR", lit "arkansas");
    (lit "CA", lit "california"); (lit "CO", lit "colorado");
    (lit "CT", lit "connecticut"); (lit "DE", lit "delaware");
    (lit "FL", lit "florida"); (lit "GA", lit "georgia");
    (lit "HI", lit "hawaii"); (lit "ID", lit "idaho");
    (lit "IL", lit "illinois"); (lit "IN", lit "indiana");
    (lit "IA", lit "iowa"); (lit "KS", lit "kansas");
    (lit "KY", lit "kentucky"); (lit "LA", lit "louisiana");
    (lit "ME", lit "maine"); (lit "MD", lit "maryland");
    (lit "MA", lit "massachusetts"); (lit "MI", lit "michigan");
    (lit "MN", lit "minnesota"); (lit "MS", lit "mississippi");
    (lit "MO", lit "missouri"); (lit "MT", lit "montana");
    (lit "NE", lit "nebraska"); (lit "NV", lit "nevada");
    (lit "NH", lit "new hampshire"); (lit "NJ", lit "new jersey");
    (lit "NM", lit "new mexico"); (lit "NY", lit "new york");
    (lit "NC", lit "north carolina"); (lit "ND", lit "north dakota");
    (lit "OH", lit "ohio"); (lit "OK", lit "oklahoma");
    (lit "OR", lit "oregon"); (lit "PA", lit "pennsylvania");
    (lit "RI", lit "rhode island"); (lit "SC", lit "south carolina");
    (lit "SD", lit "south dakota"); (lit "TN", lit "tennessee");
    (lit "TX", lit "texas"); (lit "UT", lit "utah");
    (lit "VT", lit "vermont"); (lit "VA", lit "virginia");
    (lit "WA", lit "washington"); (lit "WV", lit "west virginia");
    (lit "WI", lit "wisconsin"); (lit "WY", lit "wyoming") ].

(** [abbr_map = {v: k for k, v in {...}.items()}]: the comprehension binds
    [k] to the code and [v] to the name, and stores [v: k]. *)
Definition abbr_map : sdict str :=
  sdict_of (map (fun kv => (snd kv, fst kv)) (sdict_of abbr_display)).

(** [tokens = re.split(r'[,\/;]+| and | & ', s)]. *)
Definition tokens (s : str) : list str :=
  split (fun c => contains [c] (lit ",/;")) true [lit " and "; lit " & "] s.

(** The token loop, for any table [m] standing for [abbr_map]:
    the first stripped token of two characters whose upper case is a key of
    [m] decides, and the result is [STATE_COORDS.get] of the value found. *)
Fixpoint token_loop (m : sdict str) (toks : list str) : option (option coord) :=
  match toks with
  | [] => None
  | tok :: toks' =>
      let tok := strip tok in
      if (List.length tok =? 2)%nat && smem (upper tok) m
      then match sget (upper tok) m with
           | Some state_name => Some (sget state_name STATE_COORDS)
           | None => None
           end
      else token_loop m toks'
  end.

(** [STATE_COORDS[k]] for a key of the table. *)
Definition state (k : string) : coord :=
  match sget (lit k) STATE_COORDS with Some c => c | None => (0, 0) end.

Definition expanded_regions : sdict (option coord) :=
  supdate REGION_COORDS (sdict_of
  [ (lit "western north america", Some (45.0, -120.0));
    (lit "east coast", Some (40.0, -73.0));
    (lit "carolinas", Some (35.5, -79.0));
    (lit "great plains", Some (39.0, -98.0));
    (lit "great lakesarea", Some (43.0, -84.0));
    (lit "northeast", Some (43.0, -71.0));
    (lit "northwest", Some (46.5, -120.0));
    (lit "south-central united states", Some (33.0, -95.0));
    (lit "south central united states", Some (33.0, -95.0));
    (lit "central and southern states", Some (33.0, -95.0));
    (lit "midwestandnortheast", Some (41.0, -89.0));
    (lit "midwest and northeast", Some (41.0, -89.0));
    (lit "eastern us", Some (40.0, -75.0));
    (lit "eastern united states", Some (40.0, -75.0));
    (lit "western north america", Some (45.0, -120.0)) ]).

(** [yucatán] has a non-ASCII letter, U+00E1. *)
Definition yucatan_acute : str := lit "yucat" ++ [225%N] ++ lit "n".

Definition extra_keywords : sdict coord := sdict_of
  [ (lit "caribbean", (15.0, -61.0));
    (lit "venezuela", (7.0, -66.0));
    (lit "yucatan", (20.5, -89.5));
    (yucatan_acute, (20.5, -89.5));
    (lit "american samoa", (-14.271, -170.132));
    (lit "atlantic canada", (44.65, -63.6));
    (lit "widespread", (39.8, -98.5));
    (lit "nation", (39.8, -98.5));
    (lit "new england", (42.5, -71.5));
    (lit "great lakes", (43.0, -84.0));
    (lit "la plata", (38.5, -76.97)) ].

Definition city_map : sdict coord := sdict_of
  [ (lit "texas", state "texas");
    (lit "california", state "california");
    (lit "los angeles", state "california");
    (lit "greater los angeles", state "california");
    (lit "florida", state "florida");
    (lit "kansas", state "kansas");
    (lit "montana", state "montana");
    (lit "kentucky", state "kentucky");
    (lit "new york", state "new york");
    (lit "hawaii", state "hawaii");
    (lit "puerto rico", state "puerto rico");
    (lit "alaska", state "alaska");
    (lit "fargo", state "north dakota");
    (lit "waco", state "texas");
    (lit "carolinas", (35.5, -79.0));
    (lit "great plains", (39.0, -98.0));
    (lit "great lakesarea", (43.0, -84.0));
    (lit "midwest", (41.5, -90.0));
    (lit "midwestern united states", (41.5, -90.0));
    (lit "northwest", (46.5, -120.0));
    (lit "northeast", (43.0, -71.0));
    (lit "south central", (33.0, -95.0));
    (lit "american samoa", (-14.271, -170.132));
    (lit "caribbean", (15.0, -61.0));
    (lit "venezuela", (7.0, -66.0));
    (lit "yucatan", (20.5, -89.5));
    (yucatan_acute, (20.5, -89.5));
    (lit "new england", (42.5, -71.5));
    (lit "great lakes", (43.0, -84.0)) ].

(** The cascade after normalisation, for any table [m] standing for
    [abbr_map]. *)
Definition cascade (m : sdict str) (s : str) : option coord :=
  match first_contained STATE_COORDS s with
  | Some coord => Some coord
  | None =>
  match token_loop m (tokens s) with
  | Some r => r
  | None =>
  match first_contained expanded_regions s with
  | Some r => r
  | None =>
  match first_contained extra_keywords s with
  | Some v => Some v
  | None => first_contained city_map s
  end end end end.

Definition find_location_coords (loc_text : str) : option coord :=
  if falsy loc_text then None
  else cascade abbr_map (normalize loc_text).

(** The resolver as the specification words it, for comparison: the same
    normalisation, tables and cascade, where the second tier accepts a token
    of exactly two characters that upper-cases to a known postal
    abbreviation and yields the centroid of the state it abbreviates. *)
Definition postal_codes : sdict str := sdict_of abbr_display.

Definition spec_resolve (text : str) : option coord :=
  if falsy text then None
  else cascade postal_codes (normalize text).


(** The body of the row loop of [main]: the coordinate chosen for a row. *)
Definition row_coord (idx : dict str nat) (col_location : str) (r : row)
  : option coord :=
  let loc_text := cell idx r col_location in
  if negb (truthy loc_text) then
    let candidates :=
      flat_map (fun alt =>
                  let val := cell idx r alt in
                  if truthy val then [text_of val] else [])
               (filter (fun col => dict_mem str_eqb col idx)
                       [lit "main_article"; lit "notes"]) in
    let combined := strip (join (lit " ") candidates) in
    find_location_coords combined
  else find_location_coords (text_of loc_text).

Fixpoint features_of (idx : dict str nat)
  (col_location : str) (col_year col_disaster col_article : option str)
  (rs : list row) : list feature :=
  match rs with
  | [] => []
  | r :: rs' =>
      match row_coord idx col_location r with
      | None => features_of idx col_location col_year col_disaster col_article rs'
      | Some coord =>
          {| f_id := rowid r;
             f_lon := snd coord;
             f_lat := fst coord;
             f_year := cell_opt idx r col_year;
             f_disaster := cell_opt idx r col_disaster;
             f_article := cell_opt idx r col_article;
             f_location := cell idx r col_location |}
          :: features_of idx col_location col_year col_disaster col_article rs'
      end
  end.

(** [main]: the feature collection written to [disasters_geo.json], or
    [None] when the table has no location-like column. *)
Definition main (t : table) : option (list feature) :=
  let col_names := cols t in
  let col_location :=
    or_else (find_col col_names (lit "location")) (find_col col_names (lit "loc")) in
  let col_year :=
    or_else (find_col col_names (lit "year")) (find_col col_names (lit "date")) in
  let col_disaster := find_col col_names (lit "disaster") in
  let col_article := find_col col_names (lit "article") in
  match col_location with
  | None => None
  | Some col_location =>
      Some (features_of (idx_of col_names) col_location
              col_year col_disaster col_article (rows t))
  end.

End generate_geojson.

(** ** [csv_to_db.py]: column names *)

Module csv_to_db.
Import Py.

Definition underscore : N := 95.

(** [sanitize]: convert a header to a safe snake_case column name. *)
Definition sanitize (col : str) : str :=
  let col := strip col in
  let col := replace (lit "$") (lit "usd") col in
  let col := sub_plus (fun c => negb (is_ascii_alnum c)) (lit "_") col in
  let col := sub_plus (fun c => c =? underscore) (lit "_") col in
  let col := lower (strip_by (fun c => c =? underscore) col) in
  let col := if falsy col then lit "col" else col in
  match col with
  | c :: _ => if is_digit c then lit "c_" ++ col else col
  | [] => col
  end.

(** The two classes of [sanitize] and the prefix its first substitution
    puts before a text, given whether a run is being replaced already. *)
Definition na (c : N) : bool := negb (is_ascii_alnum c).
Definition us (c : N) : bool := c =? underscore.

Definition lead (b : bool) (s : str) : str :=
  match s with
  | c :: _ => if na c && negb b then lit "_" else []
  | [] => []
  end.

(** A list of non-empty words made of letters and digits. *)
Definition wordlike (p : N -> bool) (ws : list str) : Prop :=
  Forall (fun w => w <> [] /\ all p w) ws.

Definition lower_alnum (c : N) : bool := is_ascii_lower c || is_digit c.

(** The vocabulary of the specification, for comparison.  [pieces] cuts a
    text at every character that is not a Basic Latin letter or digit; the
    words of a header are the non-empty pieces. *)
Fixpoint pieces (s : str) : list str :=
  match s with
  | [] => [[]]
  | c :: s' =>
      if is_ascii_alnum c
      then match pieces s' with
           | p :: ps => (c :: p) :: ps
           | [] => [[c]]
           end
      else [] :: pieces s'
  end.

Definition words (s : str) : list str :=
  filter (fun p => negb (falsy p)) (pieces s).

(** The identifier the specification describes, from the words of a
    header: the lower-cased words joined by single underscores, [col] when
    there is no word, prefixed by [c_] when it would start with a digit. *)
Definition spec_name (ws : list str) : str :=
  let body := join (lit "_") (map lower ws) in
  match body with
  | [] => lit "col"
  | c :: _ => if is_digit c then lit "c_" ++ body else body
  end.

(** An ASCII snake_case identifier: not empty, made of small letters, digits
    and underscores, with no underscore first, last or doubled, and no digit
    first. *)
Definition ident_char (c : N) : bool :=
  is_ascii_lower c || is_digit c || (c =? underscore).

Fixpoint no_double_underscore (s : str) : bool :=
  match s with
  | a :: (b :: _) as s' =>
      negb ((a =? underscore) && (b =? underscore)) && no_double_underscore s'
  | _ => true
  end.

Definition snake_case (s : str) : bool :=
  match s with
  | [] => false
  | c :: _ =>
      is_ascii_lower c
      && forallb ident_char s
      && negb (last s 0 =? underscore)
      && no_double_underscore s
  end.

End csv_to_db.

(** ** The [json] module, for the values a cache file holds *)

Module PyJson.
Import Py.

(** A JSON value: [null], a number, a string or an object.  Arrays and
    booleans do not occur in a cache file and are left out. *)
#[warnings="-register-all"]
Inductive json :=
| JNull
| JNum (x : Q)
| JStr (s : str)
| JObj (members : list (str * json)).

Definition quote : N := 34.
Definition backslash : N := 92.

Definition hex_digit (n : N) : N := if n <? 10 then 48 + n else 87 + n.

(** The escapes of [json.dumps(..., ensure_ascii=False)]: the quote, the
    backslash and the control characters below U+0020. *)
Definition escape_char (c : N) : str :=
  if c =? quote then [backslash; quote]
  else if c =? backslash then [backslash; backslash]
  else if c =? 10 then [backslash; 110]
  else if c =? 13 then [backslash; 114]
  else if c =? 9 then [backslash; 116]
  else if c =? 8 then [backslash; 98]
  else if c =? 12 then [backslash; 102]
  else if c <? 32 then
    [backslash; 117; 48; 48; hex_digit (c / 16); hex_digit (c mod 16)]
  else [c].

Definition encode_str (s : str) : str :=
  [quote] ++ flat_map escape_char s ++ [quote].

(** The line break and indentation before an item at a nesting level, for
    [indent=2]. *)
Definition newline_indent (level : nat) : str :=
  10 :: repeat 32 (2 * level).

Definition push (c : N) (r : str * str) : str * str := (c :: fst r, snd r).

Definition unhex (c : N) : option N :=
  if is_digit c then Some (c - 48)
  else if between 97 102 c then Some (c - 87)
  else if between 65 70 c then Some (c - 55)
  else None.

Definition hex4 (a b c d : N) : option N :=
  match unhex a, unhex b, unhex c, unhex d with
  | Some x, Some y, Some z, Some t => Some (((x * 16 + y) * 16 + z) * 16 + t)
  | _, _, _, _ => None
  end.

Definition unescape (e : N) : option N :=
  if e =? quote then Some quote
  else if e =? backslash then Some backslash
  else if e =? 47 then Some 47
  else if e =? 98 then Some 8
  else if e =? 102 then Some 12
  else if e =? 110 then Some 10
  else if e =? 114 then Some 13
  else if e =? 116 then Some 9
  else None.

(** The body of a string up to its closing quote, and the text after it.
    A control character is refused, as the strict decoder does. *)
Fixpoint parse_chars (s : str) : option (str * str) :=
  match s with
  | [] => None
  | c :: s' =>
      if c =? quote then Some ([], s')
      else if c =? backslash then
        match s' with
        | [] => None
        | e :: s'' =>
            if e =? 117 then
              match s'' with
              | h1 :: h2 :: h3 :: h4 :: s5 =>
                  match hex4 h1 h2 h3 h4 with
                  | Some u => option_map (push u) (parse_chars s5)
                  | None => None
                  end
              | _ => None
              end
            else
              match unescape e with
              | Some u => option_map (push u) (parse_chars s'')
              | None => None
              end
        end
      else if c <? 32 then None
      else option_map (push c) (parse_chars s')
  end.

Definition json_ws (c : N) : bool :=
  (c =? 32) || (c =? 9) || (c =? 10) || (c =? 13).

Definition skip_ws (s : str) : str := drop_while json_ws s.

(** The characters of a number token. *)
Definition is_num_char (c : N) : bool :=
  is_digit c || (c =? 45) || (c =? 43) || (c =? 46) || (c =? 101) || (c =? 69).

Fixpoint take_while (p : N -> bool) (s : str) : str :=
  match s with
  | [] => []
  | c :: s' => if p c then c :: take_while p s' else []
  end.

Section Floats.
(** [float.__repr__], which writes a number, and [float], which reads a
    number token. *)
Variable float_repr : Q -> str.
Variable float_of_str : str -> option Q.

(** [json.dumps(v, indent=2, ensure_ascii=False)] at a nesting level. *)
Fixpoint dumps_at (level : nat) (v : json) : str :=
  match v with
  | JNull => lit "null"
  | JNum x => float_repr x
  | JStr s => encode_str s
  | JObj [] => lit "{}"
  | JObj (m :: ms) =>
      lit "{" ++ newline_indent (S level)
      ++ encode_str (fst m) ++ lit ": " ++ dumps_at (S level) (snd m)
      ++ flat_map
           (fun kv =>
              lit "," ++ newline_indent (S level)
              ++ encode_str (fst kv) ++ lit ": " ++ dumps_at (S level) (snd kv))
           ms
      ++ newline_indent level ++ lit "}"
  end.

Definition dumps (v : json) : str := dumps_at 0 v.

(** The decoder: a value at the head of a text, and the text after it.
    [fuel] bounds the number of values and members read. *)
Fixpoint parse_value (fuel : nat) (s : str) : option (json * str) :=
  match fuel with
  | O => None
  | S fuel' =>
      match s with
      | [] => None
      | c :: rest =>
          if prefixb (lit "null") s then Some (JNull, skipn 4 s)
          else if c =? quote then
            match parse_chars rest with
            | Some (x, rest') => Some (JStr x, rest')
            | None => None
            end
          else if c =? 123 then
            match skip_ws rest with
            | [] => None
            | d :: rest' =>
                if d =? 125 then Some (JObj [], rest')
                else
                  match parse_members fuel' (d :: rest') with
                  | Some (ms, rest'') =>
                      Some (JObj (dict_of str_eqb ms), rest'')
                  | None => None
                  end
            end
          else if is_num_char c then
            match float_of_str (take_while is_num_char s) with
            | Some x => Some (JNum x, drop_while is_num_char s)
            | None => None
            end
          else None
      end
  end
with parse_members (fuel : nat) (s : str) : option (list (str * json) * str) :=
  match fuel with
  | O => None
  | S fuel' =>
      match s with
      | [] => None
      | c :: rest =>
          if c =? quote then
            match parse_chars rest with
            | None => None
            | Some (k, r1) =>
                match skip_ws r1 with
                | [] => None
                | colon :: r2 =>
                    if colon =? 58 then
                      match parse_value fuel' (skip_ws r2) with
                      | None => None
                      | Some (v, r3) =>
                          match skip_ws r3 with
                          | [] => None
                          | d :: r4 =>
                              if d =? 125 then Some ([(k, v)], r4)
                              else if d =? 44 then
                                match parse_members fuel' (skip_ws r4) with
                                | Some (ms, r5) => Some ((k, v) :: ms, r5)
                                | None => None
                                end
                              else None
                          end
                      end
                    else None
                end
            end
          else None
      end
  end.

(** [json.loads(text)]: one value, with nothing but white space around. *)
Definition loads (text : str) : option json :=
  match parse_value (S (List.length text)) (skip_ws text) with
  | Some (v, rest) => if falsy (skip_ws rest) then Some v else None
  | None => None
  end.
End Floats.

End PyJson.

(** ** [geocode_nominatim.py]: cache, retries and pipeline *)

Module geocode_nominatim.
Import Py Db Geo.

Definition coord := generate_geojson.coord.

(** The cache: query to [{lat, lon}] or to the explicit [null]. *)
Definition cache_t := dict str (option coord).

Definition cget (q : str) (c : cache_t) : option (option coord) :=
  dict_get str_eqb q c.
Definition cmem (q : str) (c : cache_t) : bool := dict_mem str_eqb q c.
Definition cset (q : str) (v : option coord) (c : cache_t) : cache_t :=
  dict_set str_eqb q v c.

Definition normalize_query (s : str) : str :=
  if falsy s then []
  else
    let s := strip s in
    let s := sub_plus is_space (lit " ") s in
    replace [10] (lit " ") s.

Section Cache.
Variable float_repr : Q -> str.
Variable float_of_str : str -> option Q.

(** The cache as the JSON value [json.dumps] is given, and the cache a JSON
    value is when it has this shape. *)
Definition json_of_entry (v : option coord) : PyJson.json :=
  match v with
  | None => PyJson.JNull
  | Some c =>
      PyJson.JObj [(lit "lat", PyJson.JNum (fst c)); (lit "lon", PyJson.JNum (snd c))]
  end.

Definition json_of_cache (cache : cache_t) : PyJson.json :=
  PyJson.JObj (map (fun kv => (fst kv, json_of_entry (snd kv))) cache).

Definition entry_of_json (v : PyJson.json) : option (option coord) :=
  match v with
  | PyJson.JNull => Some None
  | PyJson.JObj m =>
      match dict_get str_eqb (lit "lat") m, dict_get str_eqb (lit "lon") m with
      | Some (PyJson.JNum lat), Some (PyJson.JNum lon) => Some (Some (lat, lon))
      | _, _ => None
      end
  | _ => None
  end.

Fixpoint entries_of_json (ms : list (str * PyJson.json)) : option cache_t :=
  match ms with
  | [] => Some []
  | (k, v) :: ms' =>
      match entry_of_json v, entries_of_json ms' with
      | Some e, Some rest => Some ((k, e) :: rest)
      | _, _ => None
      end
  end.

Definition cache_of_json (v : PyJson.json) : option cache_t :=
  match v with
  | PyJson.JObj ms => entries_of_json ms
  | _ => None
  end.

(** The numbers of an entry are floats, for a given notion of float. *)
Definition floats_ok (is_float : Q -> Prop) (v : option coord) : Prop :=
  match v with
  | Some c => is_float (fst c) /\ is_float (snd c)
  | None => True
  end.

(** The cache file: its text, or nothing when it does not exist. *)
Definition cache_file := option str.

(** [load_cache]: the content of the file when it exists (no result when it
    cannot be read as a cache), the empty cache otherwise. *)
Definition load_cache (file : cache_file) : option cache_t :=
  match file with
  | Some text =>
      match PyJson.loads float_of_str text with
      | Some v => cache_of_json v
      | None => None
      end
  | None => Some []
  end.

(** [save_cache]: the file is rewritten with the whole mapping, written as
    UTF-8; there is no result when the text cannot be encoded, [write_text]
    raising then. *)
Definition save_cache (cache : cache_t) (file : cache_file)
  : option cache_file :=
  let text := PyJson.dumps float_repr (json_of_cache cache) in
  if encodable text then Some (Some text) else None.
End Cache.

Definition hint : str := lit ", United States".

(** The query built for one row in the first loop of [main]. *)
Definition row_query (idx : dict str nat) (col_location : str)
  (col_article col_notes : option str) (r : row) : str :=
  let loc := cell idx r col_location in
  let q :=
    if truthy loc && negb (falsy (strip (text_of loc)))
    then normalize_query (text_of loc)
    else
      let cand :=
        (if truthy (cell_opt idx r col_article)
         then [text_of (cell_opt idx r col_article)] else [])
        ++ (if truthy (cell_opt idx r col_notes)
            then [text_of (cell_opt idx r col_notes)] else []) in
      normalize_query (join (lit " ") cand) in
  if negb (falsy q)
     && negb (contains (lit "united states") (lower q))
     && negb (contains (lit "usa") (lower q))
     && negb (contains (lit "puerto rico") (lower q))
     && negb (contains (lit "venezuela") (lower q))
     && negb (contains (lit "american samoa") (lower q))
  then q ++ hint
  else q.

(** [queries]: row id to query, filled row by row. *)
Definition build_queries (idx : dict str nat) (col_location : str)
  (col_article col_notes : option str) (rs : list row) : dict Z str :=
  fold_left
    (fun queries r =>
       dict_set Z.eqb (rowid r)
         (row_query idx col_location col_article col_notes r) queries)
    rs [].

(** [unique_qs]: each non-empty query with its number of rows. *)
Definition build_unique_qs (queries : dict Z str) : dict str nat :=
  fold_left
    (fun unique_qs rq =>
       let q := snd rq in
       if falsy q then unique_qs
       else
         let n := match dict_get str_eqb q unique_qs with
                  | Some n => n | None => O end in
         dict_set str_eqb q (n + 1)%nat unique_qs)
    queries [].

(** [missing = [q for q in unique_qs.keys() if q not in cache]]. *)
Definition missing_of (unique_qs : dict str nat) (cache : cache_t) : list str :=
  filter (fun q => negb (cmem q cache)) (dict_keys unique_qs).

(** [sorted(parts, key=lambda x: -len(x))]: a stable sort, longest first. *)
Fixpoint insert_by_len (x : str) (l : list str) : list str :=
  match l with
  | [] => [x]
  | y :: l' =>
      if (List.length y <=? List.length x)%nat then x :: l
      else y :: insert_by_len x l'
  end.

Definition sorted_by_len (l : list str) : list str :=
  fold_right insert_by_len [] l.

(** The order the sort establishes. *)
Definition longer_first (a b : str) : Prop :=
  (List.length b <= List.length a)%nat.

(** [[p.strip() for p in re.split(r',|;| and | & ', q) if p.strip()]]. *)
Definition parts_of (q : str) : list str :=
  flat_map (fun p => if falsy (strip p) then [] else [strip p])
    (split (fun c => (c =? 44) || (c =? 59)) false [lit " and "; lit " & "] q).

(** The separators of the pattern [,|;| and | & ], and whether one of them
    starts a text. *)
Definition separators : list str :=
  [lit ","; lit ";"; lit " and "; lit " & "].

Definition sep_at (s : str) : bool :=
  existsb (fun sep => prefixb sep s) separators.

(** The parts the specification speaks of, for comparison: a text is cut
    at its separators, read from the left.  The first piece ends where the
    first separator starts (no separator starts earlier), the other pieces
    are those of the text after this separator; a text in which no
    separator starts is one piece. *)
Inductive cuts : str -> list str -> Prop :=
| cuts_whole (s : str) :
    (forall u v, s = u ++ v -> sep_at v = false) ->
    cuts s [s]
| cuts_at (p sep rest : str) (ps : list str) :
    In sep separators ->
    (forall u v, p = u ++ v -> v <> [] -> sep_at (v ++ sep ++ rest) = false) ->
    cuts rest ps ->
    cuts (p ++ sep ++ rest) (p :: ps).

(** The list [attempts] before duplicates are removed. *)
Definition attempts_of (q : str) : list str :=
  let parts_sorted := sorted_by_len (parts_of q) in
  [q]
  ++ (if endswith q hint then [replace hint [] q] else [])
  ++ parts_sorted
  ++ map (fun p => p ++ hint) parts_sorted.

Definition seen_mem (a : str) (seen : list str) : bool :=
  existsb (str_eqb a) seen.

(** The loop that drops empty and repeated attempts, keeping the order. *)
Fixpoint dedupe (seen : list str) (attempts : list str) : list str :=
  match attempts with
  | [] => []
  | a :: rest =>
      if negb (falsy a) && negb (seen_mem a seen)
      then a :: dedupe (a :: seen) rest
      else dedupe seen rest
  end.

(** The list [out] of [try_geocode_variants]. *)
Definition variants (q : str) : list str := dedupe [] (attempts_of q).

(** The de-duplication the specification asks for, for comparison: each
    text is kept where it first occurs. *)
Fixpoint first_occurrences (l : list str) : list str :=
  match l with
  | [] => []
  | a :: l' => a :: filter (fun b => negb (str_eqb a b)) (first_occurrences l')
  end.

(** The second attempt as the comment in [try_geocode_variants] and the
    specification have it, for comparison: the query without its trailing
    hint. *)
Definition without_trailing (h q : str) : str :=
  firstn (List.length q - List.length h) q.

Definition spec_attempts_of (q : str) : list str :=
  let parts_sorted := sorted_by_len (parts_of q) in
  [q]
  ++ (if endswith q hint then [without_trailing hint q] else [])
  ++ parts_sorted
  ++ map (fun p => p ++ hint) parts_sorted.

Definition spec_variants (q : str) : list str :=
  first_occurrences (filter (fun a => negb (falsy a)) (spec_attempts_of q)).

(** What the run does that can be observed from outside. *)
Inductive event :=
| Request (q : str)      (* one call of [query_nominatim] *)
| Sleep (seconds : Q).   (* one call of [time.sleep] *)

(** The pacing the specification asks for: no request follows another
    request without a sleep between the two. *)
Fixpoint paced (log : list event) : bool :=
  match log with
  | [] => true
  | e :: rest =>
      match e, rest with
      | Request _, Request _ :: _ => false
      | _, _ => paced rest
      end
  end.

Definition requests (log : list event) : list str :=
  flat_map (fun e => match e with Request a => [a] | Sleep _ => [] end) log.

Definition sleeps (log : list event) : nat :=
  List.length (filter (fun e => match e with Sleep _ => true | _ => false end) log).

Section Run.
(** The remote service seen through [query_nominatim]: a state of the
    outside world [W], and for a request a result (a coordinate, or
    nothing on an empty answer, a bad status or an exception) with the
    next state. *)
Variable W : Type.
Variable nominatim : str -> W -> option coord * W.

Record world := { ext : W; log : list event }.

Definition query_nominatim (q : str) (w : world) : option coord * world :=
  let (res, e) := nominatim q (ext w) in
  (res, {| ext := e; log := log w ++ [Request q] |}).

Definition sleep (seconds : Q) (w : world) : world :=
  {| ext := ext w; log := log w ++ [Sleep seconds] |}.

(** The state of the service after it has answered the requests [l] one
    after the other, and whether it answered none of them. *)
Fixpoint after (l : list str) (e : W) : W :=
  match l with
  | [] => e
  | a :: l' => after l' (snd (nominatim a e))
  end.

Fixpoint silent (l : list str) (e : W) : Prop :=
  match l with
  | [] => True
  | a :: l' => fst (nominatim a e) = None /\ silent l' (snd (nominatim a e))
  end.

(** [for a in out: res = query_nominatim(a); if res: return res]. *)
Fixpoint try_each (out : list str) (w : world) : option coord * world :=
  match out with
  | [] => (None, w)
  | a :: out' =>
      match query_nominatim a w with
      | (Some res, w') => (Some res, w')
      | (None, w') => try_each out' w'
      end
  end.

Definition try_geocode_variants (q : str) (w : world)
  : option coord * world :=
  if falsy q then (None, w) else try_each (variants q) w.

(** The loop over [missing]: one lookup with its variants, one cache
    entry and one sleep for each query. *)
Fixpoint geocode_missing (missing : list str) (cache : cache_t) (w : world)
  : cache_t * world :=
  match missing with
  | [] => (cache, w)
  | q :: missing' =>
      let (res, w1) := try_geocode_variants q w in
      let cache1 := cset q res cache in
      geocode_missing missing' cache1 (sleep 1.1 w1)
  end.

(** The coordinate of one row in the feature loop: the cache, then the
    approximate file, then the heuristic of [generate_geojson]. *)
Definition feature_coord (queries : dict Z str) (cache : cache_t)
  (approx_map : dict Z coord) (rid : Z) : option coord :=
  let q := dict_get Z.eqb rid queries in
  let coord :=
    match q with
    | Some q =>
        if negb (falsy q) then
          match cget q cache with
          | Some (Some c) => Some c
          | _ => None
          end
        else None
    | None => None
    end in
  let coord :=
    match coord with
    | Some c => Some c
    | None => dict_get Z.eqb rid approx_map
    end in
  match coord with
  | Some c => Some c
  | None =>
      let loc_val := match q with Some q => q | None => [] end in
      generate_geojson.find_location_coords loc_val
  end.

Fixpoint features_of (idx : dict str nat) (queries : dict Z str)
  (cache : cache_t) (approx_map : dict Z coord)
  (col_location : str) (col_year col_disaster col_article : option str)
  (rs : list row) : list feature :=
  match rs with
  | [] => []
  | r :: rs' =>
      let rest := features_of idx queries cache approx_map
                    col_location col_year col_disaster col_article rs' in
      match feature_coord queries cache approx_map (rowid r) with
      | None => rest
      | Some coord =>
          {| f_id := rowid r;
             f_lon := snd coord;
             f_lat := fst coord;
             f_year := cell_opt idx r col_year;
             f_disaster := cell_opt idx r col_disaster;
             f_article := cell_opt idx r col_article;
             f_location := cell idx r col_location |} :: rest
      end
  end.

(** What one run leaves behind. *)
Record outcome := {
  o_queries : dict Z str;      (* the query of each row *)
  o_missing : list str;        (* the queries looked up in this run *)
  o_cache : cache_t;           (* the mapping given to [save_cache] *)
  o_features : list feature;   (* the collection written out *)
  o_world : world
}.

(** [main] from the point where the cache has been loaded: [cache] is the
    result of [load_cache()], [approx_map] the content read from the
    approximate GeoJSON file (empty when there is none). *)
Definition main_from (t : table) (cache : cache_t)
  (approx_map : dict Z coord) (w : world) : option outcome :=
  let cols := cols t in
  let col_location :=
    or_else (find_col cols (lit "location")) (find_col cols (lit "loc")) in
  let col_year :=
    or_else (find_col cols (lit "year")) (find_col cols (lit "date")) in
  let col_disaster := find_col cols (lit "disaster") in
  let col_article :=
    or_else (find_col cols (lit "main_article")) (find_col cols (lit "article")) in
  let col_notes := find_col cols (lit "notes") in
  match col_location with
  | None => None
  | Some col_location =>
      let idx := idx_of cols in
      let queries :=
        build_queries idx col_location col_article col_notes (rows t) in
      let unique_qs := build_unique_qs queries in
      let missing := missing_of unique_qs cache in
      let (cache', w') := geocode_missing missing cache w in
      Some {| o_queries := queries;
              o_missing := missing;
              o_cache := cache';
              o_features :=
                features_of idx queries cache' approx_map
                  col_location col_year col_disaster col_article (rows t);
              o_world := w' |}
  end.
End Run.

End geocode_nominatim.

(** ** Sample inputs *)

Module Samples.
Import Py Db Geo geocode_nominatim.

(** A service that answers no request. *)
Definition deaf (q : str) (e : unit) : option coord * unit := (None, e).

(** A service that answers every request with one coordinate. *)
Definition oracle (c : coord) (q : str) (e : unit) : option coord * unit :=
  (Some c, e).

Definition start : world unit := {| ext := tt; log := [] |}.

(** A table with the columns [year] and [location] and one row. *)
Definition one_row (location : string) : table :=
  {| cols := [lit "year"; lit "location"];
     rows := [ {| rowid := 1; cells := [Some (lit "1900"); Some (lit location)] |} ] |}.

(** A toy reading and writing of numbers, for the two numbers 1.5 and
    -2: enough to run the cache file functions on a sample. *)
Definition toy_repr (x : Q) : str :=
  if Qeq_bool x 1.5 then lit "1.5" else lit "-2.0".

Definition toy_float (s : str) : option Q :=
  if str_eqb s (lit "1.5") then Some 1.5%Q
  else if str_eqb s (lit "-2.0") then Some (-2)%Q
  else None.

Definition toy_is_float (x : Q) : Prop := x = 1.5%Q \/ x = (-2)%Q.

Definition texas_query : str := lit "Texas, United States".
Definition atlantis_query : str := lit "Atlantis, United States".

(** A query that names the country twice. *)
Definition guam_texas_query : str :=
  lit "Guam, United States; Texas, United States".

End Samples.


(** ** [geocode_missing.py] *)

Module geocode_missing.
Import Py Db Geo.

Definition coord := generate_geojson.coord.

(** The ending of [f"{loc_text}, United States"]. *)
Definition hint : str := lit ", United States".

(** The query sent for a location text: the text, with the hint unless it
    names the country already. *)
Definition query_of (loc_text : str) : str :=
  if negb (contains (lit "united states") (lower loc_text))
     && negb (contains (lit "usa") (lower loc_text))
     && negb (contains (lit "puerto rico") (lower loc_text))
  then loc_text ++ hint
  else loc_text.

Section Run.
(** A feature object as the GeoJSON file holds it, with the row id that
    [f.get('properties', {}).get('id')] is equal to, when it is equal to
    one. *)
Variable F : Type.
Variable id_of : F -> option Z.
(** The remote service, as in [geocode_nominatim]. *)
Variable W : Type.
Variable nominatim : str -> W -> option coord * W.

(** An entry of the list [features]: an object read from the file, or a
    feature the loop has built. *)
Inductive item : Type :=
| Read (f : F)
| Made (f : feature).

Definition item_id (i : item) : option Z :=
  match i with
  | Read f => id_of f
  | Made f => Some (f_id f)
  end.

(** [load_existing_ids], on the features read from the file: the set of
    their ids and the features. *)
Definition load_existing_ids (features : list F) : list Z * list F :=
  (flat_map (fun f => match id_of f with Some i => [i] | None => [] end)
     features,
   features).

Definition query_nominatim (q : str) (w : geocode_nominatim.world W)
  : option coord * geocode_nominatim.world W :=
  let (res, e) := nominatim q (geocode_nominatim.ext w) in
  (res, {| geocode_nominatim.ext := e;
           geocode_nominatim.log :=
             geocode_nominatim.log w ++ [geocode_nominatim.Request q] |}).

Definition sleep (seconds : Q) (w : geocode_nominatim.world W)
  : geocode_nominatim.world W :=
  {| geocode_nominatim.ext := geocode_nominatim.ext w;
     geocode_nominatim.log :=
       geocode_nominatim.log w ++ [geocode_nominatim.Sleep seconds] |}.

(** The answers of the service to the requests [qs], made one after the
    other from the state [e]. *)
Fixpoint answers (qs : list str) (e : W) : list (option coord) :=
  match qs with
  | [] => []
  | q :: qs' => fst (nominatim q e) :: answers qs' (snd (nominatim q e))
  end.

(** The first loop of [main]: the rows that have no feature yet and a
    location text, with their id and the stripped text. *)
Definition to_geocode (idx : dict str nat) (col_location : str)
  (existing_ids : list Z) (rs : list row) : list (Z * str * row) :=
  flat_map
    (fun r =>
       let rid := rowid r in
       if existsb (Z.eqb rid) existing_ids then []
       else
         let loc_text := strip (text_of (cell idx r col_location)) in
         if falsy loc_text then [] else [(rid, loc_text, r)])
    rs.

(** The feature built for an answered row. *)
Definition new_feature (idx : dict str nat)
  (col_year col_disaster col_article : option str)
  (rid : Z) (loc_text : str) (r : row) (c : coord) : feature :=
  {| f_id := rid;
     f_lon := snd c;
     f_lat := fst c;
     f_year := cell_opt idx r col_year;
     f_disaster := cell_opt idx r col_disaster;
     f_article := cell_opt idx r col_article;
     f_location := Some loc_text |}.

(** The second loop of [main]: one request and one sleep for each row to
    geocode, and a feature appended for each answer.  ([existing_ids.add]
    changes nothing of what follows, the rows having been chosen before the
    loop; [added] counts the features appended.) *)
Fixpoint geocode_rows (idx : dict str nat)
  (col_year col_disaster col_article : option str)
  (todo : list (Z * str * row)) (features : list item) (added : nat)
  (w : geocode_nominatim.world W)
  : list item * nat * geocode_nominatim.world W :=
  match todo with
  | [] => (features, added, w)
  | (rid, loc_text, r) :: todo' =>
      let query := query_of loc_text in
      let (coord, w1) := query_nominatim query w in
      match coord with
      | Some c =>
          geocode_rows idx col_year col_disaster col_article todo'
            (features
             ++ [Made (new_feature idx col_year col_disaster col_article
                         rid loc_text r c)])
            (S added) (sleep 1.1 w1)
      | None =>
          geocode_rows idx col_year col_disaster col_article todo'
            features added (sleep 1.1 w1)
      end
  end.

(** What one run leaves behind. *)
Record outcome := {
  g_todo : list (Z * str * row);   (* the rows to geocode *)
  g_features : list item;          (* the list written back to the file *)
  g_added : nat;
  g_world : geocode_nominatim.world W
}.

(** [main], given the features read from the existing GeoJSON file; there
    is no result when the table has no location-like column. *)
Definition main_from (t : table) (file_features : list F)
  (w : geocode_nominatim.world W) : option outcome :=
  let (existing_ids, features) := load_existing_ids file_features in
  let col_names := cols t in
  let col_location :=
    or_else (find_col col_names (lit "location")) (find_col col_names (lit "loc")) in
  let col_year :=
    or_else (find_col col_names (lit "year")) (find_col col_names (lit "date")) in
  let col_disaster := find_col col_names (lit "disaster") in
  let col_article := find_col col_names (lit "article") in
  match col_location with
  | None => None
  | Some col_location =>
      let idx := idx_of col_names in
      let todo := to_geocode idx col_location existing_ids (rows t) in
      let '(features', added, w') :=
        geocode_rows idx col_year col_disaster col_article todo
          (map Read features) 0 w in
      Some {| g_todo := todo;
              g_features := features';
              g_added := added;
              g_world := w' |}
  end.
End Run.

End geocode_missing.

(** ** [list_unmatched.py] *)

Module list_unmatched.
Import Py Db Geo.

(** The coordinate looked up for a row in the loop of [main]. *)
Definition row_coord (idx : dict str nat) (col_location : str) (r : row)
  : option generate_geojson.coord :=
  let loc := cell idx r col_location in
  if truthy loc then generate_geojson.find_location_coords (text_of loc)
  else
    let candidates :=
      flat_map
        (fun alt =>
           if dict_mem str_eqb alt idx then
             let val := cell idx r alt in
             if truthy val then [text_of val] else []
           else [])
        [lit "main_article"; lit "notes"] in
    let combined := strip (join (lit " ") candidates) in
    if negb (falsy combined)
    then generate_geojson.find_location_coords combined
    else None.

(** One line of the report: [(r[0], loc, year, disaster)]. *)
Definition line : Type := (Z * option str * option str * option str)%type.

(** [main]: the list [unmatched].  Without a location-like column the
    first row read raises [KeyError] (no result); a table without rows
    passes. *)
Definition main (t : table) : option (list line) :=
  let cols := cols t in
  let col_location :=
    or_else (find_col cols (lit "location")) (find_col cols (lit "loc")) in
  let col_year :=
    or_else (find_col cols (lit "year")) (find_col cols (lit "date")) in
  let col_disaster := find_col cols (lit "disaster") in
  let idx := idx_of cols in
  match col_location with
  | None => match rows t with [] => Some [] | _ :: _ => None end
  | Some col_location =>
      Some
        (flat_map
           (fun r =>
              match row_coord idx col_location r with
              | None =>
                  [(rowid r, cell idx r col_location,
                    cell_opt idx r col_year, cell_opt idx r col_disaster)]
              | Some _ => []
              end)
           (rows t))
  end.

End list_unmatched.

(** ** [scraping.py]: the table written to the CSV file *)

Module scraping.
Import Py.

(** [r.extend([''] * (n - len(r)))] when [len(r) < n]. *)
Definition extend_to (n : nat) (r : list str) : list str :=
  if (List.length r <? n)%nat then r ++ repeat [] (n - List.length r) else r.

(** [max(len(header), max((len(r) for r in rows), default=0))]. *)
Definition max_cols (header : list str) (rows : list (list str)) : nat :=
  Nat.max (List.length header) (fold_right Nat.max 0%nat (map (@List.length str) rows)).

(** The header and the rows written, from the texts of the cells of each
    [tr] of the table found: the first [tr] gives the header, the others
    the rows.  A table without [tr] has no first row (no result). *)
Definition csv_table (trs : list (list str))
  : option (list str * list (list str)) :=
  match trs with
  | [] => None
  | first_row :: rest =>
      let rows := rest in
      let header := first_row in
      let n := max_cols header rows in
      Some (extend_to n header, map (extend_to n) rows)
  end.

End scraping.

(** ** [csv_to_db.py]: the table made from the CSV records *)

Module csv_to_db_main.
Import Py.

(** One record of the file as it is inserted: padded with empty cells to
    the number of columns when it is shorter, and each cell stripped. *)
Definition insert_row (ncols : nat) (r : list str) : list str :=
  map strip
    (if (List.length r <? ncols)%nat
     then r ++ repeat [] (ncols - List.length r)
     else r).

(** No text occurs twice in a list. *)
Fixpoint distinct (l : list str) : bool :=
  match l with
  | [] => true
  | x :: l' => negb (existsb (str_eqb x) l') && distinct l'
  end.

(** How a run ends: on an empty file, on an error of the database, or with
    the table made, its column names and the rows handed to
    [executemany]. *)
Inductive load : Type :=
| Empty
| Failed
| Loaded (cols : list str) (rows : list (list str)).

Section Load.
(** What the database at hand accepts besides the rules of SQL followed
    below (its limits on the number of columns, on the length of a
    statement, on the size of a value): whether it takes the statement
    that creates the table with these columns, and the insertion of these
    rows into it. *)
Variable table_fits : list str -> bool.
Variable insert_fits : list str -> list (list str) -> bool.

(** Whether [CREATE TABLE disasters (id INTEGER PRIMARY KEY, "c" TEXT, ...)]
    is accepted: there is a column after [id] (the statement is no SQL
    otherwise) and no column name occurs twice, [id] included.  The names
    are made by [sanitize], of lower-case letters, digits and underscores,
    so that the comparison of SQLite, which ignores case, is equality. *)
Definition create_table_ok (cols : list str) : bool :=
  negb (match cols with [] => true | _ :: _ => false end)
  && distinct (lit "id" :: cols)
  && table_fits cols.

(** [main], from the records of the CSV file.  The table is created before
    the rows are read; the rows are inserted when there are any, each with
    as many values as there are columns. *)
Definition main (records : list (list str)) : load :=
  match records with
  | [] => Empty
  | header :: rest =>
      let cols := map csv_to_db.sanitize header in
      if create_table_ok cols then
        let rows := map (insert_row (List.length cols)) rest in
        match rows with
        | [] => Loaded cols rows
        | _ :: _ =>
            if forallb (fun r => (List.length r =? List.length cols)%nat) rows
               && insert_fits cols rows
            then Loaded cols rows
            else Failed
        end
      else Failed
  end.
End Load.

End csv_to_db_main.

(** ** [geocode_nominatim.py]: the approximate file *)

Module approx_file.
Import Py Geo.

(** The fallback map [approx_map] read from a feature collection that the
    scripts have written: the id of each feature to its [(lat, lon)], a
    later feature taking the place of an earlier one with the same id. *)
Definition approx_map_of (features : list feature)
  : dict Z generate_geojson.coord :=
  fold_left
    (fun approx_map f => dict_set Z.eqb (f_id f) (f_lat f, f_lon f) approx_map)
    features [].

End approx_file.

(** ** Entries of a table that never answer *)

Module Shadow.
Import Py.

(** The two coordinates are the same numbers. *)
Definition same_coord (a b : generate_geojson.coord) : bool :=
  Qeq_bool (fst a) (fst b) && Qeq_bool (snd a) (snd b).

(** In a table searched by [for k, v in table.items(): if k in s], every
    entry whose value is [bad] has a key that contains the key of an
    earlier entry (or one of [seen]). *)
Fixpoint shadowed {V} (bad : V -> bool) (seen : list str)
  (table : list (str * V)) : bool :=
  match table with
  | [] => true
  | (k, v) :: table' =>
      (negb (bad v) || existsb (fun k' => contains k' k) seen)
      && shadowed bad (k :: seen) table'
  end.

(** The Basic Latin letters. *)
Definition letters : list N :=
  map N.of_nat (seq 65 26 ++ seq 97 26).

End Shadow.

(** ** More sample inputs *)

Module MoreSamples.
Import Py Db Geo.

(** A table with the columns [year] and [location] and two rows. *)
Definition two_rows (a b : string) : table :=
  {| cols := [lit "year"; lit "location"];
     rows := [ {| rowid := 1; cells := [Some (lit "1900"); Some (lit a)] |};
               {| rowid := 2; cells := [Some (lit "1901"); Some (lit b)] |} ] |}.

(** A service that knows one place. *)
Definition knows (place : string) (c : generate_geojson.coord)
  (q : str) (e : unit) : option generate_geojson.coord * unit :=
  (if str_eqb q (lit place) then Some c else None, e).

(** A feature of the file with an id and a coordinate, and the id read
    from it. *)
Definition feature_at (rid : Z) (c : generate_geojson.coord) : feature :=
  {| f_id := rid; f_lon := snd c; f_lat := fst c;
     f_year := None; f_disaster := None; f_article := None;
     f_location := None |}.

Definition id_some (f : feature) : option Z := Some (f_id f).

End MoreSamples.
(* ================================================================== *)
(** * Part II: properties                                              *)
(* ================================================================== *)

Unset Implicit Arguments.

(** ** Strings *)

Module PyFacts.
Import Py.

Lemma str_eqb_eq (a b : str) : str_eqb a b = true <-> a = b.
Proof.
  revert b; induction a as [|x a IH]; intros [|y b]; simpl;
    try (split; [discriminate | congruence]); try tauto.
  rewrite andb_true_iff, N.eqb_eq, IH.
  split; [intros [-> ->]; reflexivity | intros H; inversion H; auto].
Qed.

Lemma str_eqb_refl (a : str) : str_eqb a a = true.
Proof. apply str_eqb_eq; reflexivity. Qed.

Lemma str_eqb_neq (a b : str) : str_eqb a b = false <-> a <> b.
Proof.
  rewrite <- str_eqb_eq. destruct (str_eqb a b); split; congruence.
Qed.

(** Upper-casing leaves no Basic Latin small letter behind. *)
Lemma upper_char_no_lower (c : N) :
  Forall (fun u => is_ascii_lower u = false) (upper_char c).
Proof.
  unfold upper_char.
  destruct (is_ascii_lower c) eqn:Hl.
  { constructor; [|constructor].
    unfold is_ascii_lower, between in *.
    apply andb_true_iff in Hl as [H1 H2].
    apply N.leb_le in H1, H2.
    apply andb_false_iff; left. apply N.leb_gt. lia. }
  destruct (between 224 254 c && negb (c =? 247)) eqn:Hb.
  { constructor; [|constructor].
    apply andb_true_iff in Hb as [Hb _].
    unfold is_ascii_lower, between in *.
    apply andb_true_iff in Hb as [H1 H2].
    apply N.leb_le in H1, H2.
    apply andb_false_iff; right. apply N.leb_gt. lia. }
  destruct (c =? 223); [repeat constructor|].
  destruct (c =? 255); [repeat constructor|].
  destruct (c =? 181); [repeat constructor|].
  constructor; [exact Hl | constructor].
Qed.

Lemma upper_no_lower (s : str) :
  Forall (fun u => is_ascii_lower u = false) (upper s).
Proof.
  induction s as [|c s IH]; simpl; [constructor|].
  apply Forall_app; split; [apply upper_char_no_lower | exact IH].
Qed.

End PyFacts.

(** ** Dictionaries *)

Module DictFacts.
Import Py.

Section Facts.
Variables (K V : Type) (eqb : K -> K -> bool).
Hypothesis eqb_eq : forall a b, eqb a b = true <-> a = b.

Lemma eqb_refl (a : K) : eqb a a = true.
Proof. apply eqb_eq; reflexivity. Qed.

Lemma eqb_neq (a b : K) : a <> b -> eqb a b = false.
Proof.
  intros H. destruct (eqb a b) eqn:E; [|reflexivity].
  apply eqb_eq in E. contradiction.
Qed.

Lemma get_set_same (k : K) (v : V) (d : dict K V) :
  dict_get eqb k (dict_set eqb k v d) = Some v.
Proof.
  induction d as [|[k' v'] d IH]; cbn [dict_set dict_get].
  - rewrite eqb_refl; reflexivity.
  - destruct (eqb k k') eqn:E; cbn [dict_get]; rewrite E; auto.
Qed.

Lemma get_set_other (k k' : K) (v : V) (d : dict K V) :
  k <> k' -> dict_get eqb k' (dict_set eqb k v d) = dict_get eqb k' d.
Proof.
  intros Hn. induction d as [|[k0 v0] d IH]; cbn [dict_set dict_get].
  - rewrite (eqb_neq k' k) by congruence. reflexivity.
  - destruct (eqb k k0) eqn:E; cbn [dict_get].
    + apply eqb_eq in E; subst k0.
      rewrite (eqb_neq k' k) by congruence. reflexivity.
    + rewrite IH. reflexivity.
Qed.

Lemma get_none_notin (k : K) (d : dict K V) :
  dict_get eqb k d = None <-> ~ In k (dict_keys d).
Proof.
  induction d as [|[k' v'] d IH]; cbn [dict_get dict_keys map fst].
  - split; auto.
  - destruct (eqb k k') eqn:E.
    + apply eqb_eq in E; subst. split; [discriminate|].
      intros H; exfalso; apply H; left; reflexivity.
    + rewrite IH. unfold dict_keys. split.
      * intros H [H1|H1]; [|contradiction].
        subst. rewrite eqb_refl in E. discriminate.
      * intros H H1. apply H. right; exact H1.
Qed.

Lemma mem_false_notin (k : K) (d : dict K V) :
  dict_mem eqb k d = false <-> ~ In k (dict_keys d).
Proof.
  rewrite <- get_none_notin. unfold dict_mem.
  destruct (dict_get eqb k d); split; congruence.
Qed.

Lemma mem_true_in (k : K) (d : dict K V) :
  dict_mem eqb k d = true <-> In k (dict_keys d).
Proof.
  destruct (dict_mem eqb k d) eqn:E.
  - split; [intros _|reflexivity].
    destruct (in_dec (fun a b => match bool_dec (eqb a b) true with
                                 | left e => left (proj1 (eqb_eq a b) e)
                                 | right n => right (fun e => n (proj2 (eqb_eq a b) e))
                                 end) k (dict_keys d)) as [H|H]; [exact H|].
    apply mem_false_notin in H. congruence.
  - apply mem_false_notin in E. split; [discriminate | contradiction].
Qed.

(** A new key goes to the end. *)
Lemma set_new (k : K) (v : V) (d : dict K V) :
  dict_get eqb k d = None -> dict_set eqb k v d = d ++ [(k, v)].
Proof.
  induction d as [|[k' v'] d IH]; cbn [dict_set dict_get app]; [reflexivity|].
  destruct (eqb k k'); [discriminate|]. intros H. rewrite IH by exact H.
  reflexivity.
Qed.

(** An existing key keeps the keys as they are. *)
Lemma keys_set_old (k : K) (v : V) (d : dict K V) :
  dict_mem eqb k d = true -> dict_keys (dict_set eqb k v d) = dict_keys d.
Proof.
  unfold dict_mem.
  induction d as [|[k' v'] d IH]; cbn [dict_set dict_get]; [discriminate|].
  destruct (eqb k k'); [reflexivity|]. intros H.
  cbn [dict_keys map fst] in *. f_equal. apply IH. exact H.
Qed.

Lemma keys_set_new (k : K) (v : V) (d : dict K V) :
  dict_mem eqb k d = false -> dict_keys (dict_set eqb k v d) = dict_keys d ++ [k].
Proof.
  unfold dict_mem. intros H.
  rewrite set_new by (destruct (dict_get eqb k d); [discriminate | reflexivity]).
  unfold dict_keys. rewrite map_app. reflexivity.
Qed.

Lemma keys_set_nodup (k : K) (v : V) (d : dict K V) :
  NoDup (dict_keys d) -> NoDup (dict_keys (dict_set eqb k v d)).
Proof.
  intros H. destruct (dict_mem eqb k d) eqn:E.
  - rewrite keys_set_old by exact E. exact H.
  - rewrite keys_set_new by exact E.
    apply NoDup_app; [exact H | repeat constructor; intros [] |].
    intros x Hx [Hk|[]]. subst x.
    apply mem_false_notin in E. contradiction.
Qed.
Lemma keys_set_in (k x : K) (v : V) (d : dict K V) :
  In x (dict_keys (dict_set eqb k v d)) <-> In x (dict_keys d) \/ x = k.
Proof.
  destruct (dict_mem eqb k d) eqn:E.
  - rewrite keys_set_old by exact E. apply mem_true_in in E.
    split; [auto | intros [H | ->]; assumption].
  - rewrite keys_set_new by exact E. rewrite in_app_iff. cbn [In].
    split; intros [H | H]; auto; destruct H as [-> | []]; auto.
Qed.

Lemma get_app_some (k : K) (d d' : dict K V) :
  dict_mem eqb k d = true -> dict_get eqb k (d ++ d') = dict_get eqb k d.
Proof.
  unfold dict_mem.
  induction d as [|[k' v'] d IH]; cbn [dict_get app]; [discriminate|].
  destruct (eqb k k'); [reflexivity | exact IH].
Qed.

Lemma get_app_none (k : K) (d d' : dict K V) :
  dict_get eqb k d = None -> dict_get eqb k (d ++ d') = dict_get eqb k d'.
Proof.
  induction d as [|[k' v'] d IH]; cbn [dict_get app]; [reflexivity|].
  destruct (eqb k k'); [discriminate | exact IH].
Qed.

Lemma get_in (k : K) (v : V) (d : dict K V) :
  dict_get eqb k d = Some v -> In (k, v) d.
Proof.
  induction d as [|[k' v'] d IH]; cbn [dict_get]; [discriminate|].
  destruct (eqb k k') eqn:E.
  - apply eqb_eq in E. intros H; inversion H; subst. left; reflexivity.
  - intros H. right. exact (IH H).
Qed.

Lemma get_of_nodup (k : K) (v : V) (d : dict K V) :
  NoDup (dict_keys d) -> In (k, v) d -> dict_get eqb k d = Some v.
Proof.
  induction d as [|[k' v'] d IH]; cbn [dict_get dict_keys map fst];
    [intros _ []|].
  intros Hn [H | H].
  - inversion H; subst. rewrite eqb_refl. reflexivity.
  - inversion Hn as [|? ? Hk Hd]; subst.
    destruct (eqb k k') eqn:E; [|exact (IH Hd H)].
    apply eqb_eq in E; subst. exfalso. apply Hk.
    change (In (fst (k', v)) (map fst d)). apply in_map. exact H.
Qed.
End Facts.

End DictFacts.

(** ** The resolver *)

Module ResolverFacts.
Import Py PyFacts Db Geo generate_geojson.
Local Open Scope Q_scope.

(** A key that starts with a small letter differs from any upper-cased
    text. *)
Lemma upper_differs (t k : str) :
  starts_lower k = true -> str_eqb (upper t) k = false.
Proof.
  intros Hk. apply str_eqb_neq. intros E.
  pose proof (upper_no_lower t) as Hu. rewrite E in Hu.
  destruct k as [|c k]; [discriminate|].
  inversion Hu; subst. simpl in Hk. congruence.
Qed.

Lemma sget_upper_none {V} (t : str) (d : sdict V) :
  forallb (fun kv => starts_lower (fst kv)) d = true ->
  sget (upper t) d = None.
Proof.
  unfold sget. induction d as [|[k v] d IH]; simpl; [reflexivity|].
  intros H. apply andb_true_iff in H as [Hk Hd].
  rewrite (upper_differs t k Hk). auto.
Qed.

(** The table built by the comprehension is keyed by the state names, all
    in small letters, so no upper-cased token is ever one of its keys and the
    two-letter tier of the code never answers. *)
Lemma abbr_map_never_has_upper (t : str) : smem (upper t) abbr_map = false.
Proof.
  unfold smem, dict_mem. fold (@sget str (upper t) abbr_map).
  rewrite sget_upper_none; [reflexivity | vm_compute; reflexivity].
Qed.

Lemma token_loop_abbr_map_dead (toks : list str) :
  token_loop abbr_map toks = None.
Proof.
  induction toks as [|tok toks IH]; simpl; [reflexivity|].
  rewrite abbr_map_never_has_upper, andb_false_r. exact IH.
Qed.

(** A list of tokens none of which has two characters once stripped is
    rejected by the two-letter tier, whatever the table. *)
Lemma token_loop_no_pair (m : sdict str) (toks : list str) :
  forallb (fun tok => negb (List.length (strip tok) =? 2)%nat) toks = true ->
  token_loop m toks = None.
Proof.
  induction toks as [|tok toks IH]; simpl; [reflexivity|].
  intros H. apply andb_true_iff in H as [H1 H2].
  apply negb_true_iff in H1. rewrite H1. simpl. auto.
Qed.

(** C1.  The specification has the resolver try, after the state names, the
    two-letter postal codes found among the separator-delimited tokens, and
    return the centroid of the first tier that matches.  The code builds its
    code table with keys and values exchanged, so that tier never matches:
    ["Bismarck, ND"] has the token [nd], which the specification resolves to
    the centroid of North Dakota, and the code finds nothing for it. *)
Theorem two_letter_tier_never_matches :
  (forall s, token_loop abbr_map (tokens s) = None)
  /\ tokens (normalize (lit "Bismarck, ND")) = [lit "bismarck"; lit " nd"]
  /\ find_location_coords (lit "Bismarck, ND") = None
  /\ spec_resolve (lit "Bismarck, ND") = Some (47.528912, -99.784012).
Proof.
  split; [intros s; apply token_loop_abbr_map_dead|].
  repeat split; vm_compute; reflexivity.
Qed.

(** C2, as stated, fails: ["Fire in FL, 1999"] is split at the comma only,
    its tokens are [fire in fl] and [1999], no token has two characters, and
    the resolver finds nothing, whichever code table is used. *)
Lemma fire_in_fl_is_not_matched :
  tokens (normalize (lit "Fire in FL, 1999")) = [lit "fire in fl"; lit " 1999"]
  /\ (forall m, token_loop m (tokens (normalize (lit "Fire in FL, 1999"))) = None)
  /\ find_location_coords (lit "Fire in FL, 1999") = None
  /\ spec_resolve (lit "Fire in FL, 1999") = None.
Proof.
  split; [vm_compute; reflexivity|].
  split; [intros m; apply token_loop_no_pair; vm_compute; reflexivity|].
  split; vm_compute; reflexivity.
Qed.

(** C2, amended.  Two-letter matching looks at whole separator-delimited
    tokens: ["FLorida"] is the single token [florida], which the two-letter
    tier rejects under any code table, and it resolves to Florida by its
    name; ["Fire in FL, 1999"] has the tokens [fire in fl] and [1999], which
    the tier rejects under any code table, and it resolves to nothing;
    ["Fargo, ND"] has the tokens [fargo] and [nd], the second of two
    characters, and it resolves to (47.528912, -99.784012). *)
Theorem token_isolation :
  tokens (normalize (lit "FLorida")) = [lit "florida"]
  /\ (forall m, token_loop m (tokens (normalize (lit "FLorida"))) = None)
  /\ find_location_coords (lit "FLorida") = Some (27.766279, -81.686783)
  /\ tokens (normalize (lit "Fire in FL, 1999")) = [lit "fire in fl"; lit " 1999"]
  /\ (forall m, token_loop m (tokens (normalize (lit "Fire in FL, 1999"))) = None)
  /\ find_location_coords (lit "Fire in FL, 1999") = None
  /\ map strip (tokens (normalize (lit "Fargo, ND"))) = [lit "fargo"; lit "nd"]
  /\ find_location_coords (lit "Fargo, ND") = Some (47.528912, -99.784012).
Proof.
  split; [vm_compute; reflexivity|].
  split; [intros m; apply token_loop_no_pair; vm_compute; reflexivity|].
  split; [vm_compute; reflexivity|].
  split; [vm_compute; reflexivity|].
  split; [intros m; apply token_loop_no_pair; vm_compute; reflexivity|].
  repeat split; vm_compute; reflexivity.
Qed.

(** Every coordinate of the gazetteer is valid. *)
Lemma valid_coordb_ok (c : coord) : valid_coordb c = true -> valid_coord c.
Proof.
  unfold valid_coordb, valid_coord. rewrite !andb_true_iff, !Qle_bool_iff.
  tauto.
Qed.

Lemma first_contained_in {V} (table : sdict V) (s : str) (v : V) :
  first_contained table s = Some v -> In v (map snd table).
Proof.
  induction table as [|[k x] table IH]; cbn [first_contained map snd];
    [discriminate|].
  destruct (contains k s); [intros H; inversion H; left; reflexivity|].
  intros H. right. exact (IH H).
Qed.

Lemma table_valid (table : sdict coord) (s : str) (c : coord) :
  forallb valid_coordb (map snd table) = true ->
  first_contained table s = Some c -> valid_coord c.
Proof.
  intros Ht H. apply valid_coordb_ok.
  exact (proj1 (forallb_forall _ _) Ht c (first_contained_in table s c H)).
Qed.

Lemma state_get_valid (k : str) (c : coord) :
  sget k STATE_COORDS = Some c -> valid_coord c.
Proof.
  intros H. apply valid_coordb_ok.
  apply (DictFacts.get_in str coord str_eqb str_eqb_eq k c STATE_COORDS) in H.
  assert (Ht : forallb valid_coordb (map snd STATE_COORDS) = true)
    by (vm_compute; reflexivity).
  apply (proj1 (forallb_forall _ _) Ht c).
  change c with (snd (k, c)). apply in_map. exact H.
Qed.

Lemma token_loop_valid (m : sdict str) (toks : list str) (c : coord) :
  token_loop m toks = Some (Some c) -> valid_coord c.
Proof.
  induction toks as [|tok toks IH]; cbn [token_loop]; [discriminate|].
  destruct ((List.length (strip tok) =? 2)%nat && smem (upper (strip tok)) m);
    [|exact IH].
  destruct (sget (upper (strip tok)) m) as [name|]; [|discriminate].
  intros H. inversion H as [E]. exact (state_get_valid name c E).
Qed.

Lemma cascade_valid (m : sdict str) (s : str) (c : coord) :
  cascade m s = Some c -> valid_coord c.
Proof.
  unfold cascade.
  destruct (first_contained STATE_COORDS s) as [c1|] eqn:E1.
  { intros H; inversion H; subst.
    apply (table_valid STATE_COORDS s); [vm_compute; reflexivity | exact E1]. }
  destruct (token_loop m (tokens s)) as [r|] eqn:E2.
  { intros ->. exact (token_loop_valid m (tokens s) c E2). }
  destruct (first_contained expanded_regions s) as [r|] eqn:E3.
  { intros ->. apply first_contained_in in E3. apply valid_coordb_ok.
    assert (Ht : forallb (fun o => match o with
                                   | Some x => valid_coordb x | None => true
                                   end) (map snd expanded_regions) = true)
      by (vm_compute; reflexivity).
    exact (proj1 (forallb_forall _ _) Ht (Some c) E3). }
  destruct (first_contained extra_keywords s) as [v|] eqn:E4.
  { intros H; inversion H; subst.
    apply (table_valid extra_keywords s); [vm_compute; reflexivity | exact E4]. }
  intros H.
  apply (table_valid city_map s); [vm_compute; reflexivity | exact H].
Qed.

Lemma find_location_coords_valid (text : str) (c : coord) :
  find_location_coords text = Some c -> valid_coord c.
Proof.
  unfold find_location_coords. destruct (falsy text); [discriminate|].
  apply cascade_valid.
Qed.

End ResolverFacts.

(** ** Column names *)

Module SanitizeFacts.
Import Py PyFacts csv_to_db.

Lemma replace_char (c : N) (new s : str) :
  replace [c] new s = flat_map (fun x => if c =? x then new else [x]) s.
Proof.
  unfold replace. induction s as [|x s IH]; simpl; [reflexivity|].
  rewrite andb_true_r. destruct (c =? x); simpl; rewrite IH; reflexivity.
Qed.

Lemma drop_while_split (p : N -> bool) (s : str) :
  exists u, s = u ++ drop_while p s /\ all p u.
Proof.
  induction s as [|c s [u [E Hu]]]; simpl.
  - exists []; split; [reflexivity | constructor].
  - destruct (p c) eqn:Hc.
    + exists (c :: u); split; [simpl; congruence | constructor; assumption].
    + exists []; split; [reflexivity | constructor].
Qed.

Lemma strip_by_split (p : N -> bool) (s : str) :
  exists u v, s = u ++ strip_by p s ++ v /\ all p u /\ all p v.
Proof.
  unfold strip_by, rstrip_by, lstrip_by.
  destruct (drop_while_split p s) as [u [E Hu]].
  destruct (drop_while_split p (rev (drop_while p s))) as [v [E' Hv]].
  exists u, (rev v). repeat split; try assumption.
  - rewrite E at 1. f_equal.
    rewrite <- (rev_involutive (drop_while p s)) at 1.
    rewrite E' at 1. rewrite rev_app_distr. reflexivity.
  - apply Forall_rev. exact Hv.
Qed.

Lemma drop_while_stop (p : N -> bool) (c : N) (s : str) :
  p c = false -> drop_while p (c :: s) = c :: s.
Proof. intros H; simpl; rewrite H; reflexivity. Qed.

Lemma drop_while_all (p : N -> bool) (u s : str) :
  all p u -> drop_while p (u ++ s) = drop_while p s.
Proof.
  induction 1 as [|c u Hc _ IH]; simpl; [reflexivity|]. rewrite Hc. exact IH.
Qed.

(** Stripping a text that is padded on both sides gives back the middle,
    when the middle neither starts nor ends with a stripped character. *)
Lemma strip_by_padded (p : N -> bool) (u m v : str) :
  all p u -> all p v ->
  (match m with c :: _ => p c = false | [] => True end) ->
  (match rev m with c :: _ => p c = false | [] => True end) ->
  strip_by p (u ++ m ++ v) = m.
Proof.
  intros Hu Hv Hh Hl. unfold strip_by, rstrip_by, lstrip_by.
  rewrite drop_while_all by assumption.
  destruct m as [|c m].
  - simpl. rewrite <- (app_nil_r v), drop_while_all by assumption.
    reflexivity.
  - rewrite <- app_comm_cons. rewrite drop_while_stop by assumption.
    rewrite app_comm_cons, rev_app_distr.
    rewrite drop_while_all by (apply Forall_rev; assumption).
    destruct (rev (c :: m)) as [|d r] eqn:E.
    + apply (f_equal (@List.length N)) in E.
      rewrite length_rev in E. discriminate.
    + rewrite drop_while_stop by assumption.
      rewrite <- E. apply rev_involutive.
Qed.


Lemma strip_by_all (p : N -> bool) (s : str) : all p s -> strip_by p s = [].
Proof.
  intros H.
  pose proof (@strip_by_padded p s [] [] H (Forall_nil _) I I) as E.
  simpl in E. rewrite app_nil_r in E. exact E.
Qed.

Lemma alnum_not_us (c : N) : is_ascii_alnum c = true -> us c = false.
Proof.
  unfold is_ascii_alnum, is_digit, is_ascii_upper, is_ascii_lower, between, us,
    underscore.
  intros H. apply N.eqb_neq. intros ->. vm_compute in H. discriminate.
Qed.

Lemma pieces_cons (s : str) : exists p ps, pieces s = p :: ps.
Proof.
  destruct s as [|c s]; simpl; [eauto|].
  destruct (is_ascii_alnum c); [|eauto].
  destruct (pieces s); eauto.
Qed.

Lemma na_false (c : N) : na c = false -> is_ascii_alnum c = true.
Proof. unfold na. destruct (is_ascii_alnum c); [reflexivity | discriminate]. Qed.

Lemma na_true (c : N) : na c = true -> is_ascii_alnum c = false.
Proof. unfold na. destruct (is_ascii_alnum c); [discriminate | reflexivity]. Qed.

(** The second substitution of [sanitize] finds no run of underscores longer
    than one after the first substitution. *)
Lemma sub_us_after (s : str) (b : bool) :
  sub_plus_go us (lit "_") b (sub_plus_go na (lit "_") b s)
  = sub_plus_go na (lit "_") b s.
Proof.
  revert b. induction s as [|c s IH]; intros b; [reflexivity|].
  cbn [sub_plus_go]. destruct (na c) eqn:Hn.
  - destruct b; cbn [app].
    + apply IH.
    + change (lit "_") with [underscore]. cbn [app sub_plus_go].
      replace (us underscore) with true by reflexivity.
      cbn [app]. f_equal. apply IH.
  - cbn [sub_plus_go]. rewrite (alnum_not_us c (na_false c Hn)).
    f_equal. apply IH.
Qed.

Lemma words_cons_sep (c : N) (s : str) :
  is_ascii_alnum c = false -> words (c :: s) = words s.
Proof. unfold words; simpl; intros ->; reflexivity. Qed.

Lemma lead_true (s : str) : lead true s = [].
Proof. destruct s; simpl; [|rewrite andb_false_r]; reflexivity. Qed.

Lemma join_cons_head (sep : str) (c : N) (p : str) (ws : list str) :
  join sep ((c :: p) :: ws) = c :: join sep (p :: ws).
Proof. destruct ws; reflexivity. Qed.

(** The first substitution of [sanitize] writes the words of the text,
    joined by single underscores and possibly padded with underscores. *)
Lemma sub_na_shape (s : str) (b : bool) :
  (words s = [] -> all us (sub_plus_go na (lit "_") b s))
  /\ (words s <> [] ->
      exists v, all us v
        /\ sub_plus_go na (lit "_") b s
           = lead b s ++ join (lit "_") (words s) ++ v).
Proof.
  revert b. induction s as [|c s IH]; intros b.
  - split; [constructor | intros H; exfalso; apply H; reflexivity].
  - cbn [sub_plus_go lead]. destruct (na c) eqn:Hn.
    + (* a separator *)
      rewrite (words_cons_sep c s (na_true c Hn)).
      destruct (IH true) as [IH0 IH1].
      split.
      { intros H. apply Forall_app; split; [|apply IH0; exact H].
        destruct b; repeat constructor. }
      intros H. destruct (IH1 H) as [v [Hv E]].
      exists v; split; [assumption|].
      rewrite E, lead_true. destruct b; reflexivity.
    + (* a letter or digit *)
      pose proof (na_false c Hn) as Hc.
      destruct (IH false) as [IH0 IH1].
      unfold words in *. cbn [pieces]. rewrite Hc.
      destruct (pieces_cons s) as [p [ps Eps]]. rewrite Eps in *.
      cbn [filter falsy negb andb app].
      split; [discriminate|]. intros _.
      destruct p as [|c2 p]; cbn [filter falsy negb] in IH0, IH1.
      * destruct (filter (fun p => negb (falsy p)) ps) as [|w ws] eqn:Ef.
        { exists (sub_plus_go na (lit "_") false s). split; auto. }
        destruct IH1 as [v [Hv E]]; [discriminate|].
        exists v; split; [assumption|].
        rewrite E.
        assert (lead false s = lit "_") as ->.
        { destruct s as [|d s]; cbn [pieces] in Eps;
            [inversion Eps; subst; discriminate|].
          unfold lead. destruct (na d) eqn:Hd; [reflexivity|].
          rewrite (na_false d Hd) in Eps.
          destruct (pieces s); discriminate. }
        reflexivity.
      * destruct IH1 as [v [Hv E]]; [discriminate|].
        exists v; split; [assumption|].
        rewrite E.
        assert (lead false s = []) as ->.
        { destruct s as [|d s]; cbn [pieces] in Eps; [reflexivity|].
          unfold lead. destruct (na d) eqn:Hd; [|reflexivity].
          rewrite (na_true d Hd) in Eps. discriminate. }
        cbn [app]. rewrite (join_cons_head (lit "_") c (c2 :: p)). reflexivity.
Qed.

Ltac bool_arith :=
  unfold na, us, underscore, lower_alnum, ident_char, is_word, is_ascii_alnum,
    is_digit, is_ascii_upper, is_ascii_lower, is_space, hyphen, between in *;
  repeat match goal with
    | H : negb _ = true |- _ => apply negb_true_iff in H
    | H : negb _ = false |- _ => apply negb_false_iff in H
    | |- negb _ = true => apply negb_true_iff
    | |- negb _ = false => apply negb_false_iff
    end;
  repeat match goal with
    | |- ?b = false => apply not_true_is_false; intro
    | H : _ = false |- _ => apply not_true_iff_false in H
    end;
  rewrite ?orb_true_iff, ?andb_true_iff, ?N.leb_le, ?N.eqb_eq in *;
  try lia.

Lemma space_is_sep (c : N) : is_space c = true -> na c = true.
Proof. intros H. bool_arith. Qed.

Lemma space_not_dollar (c : N) : is_space c = true -> (36 =? c) = false.
Proof. intros H. bool_arith. Qed.

Lemma pieces_alnum (s : str) : Forall (all is_ascii_alnum) (pieces s).
Proof.
  induction s as [|c s IH]; cbn [pieces]; [repeat constructor|].
  destruct (is_ascii_alnum c) eqn:Hc.
  - destruct (pieces s) as [|p ps]; [repeat constructor; assumption|].
    inversion IH; subst. constructor; [constructor|]; assumption.
  - constructor; [constructor | assumption].
Qed.

Lemma words_wordlike (s : str) : wordlike is_ascii_alnum (words s).
Proof.
  unfold wordlike, words.
  pose proof (pieces_alnum s) as H.
  induction H as [|p ps Hp _ IH]; cbn [filter]; [constructor|].
  destruct p; cbn [falsy negb]; [exact IH|].
  constructor; [split; [discriminate | exact Hp] | exact IH].
Qed.

Lemma join_head (p : N -> bool) (sep : str) (ws : list str) :
  wordlike p ws -> ws <> [] ->
  exists c t, join sep ws = c :: t /\ p c = true.
Proof.
  intros H Hne. destruct ws as [|w ws]; [contradiction|].
  inversion H as [|? ? [Hw Hp] _]; subst.
  destruct w as [|c w]; [contradiction|]. inversion Hp; subst.
  exists c. destruct ws; cbn [join app]; eauto.
Qed.

Lemma join_last (p : N -> bool) (sep : str) (ws : list str) :
  wordlike p ws -> ws <> [] ->
  exists c t, rev (join sep ws) = c :: t /\ p c = true.
Proof.
  induction ws as [|w ws IH]; intros H Hne; [contradiction|].
  inversion H as [|? ? [Hw Hp] Hws]; subst.
  destruct ws as [|w2 ws].
  - cbn [join]. apply Forall_rev in Hp.
    destruct (rev w) as [|c t] eqn:E.
    + apply (f_equal (@List.length N)) in E. rewrite length_rev in E.
      destruct w; [contradiction | discriminate].
    + inversion Hp; subst. eauto.
  - destruct (IH Hws) as [c [t [E Hc]]]; [discriminate|].
    exists c. change (join sep (w :: w2 :: ws))
      with (w ++ sep ++ join sep (w2 :: ws)).
    rewrite !rev_app_distr, E. cbn [app]. eauto.
Qed.

Lemma lower_join (sep : str) (ws : list str) :
  lower (join sep ws) = join (lower sep) (map lower ws).
Proof.
  induction ws as [|w ws IH]; [reflexivity|].
  destruct ws as [|w2 ws]; [reflexivity|].
  change (join sep (w :: w2 :: ws)) with (w ++ sep ++ join sep (w2 :: ws)).
  unfold lower in *. rewrite !map_app, IH. reflexivity.
Qed.

Lemma words_app_sep_l (u s : str) : all na u -> words (u ++ s) = words s.
Proof.
  induction 1 as [|c u Hc _ IH]; [reflexivity|].
  cbn [app]. rewrite (words_cons_sep c (u ++ s) (na_true c Hc)). exact IH.
Qed.

Lemma pieces_app_sep_r (s v : str) :
  all na v -> pieces (s ++ v) = pieces s ++ repeat [] (List.length v).
Proof.
  intros Hv. induction s as [|c s IH].
  - cbn [app]. induction Hv as [|d v Hd _ IHv]; [reflexivity|].
    cbn [pieces]. rewrite (na_true d Hd), IHv. reflexivity.
  - cbn [app pieces]. rewrite IH.
    destruct (is_ascii_alnum c); [|reflexivity].
    destruct (pieces_cons s) as [p [ps ->]]. reflexivity.
Qed.

Lemma words_app_sep_r (s v : str) : all na v -> words (s ++ v) = words s.
Proof.
  intros Hv. unfold words. rewrite (pieces_app_sep_r s v Hv), filter_app.
  assert (filter (fun p : str => negb (falsy p)) (repeat [] (List.length v)) = [])
    as ->; [|apply app_nil_r].
  induction (List.length v) as [|n IH]; [reflexivity | exact IH].
Qed.

Lemma replace_dollar_spaces (u : str) :
  all is_space u -> replace (lit "$") (lit "usd") u = u /\ all na u.
Proof.
  change (lit "$") with [36]. rewrite replace_char.
  induction 1 as [|c u Hc _ [IH1 IH2]]; [split; [reflexivity | constructor]|].
  cbn [flat_map]. rewrite (space_not_dollar c Hc), IH1.
  split; [reflexivity | constructor; [apply space_is_sep; exact Hc | exact IH2]].
Qed.

(** The leading [strip()] of [sanitize] does not change the words. *)
Lemma words_replace_strip (col : str) :
  words (replace (lit "$") (lit "usd") (strip col))
  = words (replace (lit "$") (lit "usd") col).
Proof.
  destruct (strip_by_split is_space col) as [u [v [E [Hu Hv]]]].
  fold (strip col) in E. rewrite E at 2.
  destruct (replace_dollar_spaces u Hu) as [Eu Nu].
  destruct (replace_dollar_spaces v Hv) as [Ev Nv].
  change (lit "$") with [36] in *. rewrite !replace_char in *.
  rewrite !flat_map_app, Eu, Ev.
  rewrite (words_app_sep_l u _ Nu), (words_app_sep_r _ v Nv). reflexivity.
Qed.

(** What [sanitize] computes before the placeholder and the prefix: the
    lower-cased words of the header, joined by single underscores. *)
Lemma sanitize_body (s : str) :
  lower (strip_by us (sub_plus us (lit "_") (sub_plus na (lit "_") s)))
  = join (lit "_") (map lower (words s)).
Proof.
  unfold sub_plus. rewrite sub_us_after.
  destruct (sub_na_shape s false) as [H0 H1].
  destruct (words s) as [|w ws] eqn:Ew.
  - rewrite (strip_by_all us _ (H0 eq_refl)). reflexivity.
  - destruct H1 as [v [Hv E]]; [discriminate|]. rewrite E.
    pose proof (words_wordlike s) as Hw. rewrite Ew in Hw.
    assert (Hne : w :: ws <> []) by discriminate.
    destruct (join_head is_ascii_alnum (lit "_") (w :: ws) Hw Hne)
      as [c [t [Ej Hc]]].
    destruct (join_last is_ascii_alnum (lit "_") (w :: ws) Hw Hne)
      as [d [r [Er Hd]]].
    rewrite (strip_by_padded us (lead false s) (join (lit "_") (w :: ws)) v).
    + apply lower_join.
    + unfold lead. destruct s as [|x s]; [constructor|].
      destruct (na x && negb false); repeat constructor.
    + exact Hv.
    + rewrite Ej. apply alnum_not_us; exact Hc.
    + rewrite Er. apply alnum_not_us; exact Hd.
Qed.

Lemma lower_char_alnum (c : N) :
  is_ascii_alnum c = true -> lower_alnum (lower_char c) = true.
Proof.
  intros H. unfold lower_char.
  destruct (is_ascii_upper c) eqn:Hu.
  - bool_arith.
  - destruct (between 192 222 c && negb (c =? 215)) eqn:Hb; bool_arith.
Qed.

Lemma lower_wordlike (ws : list str) :
  wordlike is_ascii_alnum ws -> wordlike lower_alnum (map lower ws).
Proof.
  induction 1 as [|w ws [Hne Hw] _ IH]; [constructor|].
  cbn [map]. constructor; [|exact IH]. split.
  - destruct w; [contradiction | discriminate].
  - unfold lower, all. apply Forall_map.
    eapply Forall_impl; [|exact Hw]. apply lower_char_alnum.
Qed.

Lemma lower_alnum_ident (c : N) : lower_alnum c = true -> ident_char c = true.
Proof. intros H. bool_arith. Qed.

Lemma lower_alnum_not_us (c : N) : lower_alnum c = true -> (c =? underscore) = false.
Proof. intros H. bool_arith. Qed.

Lemma join_ident (ws : list str) :
  wordlike lower_alnum ws -> forallb ident_char (join (lit "_") ws) = true.
Proof.
  induction 1 as [|w ws [_ Hw] Hws IH]; [reflexivity|].
  assert (Ew : forallb ident_char w = true).
  { apply forallb_forall. intros c Hc.
    apply lower_alnum_ident. exact (proj1 (Forall_forall _ _) Hw c Hc). }
  destruct ws as [|w2 ws]; [exact Ew|].
  change (join (lit "_") (w :: w2 :: ws))
    with (w ++ lit "_" ++ join (lit "_") (w2 :: ws)).
  rewrite !forallb_app, Ew, IH. reflexivity.
Qed.

Lemma no_double_word (w rest : str) :
  all lower_alnum w -> no_double_underscore rest = true ->
  no_double_underscore (w ++ rest) = true.
Proof.
  induction 1 as [|a w Ha _ IH]; intros Hr; [exact Hr|].
  specialize (IH Hr). cbn [app no_double_underscore].
  destruct (w ++ rest) as [|b t]; [reflexivity|].
  rewrite (lower_alnum_not_us a Ha). exact IH.
Qed.

Lemma join_no_double (ws : list str) :
  wordlike lower_alnum ws ->
  no_double_underscore (join (lit "_") ws) = true.
Proof.
  induction 1 as [|w ws [_ Hw] Hws IH]; [reflexivity|].
  destruct ws as [|w2 ws].
  - cbn [join]. rewrite <- (app_nil_r w). apply no_double_word; auto.
  - change (join (lit "_") (w :: w2 :: ws))
      with (w ++ lit "_" ++ join (lit "_") (w2 :: ws)).
    apply no_double_word; [exact Hw|].
    destruct (join_head lower_alnum (lit "_") (w2 :: ws) Hws) as [c [t [E Hc]]];
      [discriminate|].
    rewrite E in *. change (lit "_" ++ c :: t) with (underscore :: c :: t).
    change (no_double_underscore (underscore :: c :: t))
      with (negb ((underscore =? underscore) && (c =? underscore))
            && no_double_underscore (c :: t)).
    rewrite (lower_alnum_not_us c Hc), andb_false_r. exact IH.
Qed.

Lemma last_of_rev (s t : str) (c d : N) : rev s = c :: t -> last s d = c.
Proof.
  intros E. rewrite <- (rev_involutive s), E. cbn [rev]. apply last_last.
Qed.

(** The identifier of the specification is an ASCII snake_case identifier. *)
Lemma spec_name_snake_case (ws : list str) :
  wordlike is_ascii_alnum ws -> snake_case (spec_name ws) = true.
Proof.
  intros H0. pose proof (lower_wordlike ws H0) as H.
  unfold spec_name.
  destruct (map lower ws) as [|w ws'] eqn:Em; [reflexivity|].
  assert (Hne : w :: ws' <> []) by discriminate.
  destruct (join_head lower_alnum (lit "_") (w :: ws') H Hne) as [c [t [E Hc]]].
  destruct (join_last lower_alnum (lit "_") (w :: ws') H Hne) as [d [r [Er Hd]]].
  pose proof (join_ident (w :: ws') H) as Hi.
  pose proof (join_no_double (w :: ws') H) as Hn.
  rewrite E in *. destruct (is_digit c) eqn:Hdig.
  - change (lit "c_" ++ c :: t) with (99 :: underscore :: c :: t).
    unfold snake_case.
    rewrite (last_of_rev (99 :: underscore :: c :: t) (r ++ [underscore; 99]) d 0).
    + change (forallb ident_char (99 :: underscore :: c :: t))
        with (forallb ident_char ([99; underscore] ++ c :: t)).
      change (no_double_underscore (99 :: underscore :: c :: t))
        with (negb ((99 =? underscore) && (underscore =? underscore))
              && (negb ((underscore =? underscore) && (c =? underscore))
                  && no_double_underscore (c :: t))).
      rewrite forallb_app, Hi, Hn.
      rewrite (lower_alnum_not_us c Hc), (lower_alnum_not_us d Hd).
      reflexivity.
    + change (99 :: underscore :: c :: t) with ([99; underscore] ++ c :: t).
      rewrite rev_app_distr, Er. reflexivity.
  - unfold snake_case.
    rewrite (last_of_rev (c :: t) r d 0 Er), Hi, Hn.
    rewrite (lower_alnum_not_us d Hd).
    assert (is_ascii_lower c = true) as ->; [|reflexivity].
    unfold lower_alnum in Hc. rewrite Hdig, orb_false_r in Hc. exact Hc.
Qed.

(** C9, as stated, fails: a dollar sign is not alphanumeric, and it becomes
    the letters [usd], not an underscore. *)
Lemma sanitize_dollar_is_not_a_separator :
  sanitize (lit "a$b") = lit "ausdb"
  /\ spec_name (words (lit "a$b")) = lit "a_b".
Proof. split; vm_compute; reflexivity. Qed.

(** C9, amended.  For every header, once each dollar sign has been replaced
    by the letters [usd], [sanitize] returns the words of the header (its
    maximal runs of Basic Latin letters and digits) in lower case, joined by
    single underscores, so that every run of other characters between two
    words has become one underscore and those at either end have gone; the
    name is [col] when there is no word, and it is prefixed by [c_] when it
    would start with a digit.  The result is an ASCII snake_case
    identifier. *)
Theorem sanitize_snake_case (col : str) :
  sanitize col = spec_name (words (replace (lit "$") (lit "usd") col))
  /\ snake_case (sanitize col) = true.
Proof.
  assert (E : sanitize col
              = spec_name (words (replace (lit "$") (lit "usd") col))).
  { unfold sanitize, spec_name.
    change (fun c : N => negb (is_ascii_alnum c)) with na.
    change (fun c : N => c =? underscore) with us.
    rewrite sanitize_body, words_replace_strip.
    destruct (join (lit "_")
                (map lower (words (replace (lit "$") (lit "usd") col))));
      reflexivity. }
  split; [exact E|].
  rewrite E. apply spec_name_snake_case, words_wordlike.
Qed.

End SanitizeFacts.


(** ** Retries *)

Module RetryFacts.
Import Py PyFacts Db Geo geocode_nominatim.

Lemma seen_mem_in (a : str) (seen : list str) :
  seen_mem a seen = true <-> In a seen.
Proof.
  unfold seen_mem. rewrite existsb_exists. split.
  - intros [x [Hx E]]. apply str_eqb_eq in E. subst. exact Hx.
  - intros H. exists a. split; [exact H | apply str_eqb_refl].
Qed.

Lemma filter_filter {A} (f g : A -> bool) (l : list A) :
  filter f (filter g l) = filter (fun x => g x && f x) l.
Proof.
  induction l as [|x l IH]; cbn [filter]; [reflexivity|].
  destruct (g x); cbn [filter andb]; [destruct (f x)|]; rewrite IH; reflexivity.
Qed.

(** The loop with its [seen] set keeps, among the non-empty texts not seen
    before, each one where it first occurs. *)
Lemma dedupe_first_occurrences (l seen : list str) :
  dedupe seen l
  = filter (fun a => negb (seen_mem a seen))
      (first_occurrences (filter (fun a => negb (falsy a)) l)).
Proof.
  revert seen. induction l as [|a l IH]; intros seen; [reflexivity|].
  cbn [dedupe filter]. destruct (falsy a) eqn:Ha; cbn [negb andb].
  - apply IH.
  - cbn [first_occurrences filter]. destruct (seen_mem a seen) eqn:Hs; cbn [negb].
    + rewrite IH, filter_filter. apply filter_ext_in. intros b _. symmetry.
      destruct (seen_mem b seen) eqn:Hb; cbn [negb];
        [apply andb_false_r|rewrite andb_true_r].
      apply negb_true_iff, str_eqb_neq. intros ->. congruence.
    + f_equal. rewrite IH, filter_filter. apply filter_ext. intros b.
      unfold seen_mem. cbn [existsb].
      rewrite negb_orb. f_equal. f_equal.
      destruct (str_eqb b a) eqn:E; symmetry.
      * apply str_eqb_eq in E. subst. apply str_eqb_refl.
      * apply str_eqb_neq. apply str_eqb_neq in E. congruence.
Qed.

Lemma first_occurrences_in (l : list str) (x : str) :
  In x (first_occurrences l) <-> In x l.
Proof.
  induction l as [|a l IH]; cbn [first_occurrences]; [tauto|].
  cbn [In]. rewrite filter_In, IH, negb_true_iff, str_eqb_neq.
  destruct (list_eq_dec N.eq_dec a x); tauto.
Qed.

Lemma first_occurrences_nodup (l : list str) : NoDup (first_occurrences l).
Proof.
  induction l as [|a l IH]; cbn [first_occurrences]; constructor.
  - rewrite filter_In, negb_true_iff, str_eqb_neq. tauto.
  - apply NoDup_filter. exact IH.
Qed.

(** The sort: a permutation, longest first, texts of one length in their
    original order. *)
Lemma insert_by_len_perm (x : str) (l : list str) :
  Permutation (insert_by_len x l) (x :: l).
Proof.
  induction l as [|y l IH]; cbn [insert_by_len]; [reflexivity|].
  destruct (List.length y <=? List.length x)%nat; [reflexivity|].
  rewrite IH. apply perm_swap.
Qed.

Lemma sorted_by_len_perm (l : list str) : Permutation (sorted_by_len l) l.
Proof.
  induction l as [|x l IH]; cbn; [reflexivity|].
  fold (sorted_by_len l). rewrite insert_by_len_perm. constructor. exact IH.
Qed.

Lemma insert_by_len_sorted (x : str) (l : list str) :
  StronglySorted longer_first l -> StronglySorted longer_first (insert_by_len x l).
Proof.
  induction 1 as [|y l Hl IH Hy]; cbn [insert_by_len].
  - repeat constructor.
  - destruct (List.length y <=? List.length x)%nat eqn:E.
    + apply Nat.leb_le in E. constructor; [constructor; assumption|].
      constructor; [exact E|].
      eapply Forall_impl; [|exact Hy]. unfold longer_first. intros; lia.
    + apply Nat.leb_gt in E. constructor; [exact IH|].
      eapply Permutation_Forall; [symmetry; apply insert_by_len_perm|].
      constructor; [unfold longer_first; lia | exact Hy].
Qed.

Lemma sorted_by_len_sorted (l : list str) :
  StronglySorted longer_first (sorted_by_len l).
Proof.
  induction l as [|x l IH]; cbn; [constructor|].
  fold (sorted_by_len l). apply insert_by_len_sorted. exact IH.
Qed.

Lemma insert_by_len_stable (x : str) (s : list str) (n : nat) :
  filter (fun p => (List.length p =? n)%nat) (insert_by_len x s)
  = filter (fun p => (List.length p =? n)%nat) (x :: s).
Proof.
  induction s as [|y s IHs]; [reflexivity|].
  cbn [insert_by_len].
  destruct (List.length y <=? List.length x)%nat eqn:E; [reflexivity|].
  apply Nat.leb_gt in E. cbn [filter] in *. rewrite IHs.
  destruct (List.length x =? n)%nat eqn:Ex; [|reflexivity].
  apply Nat.eqb_eq in Ex.
  assert ((List.length y =? n)%nat = false) as -> by (apply Nat.eqb_neq; lia).
  reflexivity.
Qed.

Lemma sorted_by_len_stable (l : list str) (n : nat) :
  filter (fun p => (List.length p =? n)%nat) (sorted_by_len l)
  = filter (fun p => (List.length p =? n)%nat) l.
Proof.
  induction l as [|x l IH]; [reflexivity|].
  change (sorted_by_len (x :: l)) with (insert_by_len x (sorted_by_len l)).
  rewrite insert_by_len_stable. cbn [filter]. rewrite IH. reflexivity.
Qed.

(** Removing the hint from a query that ends with it and has it nowhere
    else leaves the query without this ending. *)
Lemma prefixb_app (a b : str) : prefixb a (a ++ b) = true.
Proof.
  induction a as [|x a IH]; [destruct b; reflexivity|].
  cbn [app prefixb]. rewrite N.eqb_refl. exact IH.
Qed.

Lemma replace_go_skip (old new s : str) :
  replace_go old new (List.length s) s = [].
Proof. induction s as [|c s IH]; [reflexivity | exact IH]. Qed.

Lemma endswith_app (p h : str) : endswith (p ++ h) h = true.
Proof. unfold endswith. rewrite rev_app_distr. apply prefixb_app. Qed.

Lemma replace_only_ending (h p : str) :
  h <> [] ->
  (forall u v, p = u ++ v -> v <> [] -> prefixb h (v ++ h) = false) ->
  replace h [] (p ++ h) = p.
Proof.
  intros Hh. unfold replace. induction p as [|c p IH]; intros Hp.
  - destruct h as [|x h]; [contradiction Hh; reflexivity|].
    pose proof (prefixb_app (x :: h) []) as E. rewrite app_nil_r in E.
    cbn [app replace_go]. rewrite E.
    cbn [List.length Nat.pred app]. apply replace_go_skip.
  - assert (E : prefixb h ((c :: p) ++ h) = false)
      by (apply (Hp [] (c :: p) eq_refl); discriminate).
    cbn [app] in E. cbn [app replace_go]. rewrite E.
    f_equal. apply IH. intros u v Euv Hv.
    apply (Hp (c :: u) v); [rewrite Euv; reflexivity | exact Hv].
Qed.

Lemma prefixb_split (a s : str) :
  prefixb a s = true -> exists t, s = a ++ t.
Proof.
  revert s. induction a as [|x a IH]; intros s H.
  - exists s. reflexivity.
  - destruct s as [|y s]; [discriminate H|].
    cbn [prefixb] in H. apply andb_true_iff in H as [Hx Ha].
    apply N.eqb_eq in Hx. subst y.
    destruct (IH s Ha) as [t ->]. exists t. reflexivity.
Qed.

Lemma prefixb_longer (a v b : str) :
  (List.length a <= List.length v)%nat ->
  prefixb a (v ++ b) = prefixb a v.
Proof.
  revert v. induction a as [|x a IH]; intros v Hl; [reflexivity|].
  destruct v as [|y v]; [cbn in Hl; lia|].
  cbn [app prefixb]. rewrite IH; [reflexivity | cbn in Hl; lia].
Qed.

Lemma contains_app (k a b : str) : contains k (a ++ k ++ b) = true.
Proof.
  induction a as [|x a IH].
  - cbn [app]. destruct (k ++ b) eqn:E; cbn [contains];
      rewrite <- E, prefixb_app; reflexivity.
  - cbn [app contains]. rewrite IH. apply orb_true_r.
Qed.

(** The hint does not overlap itself: it does not start again inside a
    shorter text that is followed by it. *)
Lemma hint_no_overlap (v : str) :
  v <> [] -> (List.length v < 15)%nat -> prefixb hint (v ++ hint) = false.
Proof.
  intros Hv Hl. unfold hint.
  change (lit ", United States")
    with [44; 32; 85; 110; 105; 116; 101; 100; 32; 83; 116; 97; 116; 101; 115].
  destruct v as [|c1 v]; [contradiction Hv; reflexivity|].
  do 14 (destruct v as [|? v];
         [cbn; rewrite ?andb_false_r; reflexivity|]).
  cbn in Hl. lia.
Qed.

(** A query that got the hint appended, having no [united states] in it,
    has the hint at its end only. *)
Lemma appended_hint_only_ending (p u v : str) :
  contains (lit "united states") (lower p) = false ->
  p = u ++ v -> v <> [] -> prefixb hint (v ++ hint) = false.
Proof.
  intros Hp E Hv.
  destruct (Nat.ltb (List.length v) 15) eqn:El.
  - apply Nat.ltb_lt in El. apply hint_no_overlap; assumption.
  - apply Nat.ltb_ge in El.
    rewrite prefixb_longer by exact El.
    destruct (prefixb hint v) eqn:Ep; [|reflexivity].
    destruct (prefixb_split _ _ Ep) as [t Et]. subst v p.
    exfalso. unfold lower in Hp. rewrite !map_app in Hp.
    change (map lower_char hint)
      with (lit ", " ++ lit "united states") in Hp.
    rewrite <- !app_assoc in Hp. rewrite (app_assoc (map lower_char u)) in Hp.
    rewrite contains_app in Hp. discriminate Hp.
Qed.

(** *** The parts of a query *)

Local Abbreviation part_cls := (fun c : N => (c =? 44) || (c =? 59)).
Local Abbreviation part_seps := [lit " and "; lit " & "].

(** Without runs the scan does not look at [in_run], and passing over the
    rest of a separator is dropping it. *)
Lemma split_go_no_runs (cls : N -> bool) (seps : list str) (skip : nat)
  (ir : bool) (cur s : str) :
  split_go cls false seps skip ir cur s = split_go cls false seps skip false cur s.
Proof.
  destruct s as [|c s]; [reflexivity|]. cbn [split_go].
  destruct skip; [|reflexivity]. rewrite andb_false_r. reflexivity.
Qed.

Lemma split_go_skip (cls : N -> bool) (runs : bool) (seps : list str)
  (k : nat) (cur s : str) :
  split_go cls runs seps k false cur s
  = split_go cls runs seps 0 false cur (skipn k s).
Proof.
  revert s. induction k as [|k IH]; intros s; [reflexivity|].
  destruct s as [|c s]; [reflexivity|]. cbn [split_go skipn]. apply IH.
Qed.

Lemma sep_at_app (sep rest : str) :
  In sep separators -> sep_at (sep ++ rest) = true.
Proof.
  intros H. unfold sep_at. apply existsb_exists. exists sep.
  split; [exact H | apply prefixb_app].
Qed.

Lemma cuts_cons (c : N) (s p : str) (ps : list str) :
  cuts s (p :: ps) -> sep_at (c :: s) = false ->
  cuts (c :: s) ((c :: p) :: ps).
Proof.
  intros H Hc. inversion H as [s0 Hs | p0 sep rest ps0 Hin Hp Hr]; subst.
  - apply cuts_whole. intros [|x u] v E; cbn [app] in E.
    + subst v. exact Hc.
    + inversion E; subst. apply (Hs u v eq_refl).
  - change (c :: p ++ sep ++ rest) with ((c :: p) ++ sep ++ rest).
    apply cuts_at; [exact Hin | | exact Hr].
    intros [|x u] v E Hv; cbn [app] in E.
    + subst v. exact Hc.
    + inversion E; subst. apply (Hp u v eq_refl Hv).
Qed.

(** [re.split] cuts the query into its pieces. *)
Lemma split_cuts (n : nat) :
  forall (s cur : str) (ir : bool),
    (List.length s <= n)%nat ->
    exists p ps,
      split_go part_cls false part_seps 0 ir cur s = (rev cur ++ p) :: ps
      /\ cuts s (p :: ps).
Proof.
  induction n as [|n IH]; intros s cur ir Hn.
  - destruct s; [|cbn in Hn; lia]. exists [], []. cbn [split_go].
    rewrite app_nil_r. split; [reflexivity|]. apply cuts_whole.
    intros u v E. symmetry in E. apply app_eq_nil in E as [_ ->]. reflexivity.
  - destruct s as [|c s].
    { exists [], []. cbn [split_go].
      rewrite app_nil_r. split; [reflexivity|]. apply cuts_whole.
      intros u v E. symmetry in E. apply app_eq_nil in E as [_ ->]. reflexivity. }
    cbn [List.length] in Hn. cbn [split_go].
    destruct ((c =? 44) || (c =? 59)) eqn:Ec.
    + rewrite andb_false_r.
      destruct (IH s [] true ltac:(lia)) as [p [ps [E Hp]]].
      exists [], (p :: ps). cbn [rev app] in *. rewrite E, app_nil_r.
      split; [reflexivity|].
      assert (Hsep : In [c] separators).
      { apply orb_true_iff in Ec as [Ec | Ec]; apply N.eqb_eq in Ec; subst c;
          cbn; auto. }
      apply (@cuts_at [] [c] s (p :: ps) Hsep); [|exact Hp].
      intros u v Euv Hv. symmetry in Euv. apply app_eq_nil in Euv as [_ ->].
      contradiction Hv; reflexivity.
    + cbn [first_prefix].
      destruct (prefixb (lit " and ") (c :: s)) eqn:Ea;
        [|destruct (prefixb (lit " & ") (c :: s)) eqn:Eb].
      * destruct (prefixb_split _ _ Ea) as [rest Er].
        change (lit " and ") with (32 :: [97; 110; 100; 32]) in Er.
        cbn [app] in Er. inversion Er; subst c s. clear Er.
        change (List.length (lit " and ")) with 5%nat. cbv beta iota.
        rewrite split_go_skip. cbn [skipn].
        destruct (IH rest [] false) as [p [ps [E Hp]]].
        { cbn [List.length] in Hn. lia. }
        exists [], (p :: ps). cbn [rev app] in *. rewrite E, app_nil_r.
        split; [reflexivity|].
        apply (@cuts_at [] (lit " and ") rest (p :: ps)); [cbn; auto | | exact Hp].
        intros u v Euv Hv. symmetry in Euv. apply app_eq_nil in Euv as [_ ->].
        contradiction Hv; reflexivity.
      * destruct (prefixb_split _ _ Eb) as [rest Er].
        change (lit " & ") with (32 :: [38; 32]) in Er.
        cbn [app] in Er. inversion Er; subst c s. clear Er.
        change (List.length (lit " & ")) with 3%nat. cbv beta iota.
        rewrite split_go_skip. cbn [skipn].
        destruct (IH rest [] false) as [p [ps [E Hp]]].
        { cbn [List.length] in Hn. lia. }
        exists [], (p :: ps). cbn [rev app] in *. rewrite E, app_nil_r.
        split; [reflexivity|].
        apply (@cuts_at [] (lit " & ") rest (p :: ps)); [cbn; auto | | exact Hp].
        intros u v Euv Hv. symmetry in Euv. apply app_eq_nil in Euv as [_ ->].
        contradiction Hv; reflexivity.
      * destruct (IH s (c :: cur) false ltac:(lia)) as [p [ps [E Hp]]].
        exists (c :: p), ps. rewrite E. cbn [rev]. rewrite <- app_assoc.
        split; [reflexivity|]. apply cuts_cons; [exact Hp|].
        unfold sep_at, separators. cbn [existsb]. rewrite Ea, Eb.
        change (lit ",") with [44]. change (lit ";") with [59].
        cbn [prefixb]. rewrite !andb_true_r, !orb_false_r.
        rewrite (N.eqb_sym 44 c), (N.eqb_sym 59 c). exact Ec.
Qed.

(** No two separators start at the same place. *)
Lemma separators_apart (a b ra rb : str) :
  In a separators -> In b separators -> a ++ ra = b ++ rb -> a = b.
Proof.
  unfold separators. cbn [In].
  intros [<- | [<- | [<- | [<- | []]]]] [<- | [<- | [<- | [<- | []]]]] E;
    try reflexivity; cbn in E; congruence.
Qed.

(** The pieces of a text are determined. *)
Lemma cuts_unique (s : str) (ps ps' : list str) :
  cuts s ps -> cuts s ps' -> ps = ps'.
Proof.
  intros H. revert ps'.
  induction H as [s Hs | p sep rest ps Hin Hp Hr IH]; intros ps' H'.
  - inversion H' as [s0 Hs' | p' sep' rest' ps0 Hin' Hp' Hr']; subst;
      [reflexivity|].
    pose proof (sep_at_app sep' rest' Hin') as E.
    rewrite (Hs p' (sep' ++ rest') eq_refl) in E. discriminate E.
  - inversion H' as [s0 Hs' | p' sep' rest' ps0 Hin' Hp' Hr' E0]; subst.
    + pose proof (sep_at_app sep rest Hin) as E.
      rewrite (Hs' p (sep ++ rest) eq_refl) in E. discriminate E.
    + assert (Epp : p = p').
      { apply app_eq_app in E0 as [l [[E1 E2] | [E1 E2]]].
        - destruct l as [|x l]; [rewrite app_nil_r in E1; congruence|].
          exfalso. pose proof (Hp' p (x :: l) E1 ltac:(discriminate)) as E.
          pose proof (sep_at_app sep rest Hin) as E'. congruence.
        - destruct l as [|x l]; [rewrite app_nil_r in E1; congruence|].
          exfalso. pose proof (Hp p' (x :: l) E1 ltac:(discriminate)) as E.
          rewrite <- E2 in E.
          pose proof (sep_at_app sep' rest' Hin') as E'. congruence. }
      subst p'. apply app_inv_head in E0.
      assert (Es : sep = sep') by (symmetry; exact (separators_apart _ _ _ _ Hin' Hin E0)).
      subst sep'. apply app_inv_head in E0. subst rest'.
      f_equal. apply IH. exact Hr'.
Qed.

(** The parts of a query are its pieces, stripped, those that are empty
    then left out. *)
Lemma parts_of_cuts (q : str) :
  exists ps,
    cuts q ps
    /\ (forall ps', cuts q ps' -> ps' = ps)
    /\ parts_of q
       = flat_map (fun p => if falsy (strip p) then [] else [strip p]) ps.
Proof.
  destruct (split_cuts (List.length q) q [] false (le_n _)) as [p [ps [E Hp]]].
  exists (p :: ps). split; [exact Hp|]. split.
  - intros ps' H'. exact (cuts_unique q ps' (p :: ps) H' Hp).
  - unfold parts_of, split. rewrite E. reflexivity.
Qed.

Lemma endswith_split (s h : str) :
  endswith s h = true <-> exists p, s = p ++ h.
Proof.
  split; [|intros [p ->]; apply endswith_app].
  unfold endswith. intros H. destruct (prefixb_split _ _ H) as [t Et].
  exists (rev t). rewrite <- (rev_involutive s), Et, rev_app_distr, rev_involutive.
  reflexivity.
Qed.

(** Without its trailing hint, a query that ends with it. *)
Lemma without_trailing_app (p h : str) : without_trailing h (p ++ h) = p.
Proof.
  unfold without_trailing. rewrite length_app.
  replace (List.length p + List.length h - List.length h)%nat
    with (List.length p + 0)%nat by lia.
  rewrite firstn_app_2. cbn [firstn]. apply app_nil_r.
Qed.

Section Run.
Variable W : Type.
Variable nominatim : str -> W -> option coord * W.

Local Abbreviation world := (world W).
Local Abbreviation try_each := (try_each nominatim).
Local Abbreviation try_geocode_variants := (try_geocode_variants nominatim).
Local Abbreviation after := (after nominatim).
Local Abbreviation silent := (silent nominatim).

Lemma try_each_silent (out : list str) (w : world) :
  silent out (ext w) ->
  try_each out w
  = (None, {| ext := after out (ext w); log := log w ++ map Request out |}).
Proof.
  revert w. induction out as [|a out IH]; intros [e l]; cbn [silent after map].
  - intros _. cbn [try_each ext log]. rewrite app_nil_r. reflexivity.
  - intros [Ha Hs]. cbn [try_each]. unfold query_nominatim. cbn [ext log] in *.
    destruct (nominatim a e) as [r e'] eqn:E. cbn [fst snd] in *. subst r.
    rewrite IH by exact Hs. cbn [ext log]. rewrite <- app_assoc. reflexivity.
Qed.

Lemma try_each_first (pre : list str) (a : str) (post : list str) (c : coord)
  (w : world) :
  silent pre (ext w) ->
  fst (nominatim a (after pre (ext w))) = Some c ->
  try_each (pre ++ a :: post) w
  = (Some c, {| ext := snd (nominatim a (after pre (ext w)));
                log := log w ++ map Request (pre ++ [a]) |}).
Proof.
  revert w. induction pre as [|b pre IH]; intros [e l]; cbn [silent after app].
  - intros _ Ha. cbn [try_each]. unfold query_nominatim. cbn [ext log] in *.
    destruct (nominatim a e) as [r e'] eqn:E. cbn [fst snd] in *. subst r.
    reflexivity.
  - intros [Hb Hs] Ha. cbn [try_each]. unfold query_nominatim.
    cbn [ext log] in *.
    destruct (nominatim b e) as [r e'] eqn:E. cbn [fst snd] in *. subst r.
    rewrite (IH {| ext := e'; log := l ++ [Request b] |}) by assumption.
    cbn [ext log map]. rewrite <- app_assoc. reflexivity.
Qed.

(** Either no request of a list is answered, or one of them is the first
    to be. *)
Lemma silent_or_first (out : list str) (e : W) :
  silent out e
  \/ exists pre a post c,
       out = pre ++ a :: post /\ silent pre e
       /\ fst (nominatim a (after pre e)) = Some c.
Proof.
  revert e. induction out as [|a out IH]; intros e; [left; exact I|].
  destruct (fst (nominatim a e)) as [c|] eqn:Ea.
  - right. exists [], a, out, c. cbn [silent after app]. auto.
  - destruct (IH (snd (nominatim a e))) as [Hs | [pre [b [post [c [E [Hs Hb]]]]]]].
    + left. cbn [silent]. auto.
    + right. exists (a :: pre), b, post, c. cbn [silent after app].
      subst out. auto.
Qed.

Lemma try_geocode_variants_each (q : str) (w : world) :
  try_geocode_variants q w = try_each (variants q) w.
Proof.
  unfold geocode_nominatim.try_geocode_variants.
  destruct q; reflexivity.
Qed.

(** C5.  The comment in [try_geocode_variants] has the second attempt be
    the query [without trailing ', United States'], as the specification has
    it; the code takes the hint out with [str.replace], wherever it stands in
    the query.  For [Guam, United States; Texas, United States] the second
    request is for [Guam; Texas], where the specification has
    [Guam, United States; Texas]; the other attempts are as specified.

    For every query: the parts are the pieces between the separators, each
    stripped, the empty ones left out; they are sorted from the longest to
    the shortest, parts of one length staying in their order; the attempts
    are the query, the query without every occurrence of the hint when it
    ends with it, the sorted parts, and these parts with the hint appended;
    empty texts are no attempts and a text is attempted only where it first
    occurs.  The attempts are those of the specification when the query does
    not end with the hint, and when it has the hint at its end only.  The
    requests are issued in this order: they stop at the first one that is
    answered, whose answer is the result, and when none is answered all have
    been issued and there is no result. *)
Theorem hint_is_removed_throughout :
  (endswith Samples.guam_texas_query hint = true
   /\ variants Samples.guam_texas_query
      = [ Samples.guam_texas_query;
          lit "Guam; Texas";
          lit "United States"; lit "Texas"; lit "Guam";
          lit "United States, United States";
          lit "Texas, United States"; lit "Guam, United States" ]
   /\ spec_variants Samples.guam_texas_query
      = [ Samples.guam_texas_query;
          lit "Guam, United States; Texas";
          lit "United States"; lit "Texas"; lit "Guam";
          lit "United States, United States";
          lit "Texas, United States"; lit "Guam, United States" ]
   /\ option_map (fun o => log (o_world o))
        (geocode_nominatim.main_from Samples.deaf
           (Samples.one_row "Guam, United States; Texas, United States")
           [] [] Samples.start)
      = Some [ Request Samples.guam_texas_query;
               Request (lit "Guam; Texas");
               Request (lit "United States");
               Request (lit "Texas");
               Request (lit "Guam");
               Request (lit "United States, United States");
               Request (lit "Texas, United States");
               Request (lit "Guam, United States");
               Sleep 1.1 ])
  /\ forall (q : str) (w : world),
      let parts_sorted := sorted_by_len (parts_of q) in
      let attempts :=
        [q] ++ (if endswith q hint then [replace hint [] q] else [])
        ++ parts_sorted ++ map (fun p => p ++ hint) parts_sorted in
      (exists ps,
          cuts q ps
          /\ (forall ps', cuts q ps' -> ps' = ps)
          /\ parts_of q
             = flat_map (fun p => if falsy (strip p) then [] else [strip p]) ps)
      /\ (Permutation parts_sorted (parts_of q)
          /\ StronglySorted longer_first parts_sorted
          /\ forall n, filter (fun p => (List.length p =? n)%nat) parts_sorted
                       = filter (fun p => (List.length p =? n)%nat) (parts_of q))
      /\ (variants q
          = first_occurrences (filter (fun a => negb (falsy a)) attempts)
          /\ NoDup (variants q)
          /\ forall a, In a (variants q) <-> In a attempts /\ a <> [])
      /\ (endswith q hint = true <-> exists p, q = p ++ hint)
      /\ (endswith q hint = false -> variants q = spec_variants q)
      /\ (forall p,
            q = p ++ hint ->
            endswith q hint = true
            /\ without_trailing hint q = p
            /\ ((forall u v, p = u ++ v -> v <> [] ->
                             prefixb hint (v ++ hint) = false) ->
                replace hint [] q = p /\ variants q = spec_variants q))
      /\ (forall pre a post c,
            variants q = pre ++ a :: post ->
            silent pre (ext w) ->
            fst (nominatim a (after pre (ext w))) = Some c ->
            try_geocode_variants q w
            = (Some c, {| ext := snd (nominatim a (after pre (ext w)));
                          log := log w ++ map Request (pre ++ [a]) |}))
      /\ (silent (variants q) (ext w) ->
          try_geocode_variants q w
          = (None, {| ext := after (variants q) (ext w);
                      log := log w ++ map Request (variants q) |}))
      /\ (silent (variants q) (ext w)
          \/ exists pre a post c,
               variants q = pre ++ a :: post /\ silent pre (ext w)
               /\ fst (nominatim a (after pre (ext w))) = Some c).
Proof.
  split; [repeat split; vm_compute; reflexivity|].
  intros q w parts_sorted attempts.
  assert (Ev : variants q
               = first_occurrences (filter (fun a => negb (falsy a)) attempts)).
  { unfold variants. rewrite dedupe_first_occurrences.
    apply forallb_filter_id. apply forallb_forall. reflexivity. }
  split; [apply parts_of_cuts|].
  split; [|split; [|split; [|split; [|split; [|split; [|split]]]]]].
  - split; [apply sorted_by_len_perm|].
    split; [apply sorted_by_len_sorted | apply sorted_by_len_stable].
  - split; [exact Ev|]. rewrite Ev.
    split; [apply first_occurrences_nodup|].
    intros a. rewrite first_occurrences_in, filter_In, negb_true_iff.
    destruct a; cbn [falsy]; split; intros [H1 H2]; split;
      congruence || assumption || reflexivity.
  - apply endswith_split.
  - intros He. rewrite Ev. unfold spec_variants, spec_attempts_of, attempts.
    rewrite He. reflexivity.
  - intros p Eq.
    assert (He : endswith q hint = true) by (rewrite Eq; apply endswith_app).
    assert (Ew : without_trailing hint q = p)
      by (rewrite Eq; apply without_trailing_app).
    split; [exact He|]. split; [exact Ew|]. intros Hp.
    assert (Er : replace hint [] q = p)
      by (rewrite Eq; apply replace_only_ending; [discriminate | exact Hp]).
    split; [exact Er|].
    rewrite Ev. unfold spec_variants, spec_attempts_of, attempts.
    rewrite He, Er, Ew. reflexivity.
  - intros pre a post c E Hs Ha.
    rewrite try_geocode_variants_each, E. apply try_each_first; assumption.
  - intros Hs. rewrite try_geocode_variants_each. apply try_each_silent, Hs.
  - apply silent_or_first.
Qed.
End Run.

End RetryFacts.

(** ** The pipeline of [geocode_nominatim.py] *)

Module PipelineFacts.
Import Py PyFacts Db Geo geocode_nominatim RetryFacts.

Lemma cmem_cget (q : str) (c : cache_t) :
  cmem q c = false <-> cget q c = None.
Proof.
  unfold cmem, cget, dict_mem. destruct (dict_get str_eqb q c); split; congruence.
Qed.

(** The keys of [unique_qs] are the non-empty queries of the rows, each
    once. *)
Lemma unique_qs_keys (queries : dict Z str) (acc : dict str nat) (q : str) :
  In q (dict_keys
          (fold_left
             (fun unique_qs rq =>
                let q := snd rq in
                if falsy q then unique_qs
                else
                  let n := match dict_get str_eqb q unique_qs with
                           | Some n => n | None => O end in
                  dict_set str_eqb q (n + 1)%nat unique_qs)
             queries acc))
  <-> In q (dict_keys acc) \/ (q <> [] /\ In q (map snd queries)).
Proof.
  revert acc. induction queries as [|[rid x] queries IH]; intros acc;
    cbn [fold_left map snd In].
  - tauto.
  - rewrite IH. destruct x as [|c x]; cbn [falsy].
    + split; [intros [H | [H1 H2]]; auto | ].
      intros [H | [H1 [H2 | H2]]]; auto. congruence.
    + rewrite (DictFacts.keys_set_in str nat str_eqb str_eqb_eq).
      split.
      * intros [[H | ->] | [H1 H2]]; auto. right. split; [discriminate | auto].
      * intros [H | [H1 [<- | H2]]]; auto.
Qed.

Lemma unique_qs_nodup (queries : dict Z str) (acc : dict str nat) :
  NoDup (dict_keys acc) ->
  NoDup (dict_keys
           (fold_left
              (fun unique_qs rq =>
                 let q := snd rq in
                 if falsy q then unique_qs
                 else
                   let n := match dict_get str_eqb q unique_qs with
                            | Some n => n | None => O end in
                   dict_set str_eqb q (n + 1)%nat unique_qs)
              queries acc)).
Proof.
  revert acc. induction queries as [|[rid x] queries IH]; intros acc H;
    cbn [fold_left snd]; [exact H|].
  apply IH. destruct (falsy x); [exact H|].
  apply (DictFacts.keys_set_nodup str nat str_eqb str_eqb_eq). exact H.
Qed.

Lemma missing_in (queries : dict Z str) (cache : cache_t) (q : str) :
  In q (missing_of (build_unique_qs queries) cache)
  <-> q <> [] /\ In q (map snd queries) /\ cmem q cache = false.
Proof.
  unfold missing_of, build_unique_qs.
  rewrite filter_In, unique_qs_keys, negb_true_iff. cbn [dict_keys map In].
  tauto.
Qed.

Lemma missing_nodup (queries : dict Z str) (cache : cache_t) :
  NoDup (missing_of (build_unique_qs queries) cache).
Proof.
  unfold missing_of, build_unique_qs. apply NoDup_filter.
  apply unique_qs_nodup. constructor.
Qed.

Section Run.
Variable W : Type.
Variable nominatim : str -> W -> option coord * W.

Local Abbreviation world := (world W).
Local Abbreviation try_each := (try_each nominatim).
Local Abbreviation try_geocode_variants := (try_geocode_variants nominatim).
Local Abbreviation geocode_missing := (geocode_missing nominatim).
Local Abbreviation main_from := (main_from nominatim).

(** The requests of one lookup are attempts of its query, and its answer is
    an answer of the service. *)
Lemma try_variants_log (q : str) (w : world) :
  exists pre,
    log (snd (try_geocode_variants q w)) = log w ++ map Request pre
    /\ incl pre (variants q).
Proof.
  rewrite try_geocode_variants_each.
  destruct (silent_or_first W nominatim (variants q) (ext w))
    as [Hs | [pre [a [post [c [E [Hs Ha]]]]]]].
  - exists (variants q). rewrite (try_each_silent W nominatim _ w Hs).
    split; [reflexivity | apply incl_refl].
  - exists (pre ++ [a]). rewrite E.
    rewrite (try_each_first W nominatim pre a post c w Hs Ha).
    split; [reflexivity|].
    intros x Hx. apply in_app_iff in Hx. apply in_app_iff.
    destruct Hx as [Hx | [<- | []]]; [left; exact Hx | right; left; reflexivity].
Qed.

Lemma try_variants_answer (q : str) (w : world) (c : coord) :
  fst (try_geocode_variants q w) = Some c ->
  exists a e, fst (nominatim a e) = Some c.
Proof.
  rewrite try_geocode_variants_each. generalize (variants q) as out.
  intros out. revert w. induction out as [|a out IH]; intros w;
    cbn [geocode_nominatim.try_each fst]; [discriminate|].
  unfold query_nominatim.
  destruct (nominatim a (ext w)) as [r e'] eqn:E. destruct r as [c'|].
  - cbn [fst]. intros H; inversion H; subst. exists a, (ext w).
    rewrite E. reflexivity.
  - apply IH.
Qed.

(** Every request of the loop over [missing] is an attempt of one of the
    missing queries. *)
Lemma geocode_missing_requests (missing : list str) (cache : cache_t)
  (w : world) (a : str) :
  In (Request a) (log (snd (geocode_missing missing cache w))) ->
  In (Request a) (log w)
  \/ exists m, In m missing /\ In a (variants m).
Proof.
  revert cache w. induction missing as [|q missing IH]; intros cache w;
    cbn [geocode_nominatim.geocode_missing snd]; [auto|].
  destruct (try_variants_log q w) as [pre [El Hp]].
  destruct (try_geocode_variants q w) as [res w1]. cbn [snd] in El.
  intros H. apply IH in H. destruct H as [H | [m [Hm Ha]]].
  - unfold sleep in H. cbn [log] in H. rewrite El in H.
    rewrite !in_app_iff in H. destruct H as [[H | H] | [H | []]].
    + left; exact H.
    + right. exists q. split; [left; reflexivity|].
      apply in_map_iff in H. destruct H as [x [Ex Hx]].
      inversion Ex; subst. apply Hp, Hx.
    + discriminate.
  - right. exists m. split; [right; exact Hm | exact Ha].
Qed.

(** The loop sleeps once for each missing query. *)
Lemma geocode_missing_sleeps (missing : list str) (cache : cache_t) (w : world) :
  sleeps (log (snd (geocode_missing missing cache w)))
  = (sleeps (log w) + List.length missing)%nat.
Proof.
  revert cache w. induction missing as [|q missing IH]; intros cache w;
    cbn [geocode_nominatim.geocode_missing snd List.length]; [lia|].
  destruct (try_variants_log q w) as [pre [El _]].
  destruct (try_geocode_variants q w) as [res w1]. cbn [snd] in El.
  rewrite IH. unfold sleep, sleeps. cbn [log]. rewrite El.
  rewrite !filter_app, !length_app. cbn [filter List.length].
  assert (filter (fun e => match e with Sleep _ => true | _ => false end)
            (map Request pre) = []) as ->; [|cbn [List.length]; lia].
  clear El. induction pre as [|x pre IHp]; [reflexivity | exact IHp].
Qed.

(** The loop leaves the cache it was given in place and appends one entry
    for each missing query, in order. *)
Lemma geocode_missing_cache (missing : list str) (cache : cache_t) (w : world) :
  NoDup missing ->
  (forall q, In q missing -> cget q cache = None) ->
  exists results,
    List.length results = List.length missing
    /\ fst (geocode_missing missing cache w) = cache ++ combine missing results
    /\ forall c, In (Some c) results -> exists a e, fst (nominatim a e) = Some c.
Proof.
  revert cache w. induction missing as [|q missing IH]; intros cache w Hn Hc.
  - exists []. cbn. rewrite app_nil_r. repeat split. intros c [].
  - cbn [geocode_nominatim.geocode_missing].
    pose proof (try_variants_answer q w) as Hans.
    destruct (try_geocode_variants q w) as [res w1]. cbn [fst] in Hans.
    inversion Hn as [|? ? Hq Hn']; subst.
    unfold cset.
    rewrite (DictFacts.set_new str (option coord) str_eqb q res cache)
      by (apply Hc; left; reflexivity).
    destruct (IH (cache ++ [(q, res)]) (sleep 1.1 w1) Hn') as [results [El [Ec Hr]]].
    { intros q' Hq'. unfold cget.
      rewrite (DictFacts.get_app_none str (option coord) str_eqb q' cache)
        by (apply Hc; right; exact Hq').
      cbn [dict_get]. destruct (str_eqb q' q) eqn:E; [|reflexivity].
      apply str_eqb_eq in E. subst. contradiction. }
    exists (res :: results). split; [cbn; lia|]. split.
    + rewrite Ec, <- app_assoc. reflexivity.
    + intros c [-> | H]; [apply Hans; reflexivity | apply Hr; exact H].
Qed.

(** What [main_from] returns, phase by phase. *)
Lemma main_from_inv (t : table) (cache : cache_t) (approx_map : dict Z coord)
  (w : world) (o : outcome W) :
  main_from t cache approx_map w = Some o ->
  o_missing o = missing_of (build_unique_qs (o_queries o)) cache
  /\ (o_cache o, o_world o) = geocode_missing (o_missing o) cache w
  /\ exists col_location col_year col_disaster col_article col_notes,
       o_queries o
       = build_queries (idx_of (cols t)) col_location col_article col_notes (rows t)
       /\ o_features o
          = features_of (idx_of (cols t)) (o_queries o) (o_cache o) approx_map
              col_location col_year col_disaster col_article (rows t).
Proof.
  unfold geocode_nominatim.main_from.
  destruct (or_else (find_col (cols t) (lit "location"))
                    (find_col (cols t) (lit "loc"))) as [cl|]; [|discriminate].
  match goal with
  | |- (let (_, _) := ?g in _) = _ -> _ => destruct g as [cache' w'] eqn:E
  end.
  intros H. inversion H; subst; clear H. cbn [o_missing o_cache o_world o_queries o_features].
  split; [reflexivity|]. split; [symmetry; exact E|].
  eexists cl, _, _, _, _. split; reflexivity.
Qed.

(** The frame of one run on the cache: see the theorem below. *)
Lemma loaded_entries_are_kept0 (t : table) (cache : cache_t)
  (approx_map : dict Z coord) (w : world) (o : outcome W) :
  main_from t cache approx_map w = Some o ->
  (exists results,
      List.length results = List.length (o_missing o)
      /\ o_cache o = cache ++ combine (o_missing o) results
      /\ forall c, In (Some c) results ->
                   exists a e, fst (nominatim a e) = Some c)
  /\ NoDup (o_missing o)
  /\ (forall q, In q (o_missing o)
                <-> q <> [] /\ In q (map snd (o_queries o))
                    /\ cmem q cache = false)
  /\ (forall k, cmem k cache = true -> cget k (o_cache o) = cget k cache).
Proof.
  intros H. destruct (main_from_inv t cache approx_map w o H) as [Em [Eg _]].
  assert (Hin : forall q, In q (o_missing o)
                          <-> q <> [] /\ In q (map snd (o_queries o))
                              /\ cmem q cache = false)
    by (intros q; rewrite Em; apply missing_in).
  assert (Hnd : NoDup (o_missing o)) by (rewrite Em; apply missing_nodup).
  destruct (geocode_missing_cache (o_missing o) cache w Hnd)
    as [results [El [Ec Hr]]].
  { intros q Hq. apply cmem_cget. apply Hin in Hq. tauto. }
  rewrite <- Eg in Ec. cbn [fst] in Ec.
  split; [exists results; auto|]. split; [exact Hnd|]. split; [exact Hin|].
  intros k Hk. rewrite Ec. unfold cget.
  apply (DictFacts.get_app_some str (option coord) str_eqb). exact Hk.
Qed.

(** C10.  In one run the entries of the loaded cache are neither changed
    nor removed: the mapping handed to [save_cache] is the loaded mapping
    followed by one entry for each missing query, and the missing queries are
    exactly the non-empty queries of the rows that the loaded cache does not
    hold, each once. *)
Theorem loaded_entries_are_kept (t : table) (cache : cache_t)
  (approx_map : dict Z coord) (w : world) (o : outcome W) :
  main_from t cache approx_map w = Some o ->
  (exists results,
      List.length results = List.length (o_missing o)
      /\ o_cache o = cache ++ combine (o_missing o) results)
  /\ NoDup (o_missing o)
  /\ (forall q, In q (o_missing o)
                <-> q <> [] /\ In q (map snd (o_queries o))
                    /\ cmem q cache = false)
  /\ (forall k, cmem k cache = true -> cget k (o_cache o) = cget k cache).
Proof.
  intros H.
  destruct (loaded_entries_are_kept0 t cache approx_map w o H)
    as [[results [El [Ec _]]] [Hnd [Hin Hk]]].
  split; [exists results; auto|]. auto.
Qed.

(** *** The events of a run *)

Lemma try_each_prefix (out : list str) (w : world) :
  exists pre post,
    out = pre ++ post
    /\ log (snd (try_each out w)) = log w ++ map Request pre
    /\ (out <> [] -> pre <> [])
    /\ (fst (try_each out w) = None -> post = []).
Proof.
  revert w. induction out as [|a out IH]; intros w.
  - exists [], []. cbn. rewrite app_nil_r. repeat split; auto.
  - cbn [geocode_nominatim.try_each]. unfold query_nominatim.
    destruct (nominatim a (ext w)) as [res e] eqn:En.
    destruct res as [c|].
    + exists [a], out. cbn. repeat split; try discriminate.
    + set (w1 := {| ext := e; log := log w ++ [Request a] |}).
      destruct (IH w1) as [pre [post [E [El [_ Hn]]]]].
      exists (a :: pre), post. split; [rewrite E; reflexivity|].
      split; [rewrite El; cbn; rewrite <- app_assoc; reflexivity|].
      split; [discriminate | exact Hn].
Qed.

Lemma variants_head (q : str) :
  q <> [] -> exists rest, variants q = q :: rest.
Proof.
  intros Hq. unfold variants, attempts_of. cbn [app dedupe].
  destruct q as [|c q]; [contradiction Hq; reflexivity|].
  cbn [falsy negb seen_mem existsb andb]. eexists. reflexivity.
Qed.

Lemma geocode_missing_trace (missing : list str) :
  forall (cache : cache_t) (w : world),
    Forall (fun q => q <> []) missing ->
    exists pres,
      Forall2 (fun q pre => exists rest post,
                 pre = q :: rest /\ variants q = pre ++ post)
        missing pres
      /\ log (snd (geocode_missing missing cache w))
         = log w ++ flat_map (fun pre => map Request pre ++ [Sleep 1.1]) pres.
Proof.
  induction missing as [|q missing IH]; intros cache w Hne.
  - exists []. split; [constructor|]. cbn. rewrite app_nil_r. reflexivity.
  - inversion Hne as [|? ? Hq Hne']; subst.
    cbn [geocode_nominatim.geocode_missing].
    destruct (try_geocode_variants q w) as [res w1] eqn:Et.
    destruct (try_each_prefix (variants q) w) as [pre [post [E [El [Hp _]]]]].
    assert (Ew : w1 = snd (try_each (variants q) w)).
    { unfold geocode_nominatim.try_geocode_variants in Et. destruct q as [|c q];
        [contradiction Hq; reflexivity|].
      cbn [falsy] in Et. rewrite Et. reflexivity. }
    destruct (variants_head q Hq) as [rest Ev].
    assert (Hpre : exists rest', pre = q :: rest').
    { destruct pre as [|a pre]; [exfalso; apply Hp; [rewrite Ev; discriminate | reflexivity]|].
      rewrite Ev in E. inversion E. exists pre. reflexivity. }
    destruct Hpre as [rest' Epre].
    destruct (IH (cset q res cache) (sleep 1.1 w1) Hne') as [pres [Hf Hl]].
    exists (pre :: pres). split.
    + constructor; [|exact Hf]. exists rest', post. split; assumption.
    + rewrite Hl. cbn [flat_map]. unfold sleep. cbn [log].
      rewrite Ew, El. rewrite <- !app_assoc. reflexivity.
Qed.

(** C4, amended.  A query [q] that the loaded cache holds with the negative
    marker is not among the missing queries, so the lookup with its variants
    is not run for it, and it keeps its negative marker.  The run sends, for
    each missing query in turn, requests for the first variants of this
    query, the query itself to begin with, and nothing else: every request is
    an attempt for a missing query, which is another query than [q].  The
    text of [q] is therefore requested only where it is a variant of a
    missing query, and not at all when it is a variant of none.  A row with
    the query [q] takes the coordinate the approximate file has for its id
    when it has one, and otherwise the answer of the heuristic resolver on
    the query. *)
Theorem negative_entry_is_not_requeried (t : table) (cache : cache_t)
  (approx_map : dict Z coord) (w : world) (o : outcome W) (q : str) :
  main_from t cache approx_map w = Some o ->
  cget q cache = Some None ->
  (In q (o_missing o) -> False)
  /\ (exists pres,
        Forall2 (fun m pre => m <> q
                              /\ exists rest post,
                                   pre = m :: rest /\ variants m = pre ++ post)
          (o_missing o) pres
        /\ log (o_world o)
           = log w ++ flat_map (fun pre => map Request pre ++ [Sleep 1.1]) pres)
  /\ (forall a, In (Request a) (log (o_world o)) ->
         In (Request a) (log w)
         \/ exists m, In m (o_missing o) /\ m <> q /\ In a (variants m))
  /\ ((forall m, In m (o_missing o) -> In q (variants m) -> False) ->
      In (Request q) (log (o_world o)) -> In (Request q) (log w))
  /\ cget q (o_cache o) = Some None
  /\ (forall rid, dict_get Z.eqb rid (o_queries o) = Some q ->
         feature_coord (o_queries o) (o_cache o) approx_map rid
         = match dict_get Z.eqb rid approx_map with
           | Some c => Some c
           | None => generate_geojson.find_location_coords q
           end).
Proof.
  intros H Hq.
  destruct (loaded_entries_are_kept0 t cache approx_map w o H)
    as [_ [_ [Hin Hkeep]]].
  destruct (main_from_inv t cache approx_map w o H) as [_ [Eg _]].
  assert (Hmem : cmem q cache = true)
    by (unfold cmem, dict_mem; unfold cget in Hq; rewrite Hq; reflexivity).
  assert (Hnot : In q (o_missing o) -> False).
  { intros Hm. apply Hin in Hm. destruct Hm as [_ [_ Hm]]. congruence. }
  assert (Hneg : cget q (o_cache o) = Some None)
    by (rewrite (Hkeep q Hmem); exact Hq).
  assert (Hreq : forall a, In (Request a) (log (o_world o)) ->
            In (Request a) (log w)
            \/ exists m, In m (o_missing o) /\ m <> q /\ In a (variants m)).
  { intros a Ha.
    pose proof (geocode_missing_requests (o_missing o) cache w a) as Hr.
    rewrite <- Eg in Hr. cbn [snd] in Hr.
    destruct (Hr Ha) as [Hl | [m [Hm Hv]]]; [left; exact Hl|].
    right. exists m. split; [exact Hm|]. split; [|exact Hv].
    intros ->. exact (Hnot Hm). }
  split; [exact Hnot|]. split; [|split; [exact Hreq|split; [|split; [exact Hneg|]]]].
  - destruct (geocode_missing_trace (o_missing o) cache w) as [pres [Hf Hl]].
    { apply Forall_forall. intros m Hm. apply Hin in Hm. tauto. }
    exists pres. split; [|rewrite <- Eg in Hl; exact Hl].
    clear Hl. revert Hnot Hf. generalize (o_missing o). intros ms Hnot Hf.
    revert Hnot. induction Hf as [|m pre ms' pres' Hm Hf IH]; intros Hnot;
      constructor.
    + split; [|exact Hm]. intros ->. apply Hnot. left. reflexivity.
    + apply IH. intros Hq'. apply Hnot. right. exact Hq'.
  - intros Hno Ha. destruct (Hreq q Ha) as [Hl | [m [Hm [_ Hv]]]];
      [exact Hl | destruct (Hno m Hm Hv)].
  - intros rid Hrid. unfold feature_coord. rewrite Hrid.
    destruct (falsy q); cbn [negb]; [reflexivity|].
    rewrite Hneg. reflexivity.
Qed.

(** After a run the cache holds valid coordinates when the loaded cache and
    the answers of the service are valid. *)
Lemma run_cache_valid (t : table) (cache : cache_t)
  (approx_map : dict Z coord) (w : world) (o : outcome W) :
  main_from t cache approx_map w = Some o ->
  (forall q x, cget q cache = Some (Some x) -> generate_geojson.valid_coord x) ->
  (forall a e x, fst (nominatim a e) = Some x -> generate_geojson.valid_coord x) ->
  forall q x, cget q (o_cache o) = Some (Some x) -> generate_geojson.valid_coord x.
Proof.
  intros H Hc Hn q x Hq.
  destruct (loaded_entries_are_kept0 t cache approx_map w o H)
    as [[results [El [Ec Hr]]] _].
  rewrite Ec in Hq. unfold cget in *.
  destruct (dict_get str_eqb q cache) as [v|] eqn:E.
  - rewrite (DictFacts.get_app_some str (option coord) str_eqb) in Hq
      by (unfold dict_mem; rewrite E; reflexivity).
    apply (Hc q). congruence.
  - rewrite (DictFacts.get_app_none str (option coord) str_eqb) in Hq by exact E.
    apply (DictFacts.get_in str (option coord) str_eqb str_eqb_eq) in Hq.
    apply in_combine_r in Hq. destruct (Hr x Hq) as [a [e Ha]].
    exact (Hn a e x Ha).
Qed.

End Run.

(** A feature comes from a row, with the coordinate chosen for it. *)
Lemma features_of_in (idx : dict str nat) (queries : dict Z str)
  (cache : cache_t) (approx_map : dict Z coord) (cl : str)
  (cy cd ca : option str) (rs : list row) (f : feature) :
  In f (features_of idx queries cache approx_map cl cy cd ca rs) ->
  exists r c, In r rs /\ f_id f = rowid r
    /\ feature_coord queries cache approx_map (rowid r) = Some c
    /\ f_lat f = fst c /\ f_lon f = snd c.
Proof.
  induction rs as [|r rs IH]; cbn [geocode_nominatim.features_of]; [intros []|].
  destruct (feature_coord queries cache approx_map (rowid r)) as [c|] eqn:E.
  - intros [<- | H].
    + exists r, c. cbn. auto.
    + destruct (IH H) as [r' [c' [Hr H']]]. exists r', c'. cbn [In]. tauto.
  - intros H. destruct (IH H) as [r' [c' [Hr H']]]. exists r', c'.
    cbn [In]. tauto.
Qed.

Lemma feature_coord_valid (queries : dict Z str) (cache : cache_t)
  (approx_map : dict Z coord) (rid : Z) (c : coord) :
  (forall q x, cget q cache = Some (Some x) -> generate_geojson.valid_coord x) ->
  (forall i x, dict_get Z.eqb i approx_map = Some x ->
               generate_geojson.valid_coord x) ->
  feature_coord queries cache approx_map rid = Some c ->
  generate_geojson.valid_coord c.
Proof.
  intros Hc Ha. unfold feature_coord.
  set (pick := match dict_get Z.eqb rid queries with
               | Some q =>
                   if negb (falsy q)
                   then match cget q cache with
                        | Some (Some x) => Some x
                        | _ => None
                        end
                   else None
               | None => None
               end).
  assert (Hp : forall x, pick = Some x -> generate_geojson.valid_coord x).
  { unfold pick. intros x.
    destruct (dict_get Z.eqb rid queries) as [q|]; [|discriminate].
    destruct (negb (falsy q)); [|discriminate].
    destruct (cget q cache) as [[y|]|] eqn:E; try discriminate.
    intros H; inversion H; subst. exact (Hc q x E). }
  destruct pick as [x|]; [intros H; inversion H; subst; apply Hp; reflexivity|].
  destruct (dict_get Z.eqb rid approx_map) as [x|] eqn:E.
  - intros H; inversion H; subst. exact (Ha rid c E).
  - apply ResolverFacts.find_location_coords_valid.
Qed.

Lemma rowid_inj (rs : list row) (r r' : row) :
  NoDup (map rowid rs) -> In r rs -> In r' rs -> rowid r = rowid r' -> r = r'.
Proof.
  induction rs as [|x rs IH]; cbn [map In]; [intros _ []|].
  intros Hn. inversion Hn as [|? ? Hx Hn']; subst.
  intros [-> | Hr] [-> | Hr'] E.
  - reflexivity.
  - exfalso. apply Hx. rewrite E. apply in_map. exact Hr'.
  - exfalso. apply Hx. rewrite <- E. apply in_map. exact Hr.
  - exact (IH Hn' Hr Hr' E).
Qed.

Lemma gen_features_of_in (idx : dict str nat) (cl : str)
  (cy cd ca : option str) (rs : list row) (f : feature) :
  In f (generate_geojson.features_of idx cl cy cd ca rs) ->
  exists r c, In r rs /\ f_id f = rowid r
    /\ generate_geojson.row_coord idx cl r = Some c
    /\ f_lat f = fst c /\ f_lon f = snd c.
Proof.
  induction rs as [|r rs IH]; cbn [generate_geojson.features_of]; [intros []|].
  destruct (generate_geojson.row_coord idx cl r) as [c|] eqn:E.
  - intros [<- | H].
    + exists r, c. cbn. auto.
    + destruct (IH H) as [r' [c' [Hr H']]]. exists r', c'. cbn [In]. tauto.
  - intros H. destruct (IH H) as [r' [c' [Hr H']]]. exists r', c'.
    cbn [In]. tauto.
Qed.

Lemma row_coord_valid (idx : dict str nat) (cl : str) (r : row) (c : coord) :
  generate_geojson.row_coord idx cl r = Some c -> generate_geojson.valid_coord c.
Proof.
  unfold generate_geojson.row_coord.
  destruct (negb (truthy (cell idx r cl)));
    apply ResolverFacts.find_location_coords_valid.
Qed.

(** C7, amended.  In both scripts every feature carries the id of a row of
    the table, and of one row only, row ids being unique.  The features of
    the rule-based script have valid coordinates.  Those of the external
    pipeline pass on the coordinates of the cache, of the approximate file
    and of the service as they are: they are valid when every coordinate of
    the loaded cache, of the approximate file and of the answers of the
    service is valid. *)
Theorem features_name_rows_and_keep_validity
  (W : Type) (nominatim : str -> W -> option coord * W)
  (t : table) (cache : cache_t) (approx_map : dict Z coord)
  (w : world W) :
  NoDup (map rowid (rows t)) ->
  (forall fs f,
      generate_geojson.main t = Some fs -> In f fs ->
      (exists r, In r (rows t) /\ rowid r = f_id f
                 /\ forall r', In r' (rows t) -> rowid r' = f_id f -> r' = r)
      /\ generate_geojson.valid_coord (f_lat f, f_lon f))
  /\ (forall o f,
        main_from nominatim t cache approx_map w = Some o ->
        In f (o_features o) ->
        (exists r, In r (rows t) /\ rowid r = f_id f
                   /\ forall r', In r' (rows t) -> rowid r' = f_id f -> r' = r)
        /\ ((forall q x, cget q cache = Some (Some x) ->
                         generate_geojson.valid_coord x) ->
            (forall i x, dict_get Z.eqb i approx_map = Some x ->
                         generate_geojson.valid_coord x) ->
            (forall a e x, fst (nominatim a e) = Some x ->
                           generate_geojson.valid_coord x) ->
            generate_geojson.valid_coord (f_lat f, f_lon f))).
Proof.
  intros Hn. split.
  - intros fs f Hm Hf. unfold generate_geojson.main in Hm.
    destruct (or_else (find_col (cols t) (lit "location"))
                      (find_col (cols t) (lit "loc"))) as [cl|]; [|discriminate].
    inversion Hm; subst; clear Hm.
    apply gen_features_of_in in Hf.
    destruct Hf as [r [c [Hr [Ei [Ec [El Eo]]]]]].
    split.
    + exists r. split; [exact Hr|]. split; [symmetry; exact Ei|].
      intros r' Hr' E. apply (rowid_inj (rows t)); auto. congruence.
    + rewrite El, Eo. destruct c. exact (row_coord_valid _ _ _ _ Ec).
  - intros o f Hm Hf.
    destruct (main_from_inv W nominatim t cache approx_map w o Hm)
      as [_ [_ [cl [cy [cd [ca [cn [_ Ef]]]]]]]].
    rewrite Ef in Hf. apply features_of_in in Hf.
    destruct Hf as [r [c [Hr [Ei [Ec [El Eo]]]]]].
    split.
    + exists r. split; [exact Hr|]. split; [symmetry; exact Ei|].
      intros r' Hr' E. apply (rowid_inj (rows t)); auto. congruence.
    + intros Hc Ha Hs. rewrite El, Eo. destruct c.
      apply (feature_coord_valid (o_queries o) (o_cache o) approx_map (rowid r));
        [|exact Ha|exact Ec].
      exact (run_cache_valid W nominatim t cache approx_map w o Hm Hc Hs).
Qed.

Import Samples MoreSamples.
Local Open Scope Q_scope.

Lemma loaded_entries_are_kept_witness :
  exists o,
    main_from deaf (one_row "Atlantis") [(texas_query, None)] [] start = Some o
    /\ (exists results,
           List.length results = List.length (o_missing o)
           /\ o_cache o = [(texas_query, None)] ++ combine (o_missing o) results)
    /\ NoDup (o_missing o)
    /\ (forall q, In q (o_missing o)
                  <-> q <> [] /\ In q (map snd (o_queries o))
                      /\ cmem q [(texas_query, None)] = false)
    /\ (forall k, cmem k [(texas_query, None)] = true ->
                  cget k (o_cache o) = cget k [(texas_query, None)]).
Proof.
  eexists. split; [vm_compute; reflexivity|].
  apply (loaded_entries_are_kept unit deaf (one_row "Atlantis")
           [(texas_query, None)] [] start).
  vm_compute; reflexivity.
Defined.

(** C4, as stated, fails in two ways.  A row whose query is cached as
    negative takes the coordinate the approximate file has for its id, here
    (10, 20), and the heuristic resolver, which would answer the centroid of
    Texas, is not consulted.  And the text of a query cached as negative is
    sent to the service again when it is a variant of a missing query: with
    the rows [Texas] and [Texas and Oklahoma] the query of the second row is
    missing, and the last of its attempts is [Texas, United States]. *)
Lemma negative_entry_takes_the_approximate_file :
  option_map
    (fun o => (o_missing o, log (o_world o),
               map (fun f => (f_id f, f_lat f, f_lon f)) (o_features o)))
    (main_from deaf (one_row "Texas") [(texas_query, None)]
       [(1%Z, (10, 20))] start)
  = Some ([], [], [(1%Z, 10, 20)])
  /\ generate_geojson.find_location_coords texas_query
     = Some (31.054487, -97.563461)
  /\ option_map
       (fun o => (o_missing o, log (o_world o)))
       (main_from deaf (two_rows "Texas" "Texas and Oklahoma")
          [(texas_query, None)] [] start)
     = Some ([lit "Texas and Oklahoma, United States"],
             [ Request (lit "Texas and Oklahoma, United States");
               Request (lit "Texas and Oklahoma");
               Request (lit "United States");
               Request (lit "Oklahoma");
               Request (lit "Texas");
               Request (lit "United States, United States");
               Request (lit "Oklahoma, United States");
               Request texas_query;
               Sleep 1.1 ]).
Proof. repeat split; vm_compute; reflexivity. Qed.

Lemma negative_entry_is_not_requeried_witness :
  exists o,
    main_from deaf (one_row "Texas") [(texas_query, None)] [(1%Z, (10, 20))] start
    = Some o
    /\ (In texas_query (o_missing o) -> False)
    /\ (exists pres,
          Forall2 (fun m pre => m <> texas_query
                                /\ exists rest post,
                                     pre = m :: rest /\ variants m = pre ++ post)
            (o_missing o) pres
          /\ log (o_world o)
             = log start
               ++ flat_map (fun pre => map Request pre ++ [Sleep 1.1]) pres)
    /\ (forall a, In (Request a) (log (o_world o)) ->
           In (Request a) (log start)
           \/ exists m, In m (o_missing o) /\ m <> texas_query
                        /\ In a (variants m))
    /\ ((forall m, In m (o_missing o) -> In texas_query (variants m) -> False) ->
        In (Request texas_query) (log (o_world o)) ->
        In (Request texas_query) (log start))
    /\ cget texas_query (o_cache o) = Some None
    /\ (forall rid, dict_get Z.eqb rid (o_queries o) = Some texas_query ->
           feature_coord (o_queries o) (o_cache o) [(1%Z, (10, 20))] rid
           = match dict_get Z.eqb rid [(1%Z, (10, 20))] with
             | Some c => Some c
             | None => generate_geojson.find_location_coords texas_query
             end).
Proof.
  eexists. split; [vm_compute; reflexivity|].
  apply (negative_entry_is_not_requeried unit deaf (one_row "Texas")
           [(texas_query, None)] [(1%Z, (10, 20))] start);
    vm_compute; reflexivity.
Defined.

(** C6.  The module promises at least a second between requests, and
    [try_geocode_variants] leaves the delay between retries to the main loop;
    the main loop sleeps once for each missing query, after all its
    attempts.  For a row located at [Atlantis] and a service that answers
    nothing, four requests are issued one after the other and a single sleep
    follows them. *)
Theorem retries_are_issued_without_delay :
  option_map (fun o => log (o_world o))
    (main_from deaf (one_row "Atlantis") [] [] start)
  = Some [ Request atlantis_query;
           Request (lit "Atlantis");
           Request (lit "United States");
           Request (lit "United States, United States");
           Sleep 1.1 ]
  /\ option_map (fun o => paced (log (o_world o)))
       (main_from deaf (one_row "Atlantis") [] [] start)
     = Some false
  /\ (forall W nominatim t cache approx_map w o,
        geocode_nominatim.main_from (W:=W) nominatim t cache approx_map w = Some o ->
        sleeps (log (o_world o))
        = (sleeps (log w) + List.length (o_missing o))%nat).
Proof.
  split; [vm_compute; reflexivity|]. split; [vm_compute; reflexivity|].
  intros W nominatim t cache approx_map w o H.
  destruct (main_from_inv W nominatim t cache approx_map w o H) as [_ [Eg _]].
  pose proof (geocode_missing_sleeps W nominatim (o_missing o) cache w) as Hs.
  rewrite <- Eg in Hs. exact Hs.
Qed.

(** C7, as stated, fails: a coordinate of the cache goes to the output as it
    is, here with latitude 1000. *)
Lemma cached_coordinate_is_not_validated :
  option_map
    (fun o => map (fun f => (f_id f, f_lat f, f_lon f,
                             generate_geojson.valid_coordb (f_lat f, f_lon f)))
                  (o_features o))
    (main_from deaf (one_row "Texas") [(texas_query, Some (1000, 0))] [] start)
  = Some [(1%Z, 1000, 0, false)].
Proof. vm_compute; reflexivity. Qed.

Lemma features_name_rows_and_keep_validity_witness :
  NoDup (map rowid (rows (one_row "Texas")))
  /\ (forall fs f,
        generate_geojson.main (one_row "Texas") = Some fs -> In f fs ->
        (exists r, In r (rows (one_row "Texas")) /\ rowid r = f_id f
                   /\ forall r', In r' (rows (one_row "Texas")) ->
                                 rowid r' = f_id f -> r' = r)
        /\ generate_geojson.valid_coord (f_lat f, f_lon f)).
Proof.
  assert (Hn : NoDup (map rowid (rows (one_row "Texas"))))
    by (repeat constructor; intros []).
  split; [exact Hn|].
  exact (proj1 (features_name_rows_and_keep_validity unit deaf
                  (one_row "Texas") [] [] start Hn)).
Defined.

End PipelineFacts.

(** ** The cache file *)

Module CacheFacts.
Import Py PyFacts SanitizeFacts PyJson geocode_nominatim.

Lemma small_code (P : N -> Prop) :
  Forall P (map N.of_nat (seq 0 32)) -> forall c, c < 32 -> P c.
Proof.
  intros H c Hc. rewrite Forall_forall in H. apply H.
  rewrite <- (N2Nat.id c). apply in_map. apply in_seq. lia.
Qed.

Lemma hex4_small (c : N) :
  c < 32 -> hex4 48 48 (hex_digit (c / 16)) (hex_digit (c mod 16)) = Some c.
Proof.
  apply (small_code (fun c => hex4 48 48 (hex_digit (c / 16)) (hex_digit (c mod 16)) = Some c)).
  vm_compute. repeat constructor.
Qed.

Ltac eval_tests :=
  repeat match goal with
    | |- context [N.eqb ?a ?b] =>
        let v := eval vm_compute in (N.eqb a b) in
        match v with
        | true => change (N.eqb a b) with true
        | false => change (N.eqb a b) with false
        end
    | |- context [N.ltb ?a ?b] =>
        let v := eval vm_compute in (N.ltb a b) in
        match v with
        | true => change (N.ltb a b) with true
        | false => change (N.ltb a b) with false
        end
    | |- context [unescape ?a] =>
        let v := eval vm_compute in (unescape a) in
        match v with
        | Some _ => change (unescape a) with v
        | None => change (unescape a) with (@None N)
        end
    end;
  cbv iota.

(** Reading back an escaped text gives the text. *)
Lemma parse_chars_escape (s rest : str) :
  parse_chars (flat_map escape_char s ++ quote :: rest) = Some (s, rest).
Proof.
  induction s as [|c s IH]; [reflexivity|].
  cbn [flat_map]. rewrite <- app_assoc. unfold escape_char at 1.
  destruct (c =? quote) eqn:E1;
    [apply N.eqb_eq in E1; subst;
     cbn [app parse_chars]; eval_tests; rewrite IH; reflexivity|].
  destruct (c =? backslash) eqn:E2;
    [apply N.eqb_eq in E2; subst;
     cbn [app parse_chars]; eval_tests; rewrite IH; reflexivity|].
  destruct (c =? 10) eqn:E3;
    [apply N.eqb_eq in E3; subst;
     cbn [app parse_chars]; eval_tests; rewrite IH; reflexivity|].
  destruct (c =? 13) eqn:E4;
    [apply N.eqb_eq in E4; subst;
     cbn [app parse_chars]; eval_tests; rewrite IH; reflexivity|].
  destruct (c =? 9) eqn:E5;
    [apply N.eqb_eq in E5; subst;
     cbn [app parse_chars]; eval_tests; rewrite IH; reflexivity|].
  destruct (c =? 8) eqn:E6;
    [apply N.eqb_eq in E6; subst;
     cbn [app parse_chars]; eval_tests; rewrite IH; reflexivity|].
  destruct (c =? 12) eqn:E7;
    [apply N.eqb_eq in E7; subst;
     cbn [app parse_chars]; eval_tests; rewrite IH; reflexivity|].
  destruct (c <? 32) eqn:E8.
  - apply N.ltb_lt in E8.
    cbn [app parse_chars]. eval_tests.
    rewrite (hex4_small c E8), IH. reflexivity.
  - cbn [app parse_chars]. rewrite E1, E2, E8, IH. reflexivity.
Qed.

Lemma parse_encoded (s rest : str) :
  parse_chars (skipn 1 (encode_str s ++ rest)) = Some (s, rest).
Proof.
  unfold encode_str. cbn [app skipn]. rewrite <- app_assoc.
  apply parse_chars_escape.
Qed.

Lemma take_while_token (p : N -> bool) (tok rest : str) :
  all p tok ->
  match rest with [] => True | c :: _ => p c = false end ->
  take_while p (tok ++ rest) = tok /\ drop_while p (tok ++ rest) = rest.
Proof.
  intros Ht Hr. induction Ht as [|c tok Hc _ [IH1 IH2]]; cbn [app].
  - destruct rest as [|c rest]; [split; reflexivity|].
    cbn. rewrite Hr. split; reflexivity.
  - cbn [take_while drop_while]. rewrite Hc, IH1, IH2. split; reflexivity.
Qed.

Lemma skip_ws_indent (level : nat) (s : str) :
  skip_ws (newline_indent level ++ s) = skip_ws s.
Proof.
  unfold newline_indent, skip_ws. cbn [app drop_while].
  replace (json_ws 10) with true by reflexivity.
  induction (2 * level)%nat as [|n IH]; [reflexivity|].
  cbn [repeat app drop_while]. replace (json_ws 32) with true by reflexivity.
  exact IH.
Qed.

Lemma skip_ws_stop (c : N) (s : str) :
  json_ws c = false -> skip_ws (c :: s) = c :: s.
Proof. intros H. unfold skip_ws. cbn. rewrite H. reflexivity. Qed.

Lemma skip_ws_encoded (k X : str) :
  skip_ws (encode_str k ++ X) = encode_str k ++ X.
Proof. apply skip_ws_stop. reflexivity. Qed.

Lemma num_char_not_ws (c : N) : is_num_char c = true -> json_ws c = false.
Proof.
  unfold is_num_char, json_ws. intros H. bool_arith.
Qed.

Section Floats.
Variable float_repr : Q -> str.
Variable float_of_str : str -> option Q.
Variable is_float : Q -> Prop.

(** What is asked of the reading and writing of numbers: a float is written
    as a number token and read back as itself. *)
Hypothesis repr_reads_back :
  forall x, is_float x -> float_of_str (float_repr x) = Some x.
Hypothesis repr_is_token :
  forall x, is_float x -> float_repr x <> [] /\ all is_num_char (float_repr x).

Local Abbreviation pv := (parse_value float_of_str).
Local Abbreviation pm := (parse_members float_of_str).
Local Abbreviation dumps_at := (PyJson.dumps_at float_repr).

Lemma value_null (f : nat) (rest : str) :
  pv (S f) (lit "null" ++ rest) = Some (JNull, rest).
Proof. reflexivity. Qed.

Lemma num_char_tests (c : N) :
  is_num_char c = true ->
  (110 =? c) = false /\ (c =? quote) = false /\ (c =? 123) = false.
Proof.
  unfold is_num_char, quote. intros H.
  repeat split; bool_arith.
Qed.

Lemma value_num (f : nat) (x : Q) (rest : str) :
  is_float x ->
  match rest with [] => True | c :: _ => is_num_char c = false end ->
  pv (S f) (float_repr x ++ rest) = Some (JNum x, rest).
Proof.
  intros Hx Hr. destruct (repr_is_token x Hx) as [Hne Hall].
  pose proof (repr_reads_back x Hx) as Hrt.
  destruct (take_while_token is_num_char (float_repr x) rest Hall Hr) as [Et Ed].
  destruct (float_repr x) as [|c t] eqn:E; [contradiction|].
  inversion Hall as [|? ? Hc _]; subst.
  destruct (num_char_tests c Hc) as [T1 [T2 T3]].
  cbn [app parse_value] in *.
  change (prefixb (lit "null") (c :: t ++ rest))
    with ((110 =? c) && prefixb (lit "ull") (t ++ rest)).
  rewrite T1, T2, T3, Hc. cbn [andb].
  rewrite Et, Ed, Hrt. reflexivity.
Qed.

Lemma member_step (f : nat) (k vtxt : str) (v : json) (r3 : str) :
  pv f (vtxt ++ r3) = Some (v, r3) ->
  match vtxt with c :: _ => json_ws c = false | [] => False end ->
  pm (S f) (encode_str k ++ lit ": " ++ vtxt ++ r3)
  = match skip_ws r3 with
    | [] => None
    | d :: r4 =>
        if d =? 125 then Some ([(k, v)], r4)
        else if d =? 44 then
          match pm f (skip_ws r4) with
          | Some (ms, r5) => Some ((k, v) :: ms, r5)
          | None => None
          end
        else None
    end.
Proof.
  intros Hv Hs. unfold encode_str.
  change (([quote] ++ flat_map escape_char k ++ [quote]) ++ lit ": " ++ vtxt ++ r3)
    with (quote :: (flat_map escape_char k ++ [quote]) ++ 58 :: 32 :: vtxt ++ r3).
  rewrite <- app_assoc. cbn [app parse_members].
  replace (quote =? quote) with true by reflexivity.
  rewrite parse_chars_escape.
  rewrite (skip_ws_stop 58) by reflexivity.
  replace (58 =? 58) with true by reflexivity.
  assert (skip_ws (32 :: vtxt ++ r3) = vtxt ++ r3) as ->.
  { unfold skip_ws. cbn [drop_while]. replace (json_ws 32) with true by reflexivity.
    destruct vtxt as [|c t]; [contradiction|]. cbn [app drop_while].
    rewrite Hs. reflexivity. }
  rewrite Hv. reflexivity.
Qed.

Local Abbreviation floats_ok := (geocode_nominatim.floats_ok is_float).

(** One cache entry is read back from what was written for it. *)
Lemma value_entry (f : nat) (level : nat) (v : option coord) (rest : str) :
  floats_ok v ->
  match rest with [] => True | c :: _ => is_num_char c = false end ->
  pv (S (S (S (S f)))) (dumps_at level (json_of_entry v) ++ rest)
  = Some (json_of_entry v, rest).
Proof.
  intros Hv Hr. destruct v as [[lat lon]|]; [|apply value_null].
  destruct Hv as [Hlat Hlon]. cbn [fst snd] in *.
  unfold json_of_entry. cbn [fst snd PyJson.dumps_at flat_map].
  set (r3' := newline_indent level ++ 125 :: rest).
  set (r3 := 44 :: newline_indent (S level)
             ++ encode_str (lit "lon") ++ lit ": " ++ float_repr lon ++ r3').
  assert (Etxt :
    (lit "{" ++ newline_indent (S level) ++ encode_str (lit "lat") ++ lit ": "
     ++ float_repr lat
     ++ ((lit "," ++ newline_indent (S level) ++ encode_str (lit "lon")
          ++ lit ": " ++ float_repr lon) ++ [])
     ++ newline_indent level ++ lit "}") ++ rest
    = 123 :: newline_indent (S level)
      ++ encode_str (lit "lat") ++ lit ": " ++ float_repr lat ++ r3).
  { unfold r3, r3'. rewrite app_nil_r.
    repeat rewrite <- app_assoc. reflexivity. }
  rewrite Etxt. clear Etxt.
  cbn [parse_value].
  change (prefixb (lit "null") (123 :: ?x)) with false.
  replace (123 =? quote) with false by reflexivity.
  replace (123 =? 123) with true by reflexivity.
  cbv iota.
  rewrite skip_ws_indent.
  assert (Es : forall k X, skip_ws (encode_str k ++ X) = encode_str k ++ X)
    by (intros k X; apply skip_ws_stop; reflexivity).
  rewrite Es.
  assert (Eh : forall k X, exists Y, encode_str k ++ X = quote :: Y)
    by (intros k X; eexists; reflexivity).
  destruct (Eh (lit "lat") (lit ": " ++ float_repr lat ++ r3)) as [Y EY].
  rewrite EY.
  replace (quote =? 125) with false by reflexivity. cbv iota.
  rewrite <- EY.
  rewrite (member_step (S (S f)) (lit "lat") (float_repr lat) (JNum lat) r3).
  - unfold r3 at 1. rewrite (skip_ws_stop 44) by reflexivity.
    replace (44 =? 125) with false by reflexivity.
    replace (44 =? 44) with true by reflexivity. cbv iota.
    rewrite skip_ws_indent, Es.
    rewrite (member_step (S f) (lit "lon") (float_repr lon) (JNum lon) r3').
    + unfold r3'. rewrite skip_ws_indent.
      rewrite (skip_ws_stop 125) by reflexivity.
      replace (125 =? 125) with true by reflexivity. reflexivity.
    + apply value_num; [exact Hlon | reflexivity].
    + destruct (repr_is_token lon Hlon) as [Hne Hall].
      destruct (float_repr lon); [contradiction|].
      inversion Hall; subst. apply num_char_not_ws. assumption.
  - apply value_num; [exact Hlat | reflexivity].
  - destruct (repr_is_token lat Hlat) as [Hne Hall].
    destruct (float_repr lat); [contradiction|].
    inversion Hall; subst. apply num_char_not_ws. assumption.
Qed.

Local Abbreviation conv :=
  (fun kv : str * option coord => (fst kv, json_of_entry (snd kv))).
Local Abbreviation item :=
  (fun kv : str * json =>
     lit "," ++ newline_indent 1 ++ encode_str (fst kv) ++ lit ": "
     ++ dumps_at 1 (snd kv)).

Lemma entry_starts (level : nat) (v : option coord) (X : str) :
  exists c Y, dumps_at level (json_of_entry v) ++ X = c :: Y
              /\ json_ws c = false.
Proof.
  destruct v as [[lat lon]|].
  - exists 123. eexists. split; reflexivity.
  - exists 110. eexists. split; reflexivity.
Qed.

(** The members of the cache object are read back from what was written
    for them. *)
Lemma members_ok (es : cache_t) (k : str) (v : option coord) (f : nat)
  (rest : str) :
  (List.length es + 4 <= f)%nat ->
  floats_ok v -> Forall (fun kv => floats_ok (snd kv)) es ->
  pm (S f)
     (encode_str k ++ lit ": " ++ dumps_at 1 (json_of_entry v)
      ++ flat_map item (map conv es) ++ newline_indent 0 ++ 125 :: rest)
  = Some (map conv ((k, v) :: es), rest).
Proof.
  revert k v f. induction es as [|[k2 v2] es IH]; intros k v f Hf Hv Hes.
  - destruct f as [|[|[|[|f]]]]; cbn [List.length] in Hf; try lia.
    cbn [map flat_map app].
    rewrite (member_step (S (S (S (S f)))) k (dumps_at 1 (json_of_entry v))
               (json_of_entry v) (newline_indent 0 ++ 125 :: rest)).
    + rewrite skip_ws_indent, (skip_ws_stop 125) by reflexivity.
      reflexivity.
    + apply value_entry; [exact Hv | reflexivity].
    + destruct v as [[lat lon]|]; reflexivity.
  - destruct f as [|[|[|[|f]]]]; cbn [List.length] in Hf; try lia.
    inversion Hes as [|? ? Hv2 Hes']; subst. cbn [snd] in Hv2.
    cbn [map flat_map fst snd].
    set (tail := flat_map item (map conv es) ++ newline_indent 0 ++ 125 :: rest).
    replace (((lit "," ++ newline_indent 1 ++ encode_str k2 ++ lit ": "
               ++ dumps_at 1 (json_of_entry v2))
              ++ flat_map item (map conv es))
             ++ newline_indent 0 ++ 125 :: rest)
      with (44 :: newline_indent 1 ++ encode_str k2 ++ lit ": "
            ++ dumps_at 1 (json_of_entry v2) ++ tail)
      by (unfold tail; repeat rewrite <- app_assoc; reflexivity).
    rewrite (member_step (S (S (S (S f)))) k (dumps_at 1 (json_of_entry v))
               (json_of_entry v)).
    + rewrite (skip_ws_stop 44) by reflexivity.
      replace (44 =? 125) with false by reflexivity.
      replace (44 =? 44) with true by reflexivity. cbv iota.
      rewrite skip_ws_indent, skip_ws_encoded.
      unfold tail.
      rewrite (IH k2 v2 (S (S (S f)))); [reflexivity | lia | exact Hv2 | exact Hes'].
    + apply value_entry; [exact Hv | reflexivity].
    + destruct v as [[lat lon]|]; reflexivity.
Qed.

Lemma cache_value_ok (cache : cache_t) (f : nat) (rest : str) :
  cache <> [] ->
  (List.length cache + 4 <= f)%nat ->
  Forall (fun kv => floats_ok (snd kv)) cache ->
  pv (S f) (PyJson.dumps float_repr (json_of_cache cache) ++ rest)
  = Some (JObj (dict_of str_eqb (map conv cache)), rest).
Proof.
  intros Hne Hf Hc. destruct cache as [|[k v] es]; [contradiction|].
  inversion Hc as [|? ? Hv Hes]; subst. cbn [snd] in Hv.
  cbn [List.length] in Hf. destruct f as [|f]; [lia|].
  unfold PyJson.dumps, json_of_cache. cbn [map fst snd PyJson.dumps_at].
  replace ((lit "{" ++ newline_indent 1 ++ encode_str k ++ lit ": "
            ++ dumps_at 1 (json_of_entry v)
            ++ flat_map item (map conv es) ++ newline_indent 0 ++ lit "}")
           ++ rest)
    with (123 :: newline_indent 1 ++ encode_str k ++ lit ": "
          ++ dumps_at 1 (json_of_entry v)
          ++ flat_map item (map conv es) ++ newline_indent 0 ++ 125 :: rest)
    by (repeat rewrite <- app_assoc; reflexivity).
  cbn [parse_value].
  change (prefixb (lit "null") (123 :: ?x)) with false.
  replace (123 =? quote) with false by reflexivity.
  replace (123 =? 123) with true by reflexivity.
  cbv iota.
  rewrite skip_ws_indent, skip_ws_encoded.
  assert (Eh : exists Y, encode_str k ++ lit ": "
                 ++ dumps_at 1 (json_of_entry v)
                 ++ flat_map item (map conv es)
                 ++ newline_indent 0 ++ 125 :: rest = quote :: Y)
    by (eexists; reflexivity).
  destruct Eh as [Y EY]. rewrite EY.
  replace (quote =? 125) with false by reflexivity. cbv iota.
  rewrite <- EY.
  rewrite (members_ok es k v f rest); [reflexivity | lia | exact Hv | exact Hes].
Qed.

End Floats.

Lemma dict_of_fold (l acc : list (str * json)) :
  NoDup (map fst acc ++ map fst l) ->
  fold_left (fun d kv => dict_set str_eqb (fst kv) (snd kv) d) l acc = acc ++ l.
Proof.
  revert acc. induction l as [|[k v] l IH]; intros acc Hn; cbn [fold_left].
  - rewrite app_nil_r. reflexivity.
  - cbn [fst snd map] in *.
    rewrite (DictFacts.set_new str json str_eqb k v acc).
    + rewrite IH.
      * rewrite <- app_assoc. reflexivity.
      * rewrite map_app. cbn [map fst]. rewrite <- app_assoc. exact Hn.
    + apply (DictFacts.get_none_notin str json str_eqb str_eqb_eq).
      apply NoDup_remove_2 in Hn. intros H. apply Hn.
      apply in_or_app; left. exact H.
Qed.

Lemma dict_of_nodup (l : list (str * json)) :
  NoDup (map fst l) -> dict_of str_eqb l = l.
Proof.
  intros H. unfold dict_of, dict_update.
  rewrite (dict_of_fold l []); [reflexivity | exact H].
Qed.

Lemma entries_back (cache : cache_t) :
  entries_of_json (map (fun kv => (fst kv, json_of_entry (snd kv))) cache)
  = Some cache.
Proof.
  induction cache as [|[k v] cache IH]; [reflexivity|].
  cbn [map entries_of_json fst snd]. rewrite IH.
  destruct v as [[lat lon]|]; reflexivity.
Qed.

Lemma flat_map_length_le {A} (f : A -> str) (l : list A) :
  (forall x, f x <> []) -> (List.length l <= List.length (flat_map f l))%nat.
Proof.
  intros Hf. induction l as [|x l IH]; [reflexivity|].
  cbn [flat_map List.length]. rewrite length_app.
  specialize (Hf x). destruct (f x); [contradiction|]. cbn [List.length]. lia.
Qed.

Lemma dumps_length (float_repr : Q -> str) (k : str) (v : option coord)
  (es : cache_t) :
  (List.length es + 5
   <= List.length (PyJson.dumps float_repr (json_of_cache ((k, v) :: es))))%nat.
Proof.
  unfold PyJson.dumps, json_of_cache. cbn [map fst snd PyJson.dumps_at].
  rewrite !length_app.
  pose proof (flat_map_length_le
                (fun kv : str * json =>
                   lit "," ++ newline_indent 1 ++ encode_str (fst kv) ++ lit ": "
                   ++ PyJson.dumps_at float_repr 1 (snd kv))
                (map (fun kv : str * option coord =>
                        (fst kv, json_of_entry (snd kv))) es)) as H.
  rewrite length_map in H.
  assert (Hl : forall x : str * json,
             lit "," ++ newline_indent 1 ++ encode_str (fst x) ++ lit ": "
             ++ PyJson.dumps_at float_repr 1 (snd x) <> [])
    by (intros x; discriminate).
  specialize (H Hl).
  change (List.length (lit "{")) with 1%nat.
  change (List.length (newline_indent 1)) with 3%nat.
  change (List.length (lit ": ")) with 2%nat.
  change (List.length (newline_indent 0)) with 1%nat.
  change (List.length (lit "}")) with 1%nat.
  lia.
Qed.

(** Loading the text written for a cache gives the cache back. *)
Lemma load_dumped_cache
  (float_repr : Q -> str) (float_of_str : str -> option Q)
  (is_float : Q -> Prop) (cache : cache_t) :
  (forall x, is_float x -> float_of_str (float_repr x) = Some x) ->
  (forall x, is_float x ->
             float_repr x <> [] /\ all is_num_char (float_repr x)) ->
  NoDup (dict_keys cache) ->
  Forall (fun kv => floats_ok is_float (snd kv)) cache ->
  load_cache float_of_str
    (Some (PyJson.dumps float_repr (json_of_cache cache))) = Some cache.
Proof.
  intros Hrt Htok Hn Hf. unfold load_cache, loads.
  destruct cache as [|[k v] es]; [reflexivity|].
  set (text := PyJson.dumps float_repr (json_of_cache ((k, v) :: es))).
  assert (Es : skip_ws text = text) by (apply skip_ws_stop; reflexivity).
  rewrite Es. rewrite <- (app_nil_r text) at 2.
  unfold text.
  rewrite (cache_value_ok float_repr float_of_str is_float Hrt Htok
             ((k, v) :: es) _ []).
  - cbn [skip_ws drop_while falsy cache_of_json].
    rewrite dict_of_nodup.
    + apply entries_back.
    + rewrite map_map. cbn [fst]. exact Hn.
  - discriminate.
  - pose proof (dumps_length float_repr k v es) as H.
    cbn [List.length]. lia.
  - exact Hf.
Qed.

(** *** The text written can be encoded *)

Lemma encodable_app (a b : str) :
  encodable (a ++ b) = encodable a && encodable b.
Proof. apply forallb_app. Qed.

Lemma scalar_small (c : N) : c < 55296 -> scalar c = true.
Proof.
  intros H. unfold scalar. apply N.ltb_lt in H. rewrite H. reflexivity.
Qed.

Lemma hex_digit_scalar (n : N) : n < 16 -> scalar (hex_digit n) = true.
Proof.
  intros H. apply scalar_small. unfold hex_digit.
  destruct (n <? 10); lia.
Qed.

Lemma escape_char_encodable (c : N) :
  scalar c = true -> encodable (escape_char c) = true.
Proof.
  intros Hc. unfold escape_char.
  repeat match goal with
         | |- context [if ?b then _ else _] =>
             destruct b eqn:?; [try reflexivity|]
         end.
  - cbn [encodable forallb].
    rewrite !hex_digit_scalar; [reflexivity | |].
    + apply N.mod_lt. discriminate.
    + apply N.Div0.div_lt_upper_bound.
      match goal with H : (c <? 32) = true |- _ => apply N.ltb_lt in H end.
      lia.
  - cbn [encodable forallb]. rewrite Hc. reflexivity.
Qed.

Lemma encode_str_encodable (s : str) :
  encodable s = true -> encodable (encode_str s) = true.
Proof.
  intros H. unfold encode_str. rewrite !encodable_app.
  replace (encodable [quote]) with true by reflexivity.
  rewrite andb_true_r. cbn [andb].
  induction s as [|c s IH]; [reflexivity|].
  cbn [encodable forallb flat_map] in *. apply andb_true_iff in H as [Hc Hs].
  fold (encodable (escape_char c ++ flat_map escape_char s)).
  rewrite encodable_app, (escape_char_encodable c Hc). exact (IH Hs).
Qed.

Lemma newline_indent_encodable (level : nat) :
  encodable (newline_indent level) = true.
Proof.
  unfold newline_indent. cbn [encodable forallb].
  replace (scalar 10) with true by reflexivity. cbn [andb].
  induction (2 * level)%nat as [|n IH]; [reflexivity | exact IH].
Qed.

Lemma num_chars_encodable (s : str) :
  all is_num_char s -> encodable s = true.
Proof.
  induction 1 as [|c s Hc _ IH]; [reflexivity|].
  cbn [encodable forallb]. fold (encodable s). rewrite IH, andb_true_r.
  apply scalar_small. unfold is_num_char, is_digit, between in Hc. bool_arith.
Qed.

Section Encodable.
Variable float_repr : Q -> str.
Variable is_float : Q -> Prop.
Hypothesis repr_token : forall x, is_float x -> all is_num_char (float_repr x).

Lemma entry_encodable (level : nat) (v : option coord) :
  floats_ok is_float v ->
  encodable (PyJson.dumps_at float_repr level (json_of_entry v)) = true.
Proof.
  destruct v as [[lat lon]|]; [|reflexivity].
  intros [Hlat Hlon]. cbn [fst snd] in Hlat, Hlon.
  cbn [json_of_entry PyJson.dumps_at fst snd flat_map].
  rewrite !encodable_app, !newline_indent_encodable.
  rewrite (num_chars_encodable _ (repr_token lat Hlat)).
  rewrite (num_chars_encodable _ (repr_token lon Hlon)).
  reflexivity.
Qed.

Lemma dumps_encodable (cache : cache_t) :
  Forall (fun kv => encodable (fst kv) = true) cache ->
  Forall (fun kv => floats_ok is_float (snd kv)) cache ->
  encodable (PyJson.dumps float_repr (json_of_cache cache)) = true.
Proof.
  intros Hk Hf. unfold PyJson.dumps, json_of_cache.
  destruct cache as [|[k v] es]; [reflexivity|].
  inversion Hk as [|? ? Hk1 Hks]; inversion Hf as [|? ? Hf1 Hfs]; subst.
  cbn [fst snd] in Hk1, Hf1.
  cbn [map PyJson.dumps_at fst snd].
  rewrite !encodable_app, !newline_indent_encodable.
  rewrite (encode_str_encodable k Hk1), (entry_encodable 1 v Hf1).
  replace (encodable (lit "{")) with true by reflexivity.
  replace (encodable (lit ": ")) with true by reflexivity.
  replace (encodable (lit "}")) with true by reflexivity.
  cbn [andb]. rewrite andb_true_r.
  clear Hk Hf Hk1 Hf1.
  induction es as [|[k2 v2] es IH]; [reflexivity|].
  inversion Hks as [|? ? Hk2 Hks']; inversion Hfs as [|? ? Hf2 Hfs']; subst.
  cbn [fst snd] in Hk2, Hf2.
  cbn [map flat_map fst snd].
  rewrite !encodable_app, !newline_indent_encodable.
  rewrite (encode_str_encodable k2 Hk2), (entry_encodable 1 v2 Hf2).
  replace (encodable (lit ",")) with true by reflexivity.
  replace (encodable (lit ": ")) with true by reflexivity.
  cbn [andb]. exact (IH Hks' Hfs').
Qed.
End Encodable.

(** C8.  Writing a cache to its file and loading the file gives the cache
    back, with the same keys in the same order and the same values: for every
    cache whose keys are distinct, as those of a dictionary are, and are
    texts that UTF-8 can encode, and whose coordinates are floats, given that
    a float is written as a number token and read back as itself. *)
Theorem cache_file_round_trip
  (float_repr : Q -> str) (float_of_str : str -> option Q)
  (is_float : Q -> Prop) (cache : cache_t) (file : cache_file) :
  (forall x, is_float x -> float_of_str (float_repr x) = Some x) ->
  (forall x, is_float x ->
             float_repr x <> [] /\ all is_num_char (float_repr x)) ->
  NoDup (dict_keys cache) ->
  Forall (fun kv => encodable (fst kv) = true) cache ->
  Forall (fun kv => floats_ok is_float (snd kv)) cache ->
  exists file',
    save_cache float_repr cache file = Some file'
    /\ load_cache float_of_str file' = Some cache.
Proof.
  intros Hrt Htok Hn Hk Hf.
  exists (Some (PyJson.dumps float_repr (json_of_cache cache))).
  split.
  - unfold save_cache.
    rewrite (dumps_encodable float_repr is_float
               (fun x Hx => proj2 (Htok x Hx)) cache Hk Hf).
    reflexivity.
  - apply (load_dumped_cache float_repr float_of_str is_float); assumption.
Qed.

Lemma cache_file_round_trip_witness :
  exists file',
    save_cache Samples.toy_repr
      [(Samples.texas_query, Some (1.5, -2)%Q); (Samples.atlantis_query, None)]
      None = Some file'
    /\ load_cache Samples.toy_float file'
       = Some [(Samples.texas_query, Some (1.5, -2)%Q);
               (Samples.atlantis_query, None)].
Proof.
  apply (cache_file_round_trip Samples.toy_repr Samples.toy_float
           Samples.toy_is_float).
  - intros x [-> | ->]; reflexivity.
  - intros x [-> | ->]; (split; [discriminate | repeat constructor]).
  - constructor; [intros [H | []]; discriminate H|].
    constructor; [intros [] | constructor].
  - repeat constructor.
  - constructor; [cbn; split; [left | right]; reflexivity|].
    constructor; [exact I | constructor].
Defined.

End CacheFacts.

(** ** Normalisation *)

Module NormalizeFacts.
Import Py PyFacts SanitizeFacts generate_geojson geocode_nominatim.


Lemma sub_plus_go_last (cls : N -> bool) (rep : str) (b : bool) (s : str) (c : N) :
  cls c = false ->
  sub_plus_go cls rep b (s ++ [c]) = sub_plus_go cls rep b s ++ [c].
Proof.
  intros H. revert b. induction s as [|d s IH]; intros b; cbn [app sub_plus_go].
  - rewrite H. reflexivity.
  - destruct (cls d); rewrite IH; [rewrite app_assoc|]; reflexivity.
Qed.



Lemma collapse_single (s : str) (b : bool) :
  single_spaced (sub_plus_go is_space (lit " ") b s) = true
  /\ (b = true ->
      match sub_plus_go is_space (lit " ") b s with
      | d :: _ => is_space d = false
      | [] => True
      end).
Proof.
  revert b. induction s as [|c s IH]; intros b;
    [split; [reflexivity | intros _; exact I]|].
  cbn [sub_plus_go]. destruct (is_space c) eqn:Ec.
  - destruct (IH true) as [H1 H2]. specialize (H2 eq_refl).
    destruct b; cbn [app]; [split; [exact H1 | intros _; exact H2]|].
    split; [|discriminate].
    change (lit " " ++ ?x) with (32 :: x). cbn [single_spaced].
    rewrite H1. replace (is_space 32) with true by reflexivity.
    cbn [negb orb]. replace (32 =? 32) with true by reflexivity.
    destruct (sub_plus_go is_space (lit " ") true s); [reflexivity|].
    rewrite H2. reflexivity.
  - destruct (IH false) as [H1 _]. split; [|intros _; exact Ec].
    cbn [single_spaced]. rewrite Ec, H1. reflexivity.
Qed.

Lemma drop_while_head (p : N -> bool) (s : str) :
  match drop_while p s with c :: _ => p c = false | [] => True end.
Proof.
  induction s as [|c s IH]; cbn [drop_while]; [exact I|].
  destruct (p c) eqn:E; [exact IH | exact E].
Qed.

Lemma strip_edges (p : N -> bool) (s : str) : edges_clean p (strip_by p s).
Proof.
  unfold edges_clean, strip_by, rstrip_by, lstrip_by. split.
  - pose proof (drop_while_head p s) as H.
    destruct (drop_while p s) as [|c t]; [exact I|].
    pose proof (drop_while_split p (rev (c :: t))) as [u [E Hu]].
    apply (f_equal (@rev N)) in E. rewrite rev_involutive, rev_app_distr in E.
    destruct (rev (drop_while p (rev (c :: t)))) as [|d r] eqn:Er; [exact I|].
    cbn [app] in E. inversion E; subst. exact H.
  - rewrite rev_involutive. apply drop_while_head.
Qed.

Lemma strip_fix (p : N -> bool) (s : str) : edges_clean p s -> strip_by p s = s.
Proof.
  intros [H1 H2].
  pose proof (strip_by_padded p [] s [] (Forall_nil _) (Forall_nil _) H1 H2) as E.
  cbn [app] in E. rewrite app_nil_r in E. exact E.
Qed.

Lemma collapse_edges (s : str) :
  edges_clean is_space s -> edges_clean is_space (sub_plus is_space (lit " ") s).
Proof.
  unfold edges_clean, sub_plus. intros [H1 H2]. split.
  - destruct s as [|c s]; [exact I|]. cbn [sub_plus_go]. rewrite H1. exact H1.
  - destruct (rev s) as [|c r] eqn:E.
    + apply (f_equal (@rev N)) in E. rewrite rev_involutive in E. subst.
      exact I.
    + apply (f_equal (@rev N)) in E. rewrite rev_involutive in E. subst s.
      cbn [rev]. rewrite (sub_plus_go_last is_space (lit " ") false (rev r) c H2).
      rewrite rev_app_distr. exact H2.
Qed.

Lemma replace_absent (c : N) (new s : str) :
  Forall (fun x => (c =? x) = false) s -> replace [c] new s = s.
Proof.
  rewrite replace_char.
  induction 1 as [|x s Hx _ IH]; [reflexivity|].
  cbn [flat_map]. rewrite Hx, IH. reflexivity.
Qed.

Lemma single_spaced_no (c : N) (s : str) :
  is_space c = true -> c <> 32 -> single_spaced s = true ->
  Forall (fun x => (c =? x) = false) s.
Proof.
  intros Hc Hn. induction s as [|x s IH]; [constructor|].
  cbn [single_spaced]. rewrite andb_true_iff. intros [Hx Hs].
  constructor; [|exact (IH Hs)].
  apply N.eqb_neq. intros <-. rewrite Hc in Hx. cbn [negb orb] in Hx.
  apply andb_true_iff in Hx as [Hx _]. apply N.eqb_eq in Hx. contradiction.
Qed.


(** *** The last three steps as one pass *)









(** *** The isolation of [and] under the single pass *)




(** *** The characters of a normalised text *)








Lemma settled_32 : settled 32 = true.
Proof. reflexivity. Qed.







(** *** The scan without looking ahead *)









(** A better state goes at least as far. *)
Lemma scan_step_mono (q q' r : scan_state) (c : N) :
  scan_le q q' = true -> scan_step q c = Some r ->
  exists r', scan_step q' c = Some r' /\ scan_le r r' = true.
Proof.
  unfold scan_step. intros Hle Hs.
  destruct (is_word c).
  - destruct q, q'; try discriminate Hle; inversion Hs; subst r; clear Hs;
      eexists; (split; [reflexivity|]);
      repeat match goal with |- context [if ?b then _ else _] => destruct b end;
      exact Hle || reflexivity.
  - destruct q, q'; try discriminate Hle;
      try (inversion Hs; subst r; eexists; split; [reflexivity|];
           destruct (delim c); reflexivity).
    cbn [scan_le] in Hle. destruct lok; [|discriminate Hs].
    cbn [implb] in Hle. subst lok0. cbn [andb] in *.
    destruct (delim c); [|discriminate Hs].
    inversion Hs. eexists. split; reflexivity.
Qed.

Lemma scan_final_mono (q q' : scan_state) :
  scan_le q q' = true -> scan_final q = true -> scan_final q' = true.
Proof.
  destruct q, q'; try discriminate; try reflexivity.
  cbn. intros H ->. exact H.
Qed.

Lemma scan_run_mono (s : str) :
  forall q q', scan_le q q' = true -> scan_run q s = true -> scan_run q' s = true.
Proof.
  induction s as [|c s IH]; intros q q' Hle H.
  - exact (scan_final_mono q q' Hle H).
  - cbn [scan_run] in *. destruct (scan_step q c) as [r|] eqn:E; [|discriminate].
    destruct (scan_step_mono q q' r c Hle E) as [r' [E' Hr]].
    rewrite E'. exact (IH r r' Hr H).
Qed.












(** *** Texts without underscore *)





(** *** The converse: an [and] that is not delimited gets a blank *)






End NormalizeFacts.

(** ** More on the resolver of [generate_geojson.py] *)

Module ResolverMore.
Import Py PyFacts ResolverFacts RetryFacts NormalizeFacts generate_geojson Shadow.

(** *** Substrings *)

Lemma contains_split (p s : str) :
  contains p s = true -> exists a b, s = a ++ p ++ b.
Proof.
  induction s as [|c s IH]; cbn [contains]; intros H.
  - rewrite orb_false_r in H. destruct (prefixb_split _ _ H) as [t E].
    exists [], t. exact E.
  - apply orb_true_iff in H as [H | H].
    + destruct (prefixb_split _ _ H) as [t E]. exists [], t. exact E.
    + destruct (IH H) as [a [b E]]. exists (c :: a), b. rewrite E. reflexivity.
Qed.

Lemma contains_trans (k' k s : str) :
  contains k' k = true -> contains k s = true -> contains k' s = true.
Proof.
  intros H1 H2.
  destruct (contains_split _ _ H1) as [a [b E1]].
  destruct (contains_split _ _ H2) as [c [d E2]].
  subst k s.
  replace (c ++ (a ++ k' ++ b) ++ d) with ((c ++ a) ++ k' ++ (b ++ d))
    by (rewrite <- !app_assoc; reflexivity).
  apply contains_app.
Qed.

Lemma contains_length (k s : str) :
  contains k s = true -> (List.length k <= List.length s)%nat.
Proof.
  intros H. destruct (contains_split _ _ H) as [a [b ->]].
  rewrite !length_app. lia.
Qed.

(** An entry whose key contains the key of an earlier entry never
    answers. *)
Lemma shadowed_sound {V} (bad : V -> bool) (s : str) (table : sdict V) :
  forall seen v,
    shadowed bad seen table = true ->
    Forall (fun k' => contains k' s = false) seen ->
    first_contained table s = Some v -> bad v = false.
Proof.
  induction table as [|[k x] table IH]; intros seen v Hs Hseen H;
    [discriminate H|].
  cbn [shadowed first_contained] in *.
  apply andb_true_iff in Hs as [Hk Hs].
  destruct (contains k s) eqn:Ek.
  - inversion H; subst x. clear H.
    apply orb_true_iff in Hk as [Hk | Hk]; [apply negb_true_iff; exact Hk|].
    exfalso. apply existsb_exists in Hk as [k' [Hin Hc]].
    rewrite Forall_forall in Hseen. specialize (Hseen k' Hin).
    rewrite (contains_trans k' k s Hc Ek) in Hseen. discriminate.
  - apply (IH (k :: seen) v Hs); [|exact H].
    constructor; assumption.
Qed.

(** X2.  Four coordinates of the tables are never the answer: the key of
    each of their entries ([west virginia];
    [southern united states,midwestern united states];
    [southeastern united states]; [midwestandnortheast] and
    [midwest and northeast]) contains a key met before it in the same
    table ([virginia], [southern united states], [eastern united states],
    [northeast]). *)
Theorem shadowed_entries_never_answer (s : str) (c : coord) :
  find_location_coords s = Some c ->
  existsb (same_coord c)
    [ (38.491226, -80.954453); (36.0, -88.0); (32.0, -82.0); (41.0, -89.0) ]%Q
  = false.
Proof.
  set (dead := [ (38.491226, -80.954453); (36.0, -88.0); (32.0, -82.0);
                 (41.0, -89.0) ]%Q).
  unfold find_location_coords. destruct (falsy s); [discriminate|].
  unfold cascade. set (n := normalize s).
  destruct (first_contained STATE_COORDS n) as [c1|] eqn:E1.
  { intros H; inversion H; subst c1.
    apply (shadowed_sound (fun v => existsb (same_coord v) dead) n
             STATE_COORDS [] c); [vm_compute; reflexivity | constructor | exact E1]. }
  rewrite token_loop_abbr_map_dead.
  destruct (first_contained expanded_regions n) as [r|] eqn:E2.
  { intros ->.
    apply (shadowed_sound
             (fun v => match v with
                       | Some x => existsb (same_coord x) dead
                       | None => false
                       end) n expanded_regions [] (Some c));
      [vm_compute; reflexivity | constructor | exact E2]. }
  destruct (first_contained extra_keywords n) as [c3|] eqn:E3.
  { intros H; inversion H; subst c3.
    apply (shadowed_sound (fun v => existsb (same_coord v) dead) n
             extra_keywords [] c); [vm_compute; reflexivity | constructor | exact E3]. }
  intros E4.
  apply (shadowed_sound (fun v => existsb (same_coord v) dead) n
           city_map [] c); [vm_compute; reflexivity | constructor | exact E4].
Qed.

Lemma shadowed_entries_never_answer_witness :
  find_location_coords (lit "Charleston, West Virginia")
  = Some (37.769337, -78.169968)%Q
  /\ existsb (same_coord (37.769337, -78.169968)%Q)
       [ (38.491226, -80.954453); (36.0, -88.0); (32.0, -82.0); (41.0, -89.0) ]%Q
     = false.
Proof.
  split; [vm_compute; reflexivity|].
  apply (shadowed_entries_never_answer (lit "Charleston, West Virginia")).
  vm_compute; reflexivity.
Defined.

(** A table whose keys are all longer than the text finds nothing. *)
Lemma first_contained_short {V} (table : sdict V) (s : str) (n : nat) :
  forallb (fun kv => (n <=? List.length (fst kv))%nat) table = true ->
  (List.length s < n)%nat ->
  first_contained table s = None.
Proof.
  intros Ht Hs. induction table as [|[k v] table IH]; [reflexivity|].
  cbn [forallb fst first_contained] in *.
  apply andb_true_iff in Ht as [Hk Ht]. apply Nat.leb_le in Hk.
  destruct (contains k s) eqn:E; [|exact (IH Ht)].
  apply contains_length in E. lia.
Qed.

(** X3.  A text whose normalised form has fewer than four characters gets
    no answer, no key of the tables being that short; this is so for every
    text of two Basic Latin letters, the postal codes among them. *)
Theorem short_texts_are_unresolved :
  (forall s, (List.length (normalize s) < 4)%nat ->
             find_location_coords s = None)
  /\ (forall a b, In a letters -> In b letters ->
                  find_location_coords [a; b] = None).
Proof.
  split.
  - intros s Hs. unfold find_location_coords.
    destruct (falsy s); [reflexivity|]. unfold cascade.
    rewrite (first_contained_short STATE_COORDS _ 4) by (reflexivity || exact Hs).
    rewrite token_loop_abbr_map_dead.
    rewrite (first_contained_short expanded_regions _ 4)
      by (reflexivity || exact Hs).
    rewrite (first_contained_short extra_keywords _ 4)
      by (reflexivity || exact Hs).
    apply (first_contained_short city_map _ 4); [reflexivity | exact Hs].
  - assert (H : forallb
                  (fun a => forallb
                     (fun b => match find_location_coords [a; b] with
                               | None => true | Some _ => false end)
                     letters) letters = true)
      by (vm_compute; reflexivity).
    intros a b Ha Hb. rewrite forallb_forall in H.
    specialize (H a Ha). rewrite forallb_forall in H. specialize (H b Hb).
    destruct (find_location_coords [a; b]); [discriminate H | reflexivity].
Qed.

End ResolverMore.

(** ** More on the pipeline of [geocode_nominatim.py] *)

Module PipelineMore.
Import Py PyFacts Db Geo geocode_nominatim RetryFacts PipelineFacts NormalizeFacts.
Import approx_file.

(** X4.  A normalised query has no white space at either end and white
    space only as single blanks between other characters; the last step of
    [normalize_query], the replacement of line breaks, never finds any. *)
Theorem normalize_query_shape (s : str) :
  edges_clean is_space (normalize_query s)
  /\ single_spaced (normalize_query s) = true
  /\ normalize_query s = sub_plus is_space (lit " ") (strip s).
Proof.
  assert (E : normalize_query s = sub_plus is_space (lit " ") (strip s)).
  { destruct s as [|c0 s0]; [reflexivity|].
    set (x := c0 :: s0).
    change (normalize_query x)
      with (replace [10] (lit " ") (sub_plus is_space (lit " ") (strip x))).
    apply replace_absent. apply single_spaced_no; [reflexivity | discriminate|].
    apply (collapse_single (strip x) false). }
  rewrite E. split; [|split; [|reflexivity]].
  - apply collapse_edges. apply strip_edges.
  - apply (collapse_single (strip s) false).
Qed.

Section Run.
Variable W : Type.
Variable nominatim : str -> W -> option coord * W.

Local Abbreviation world := (world W).
Local Abbreviation geocode_missing := (geocode_missing nominatim).
Local Abbreviation main_from := (main_from nominatim).

(** X5.  A non-empty query [q] that the loaded cache holds with a
    coordinate is not among the missing queries, so the lookup with its
    variants is not run for it, and it keeps its coordinate.  The run sends,
    for each missing query in turn, requests for the first variants of this
    query, the query itself to begin with, and nothing else: every request
    is an attempt for a missing query, which is another query than [q], so
    that the text of [q] is requested only where it is a variant of a
    missing query.  A row with the query [q] gets the coordinate of the
    cache, whatever the approximate file and the heuristic resolver have
    for it. *)
Theorem positive_entry_is_used (t : table) (cache : cache_t)
  (approx_map : dict Z coord) (w : world) (o : outcome W) (q : str) (c : coord) :
  main_from t cache approx_map w = Some o ->
  cget q cache = Some (Some c) ->
  q <> [] ->
  (In q (o_missing o) -> False)
  /\ (exists pres,
        Forall2 (fun m pre => m <> q
                              /\ exists rest post,
                                   pre = m :: rest /\ variants m = pre ++ post)
          (o_missing o) pres
        /\ log (o_world o)
           = log w ++ flat_map (fun pre => map Request pre ++ [Sleep 1.1]) pres)
  /\ (forall a, In (Request a) (log (o_world o)) ->
         In (Request a) (log w)
         \/ exists m, In m (o_missing o) /\ m <> q /\ In a (variants m))
  /\ ((forall m, In m (o_missing o) -> In q (variants m) -> False) ->
      In (Request q) (log (o_world o)) -> In (Request q) (log w))
  /\ cget q (o_cache o) = Some (Some c)
  /\ (forall rid, dict_get Z.eqb rid (o_queries o) = Some q ->
         feature_coord (o_queries o) (o_cache o) approx_map rid = Some c).
Proof.
  intros H Hq Hne.
  destruct (loaded_entries_are_kept0 W nominatim t cache approx_map w o H)
    as [_ [_ [Hin Hkeep]]].
  destruct (main_from_inv W nominatim t cache approx_map w o H) as [_ [Eg _]].
  assert (Hmem : cmem q cache = true)
    by (unfold cmem, dict_mem; unfold cget in Hq; rewrite Hq; reflexivity).
  assert (Hnot : In q (o_missing o) -> False).
  { intros Hm. apply Hin in Hm. destruct Hm as [_ [_ Hm]]. congruence. }
  assert (Hpos : cget q (o_cache o) = Some (Some c))
    by (rewrite (Hkeep q Hmem); exact Hq).
  assert (Hreq : forall a, In (Request a) (log (o_world o)) ->
            In (Request a) (log w)
            \/ exists m, In m (o_missing o) /\ m <> q /\ In a (variants m)).
  { intros a Ha.
    pose proof (geocode_missing_requests W nominatim (o_missing o) cache w a) as Hr.
    rewrite <- Eg in Hr. cbn [snd] in Hr.
    destruct (Hr Ha) as [Hl | [m [Hm Hv]]]; [left; exact Hl|].
    right. exists m. split; [exact Hm|]. split; [|exact Hv].
    intros ->. exact (Hnot Hm). }
  split; [exact Hnot|]. split; [|split; [exact Hreq|split; [|split; [exact Hpos|]]]].
  - destruct (geocode_missing_trace W nominatim (o_missing o) cache w)
      as [pres [Hf Hl]].
    { apply Forall_forall. intros m Hm. apply Hin in Hm. tauto. }
    exists pres. split; [|rewrite <- Eg in Hl; exact Hl].
    clear Hl. revert Hnot Hf. generalize (o_missing o). intros ms Hnot Hf.
    revert Hnot. induction Hf as [|m pre ms' pres' Hm Hf IH]; intros Hnot;
      constructor.
    + split; [|exact Hm]. intros ->. apply Hnot. left. reflexivity.
    + apply IH. intros Hq'. apply Hnot. right. exact Hq'.
  - intros Hno Ha. destruct (Hreq q Ha) as [Hl | [m [Hm [_ Hv]]]];
      [exact Hl | destruct (Hno m Hm Hv)].
  - intros rid Hrid. unfold feature_coord. rewrite Hrid.
    destruct q as [|x q]; [contradiction Hne; reflexivity|].
    cbn [falsy negb]. rewrite Hpos. reflexivity.
Qed.

(** *** The events of a run *)

(** X6.  The events of a run are, for each missing query in turn, the
    requests for the first variants of the query, the query itself to begin
    with, and then one sleep of 1.1 s: nothing else is sent, and the only
    sleeps are those between the queries. *)
Theorem run_trace (t : table) (cache : cache_t)
  (approx_map : dict Z coord) (w : world) (o : outcome W) :
  main_from t cache approx_map w = Some o ->
  exists pres,
    Forall2 (fun q pre => exists rest post,
               pre = q :: rest /\ variants q = pre ++ post)
      (o_missing o) pres
    /\ log (o_world o)
       = log w ++ flat_map (fun pre => map Request pre ++ [Sleep 1.1]) pres.
Proof.
  intros H.
  destruct (loaded_entries_are_kept0 W nominatim t cache approx_map w o H)
    as [_ [_ [Hin _]]].
  destruct (main_from_inv W nominatim t cache approx_map w o H) as [_ [Eg _]].
  destruct (geocode_missing_trace W nominatim (o_missing o) cache w) as [pres [Hf Hl]].
  { apply Forall_forall. intros q Hq. apply Hin in Hq. tauto. }
  exists pres. split; [exact Hf|]. rewrite <- Eg in Hl. exact Hl.
Qed.

(** *** Where the new entries of the cache come from *)

Lemma try_each_result (out : list str) (w : world) :
  match fst (try_each nominatim out w) with
  | Some c => exists a e, In a out /\ fst (nominatim a e) = Some c
  | None => silent nominatim out (ext w)
  end.
Proof.
  revert w. induction out as [|a out IH]; intros w; [exact I|].
  cbn [try_each]. unfold query_nominatim.
  destruct (nominatim a (ext w)) as [res e] eqn:En. destruct res as [c|].
  - cbn [fst]. exists a, (ext w). split; [left; reflexivity|].
    rewrite En. reflexivity.
  - specialize (IH {| ext := e; log := log w ++ [Request a] |}).
    destruct (fst (try_each nominatim out _)) as [c|].
    + destruct IH as [b [e' [Hb Hc]]]. exists b, e'.
      split; [right; exact Hb | exact Hc].
    + cbn [silent]. rewrite En. cbn [fst snd]. split; [reflexivity | exact IH].
Qed.

Lemma geocode_missing_entries (missing : list str) :
  forall (cache : cache_t) (w : world),
    NoDup missing ->
    Forall (fun q => q <> []) missing ->
    (forall q, In q missing -> cget q cache = None) ->
    forall q, In q missing ->
      match cget q (fst (geocode_missing missing cache w)) with
      | Some (Some c) =>
          exists a e, In a (variants q) /\ fst (nominatim a e) = Some c
      | Some None => exists e, silent nominatim (variants q) e
      | None => False
      end.
Proof.
  induction missing as [|m missing IH]; intros cache w Hn Hne Hc q Hq;
    [destruct Hq|].
  inversion Hn as [|? ? Hm Hn']; subst.
  inversion Hne as [|? ? Hm0 Hne']; subst.
  cbn [geocode_nominatim.geocode_missing].
  pose proof (try_each_result (variants m) w) as Hres.
  assert (Et : try_geocode_variants nominatim m w
               = try_each nominatim (variants m) w).
  { unfold try_geocode_variants. destruct m; [contradiction Hm0|]; reflexivity. }
  rewrite Et. destruct (try_each nominatim (variants m) w) as [res w1].
  cbn [fst] in Hres.
  assert (Eset : cset m res cache = cache ++ [(m, res)]).
  { unfold cset. apply (DictFacts.set_new str (option coord) str_eqb).
    apply Hc. left. reflexivity. }
  destruct Hq as [<- | Hq].
  - destruct (geocode_missing_cache W nominatim missing (cset m res cache)
                (sleep 1.1 w1) Hn') as [results [_ [Ec _]]].
    { intros q' Hq'. rewrite Eset. unfold cget.
      rewrite (DictFacts.get_app_none str (option coord) str_eqb q' cache)
        by (apply Hc; right; exact Hq').
      cbn [dict_get]. destruct (str_eqb q' m) eqn:E; [|reflexivity].
      apply str_eqb_eq in E. subst. contradiction. }
    rewrite Ec. unfold cget.
    rewrite (DictFacts.get_app_some str (option coord) str_eqb m).
    + rewrite Eset.
      rewrite (DictFacts.get_app_none str (option coord) str_eqb m cache)
        by (apply Hc; left; reflexivity).
      cbn [dict_get]. rewrite str_eqb_refl.
      destruct res as [c|]; [exact Hres | exists (ext w); exact Hres].
    + rewrite Eset. unfold dict_mem.
      rewrite (DictFacts.get_app_none str (option coord) str_eqb m cache)
        by (apply Hc; left; reflexivity).
      cbn [dict_get]. rewrite str_eqb_refl. reflexivity.
  - apply IH; try assumption.
    intros q' Hq'. rewrite Eset. unfold cget.
    rewrite (DictFacts.get_app_none str (option coord) str_eqb q' cache)
      by (apply Hc; right; exact Hq').
    cbn [dict_get]. destruct (str_eqb q' m) eqn:E; [|reflexivity].
    apply str_eqb_eq in E. subst. contradiction.
Qed.

(** X7.  Every missing query gets an entry in the cache: a coordinate that
    the service answered to one of the variants of this query, or the
    negative marker when the service answered none of them. *)
Theorem new_entries_come_from_the_service (t : table) (cache : cache_t)
  (approx_map : dict Z coord) (w : world) (o : outcome W) (q : str) :
  main_from t cache approx_map w = Some o ->
  In q (o_missing o) ->
  match cget q (o_cache o) with
  | Some (Some c) =>
      exists a e, In a (variants q) /\ fst (nominatim a e) = Some c
  | Some None => exists e, silent nominatim (variants q) e
  | None => False
  end.
Proof.
  intros H Hq.
  destruct (loaded_entries_are_kept0 W nominatim t cache approx_map w o H)
    as [_ [Hnd [Hin _]]].
  destruct (main_from_inv W nominatim t cache approx_map w o H) as [_ [Eg _]].
  pose proof (geocode_missing_entries (o_missing o) cache w Hnd) as He.
  rewrite <- Eg in He. cbn [fst] in He. apply He; [| |exact Hq].
  - apply Forall_forall. intros x Hx. apply Hin in Hx. tauto.
  - intros x Hx. apply cmem_cget. apply Hin in Hx. tauto.
Qed.

(** *** A second run *)

Lemma keys_app_combine (cache : cache_t) (missing : list str)
  (results : list (option coord)) :
  List.length results = List.length missing ->
  dict_keys (cache ++ combine missing results) = dict_keys cache ++ missing.
Proof.
  intros El. unfold dict_keys. rewrite map_app. f_equal.
  revert results El. induction missing as [|m missing IH]; intros [|r results] El;
    try discriminate El; [reflexivity|].
  cbn [combine map fst]. f_equal. apply IH. cbn in El. lia.
Qed.

Lemma filter_nothing {A} (f : A -> bool) (l : list A) :
  (forall x, In x l -> f x = false) -> filter f l = [].
Proof.
  induction l as [|x l IH]; intros H; [reflexivity|].
  cbn [filter]. rewrite (H x (or_introl eq_refl)).
  apply IH. intros y Hy. apply H. right. exact Hy.
Qed.

Lemma approx_get_other (fs : list feature) (acc : dict Z coord) (rid : Z) :
  (forall f, In f fs -> f_id f <> rid) ->
  dict_get Z.eqb rid
    (fold_left (fun m f => dict_set Z.eqb (f_id f) (f_lat f, f_lon f) m) fs acc)
  = dict_get Z.eqb rid acc.
Proof.
  revert acc. induction fs as [|g fs IH]; intros acc H; [reflexivity|].
  cbn [fold_left]. rewrite IH by (intros f Hf; apply H; right; exact Hf).
  apply (DictFacts.get_set_other Z coord Z.eqb Z.eqb_eq).
  apply H. left. reflexivity.
Qed.

Lemma approx_get_some (fs : list feature) (acc : dict Z coord) (f : feature) :
  NoDup (map f_id fs) -> In f fs ->
  dict_get Z.eqb (f_id f)
    (fold_left (fun m f => dict_set Z.eqb (f_id f) (f_lat f, f_lon f) m) fs acc)
  = Some (f_lat f, f_lon f).
Proof.
  revert acc. induction fs as [|g fs IH]; intros acc Hn Hin; [destruct Hin|].
  cbn [map] in Hn. inversion Hn as [|? ? Hg Hn']; subst.
  cbn [fold_left]. destruct Hin as [-> | Hin].
  - rewrite approx_get_other.
    + apply (DictFacts.get_set_same Z coord Z.eqb Z.eqb_eq).
    + intros h Hh E. apply Hg. rewrite <- E. apply in_map. exact Hh.
  - apply IH; assumption.
Qed.

Lemma features_of_has (idx : dict str nat) (queries : dict Z str)
  (cache : cache_t) (approx_map : dict Z coord) (cl : str)
  (cy cd ca : option str) (rs : list row) (r : row) (c : coord) :
  In r rs ->
  feature_coord queries cache approx_map (rowid r) = Some c ->
  exists f, In f (features_of idx queries cache approx_map cl cy cd ca rs)
            /\ f_id f = rowid r /\ f_lat f = fst c /\ f_lon f = snd c.
Proof.
  induction rs as [|x rs IH]; intros Hin Hc; [destruct Hin|].
  cbn [features_of]. destruct Hin as [-> | Hin].
  - rewrite Hc. eexists. split; [left; reflexivity|]. cbn. auto.
  - destruct (IH Hin Hc) as [f [Hf Hrest]].
    exists f. split; [|exact Hrest].
    destruct (feature_coord queries cache approx_map (rowid x));
      [right; exact Hf | exact Hf].
Qed.

Lemma features_of_nodup (idx : dict str nat) (queries : dict Z str)
  (cache : cache_t) (approx_map : dict Z coord) (cl : str)
  (cy cd ca : option str) (rs : list row) :
  NoDup (map rowid rs) ->
  NoDup (map f_id (features_of idx queries cache approx_map cl cy cd ca rs)).
Proof.
  induction rs as [|x rs IH]; intros Hn; [constructor|].
  cbn [map] in Hn. inversion Hn as [|? ? Hx Hn']; subst.
  cbn [features_of].
  destruct (feature_coord queries cache approx_map (rowid x)); [|exact (IH Hn')].
  cbn [map f_id]. constructor; [|exact (IH Hn')].
  intros Hin. apply in_map_iff in Hin as [f [Ef Hf]].
  destruct (features_of_in _ _ _ _ _ _ _ _ _ _ Hf) as [r [c' [Hr [Eid _]]]].
  apply Hx. rewrite <- Ef, Eid. apply in_map. exact Hr.
Qed.

Lemma features_of_ext (idx : dict str nat) (queries : dict Z str)
  (cache : cache_t) (a a' : dict Z coord) (cl : str)
  (cy cd ca : option str) (rs : list row) :
  (forall r, In r rs ->
             feature_coord queries cache a' (rowid r)
             = feature_coord queries cache a (rowid r)) ->
  features_of idx queries cache a' cl cy cd ca rs
  = features_of idx queries cache a cl cy cd ca rs.
Proof.
  induction rs as [|x rs IH]; intros H; [reflexivity|].
  cbn [features_of]. rewrite (H x (or_introl eq_refl)).
  rewrite IH by (intros r Hr; apply H; right; exact Hr). reflexivity.
Qed.

(** With the approximate file replaced by the features just written, every
    row gets the coordinate it had. *)
Lemma feature_coord_again (idx : dict str nat) (queries : dict Z str)
  (cache : cache_t) (approx_map : dict Z coord) (cl : str)
  (cy cd ca : option str) (rs : list row) (r : row) :
  NoDup (map rowid rs) -> In r rs ->
  feature_coord queries cache
    (approx_map_of (features_of idx queries cache approx_map cl cy cd ca rs))
    (rowid r)
  = feature_coord queries cache approx_map (rowid r).
Proof.
  intros Hn Hr.
  set (fs := features_of idx queries cache approx_map cl cy cd ca rs).
  destruct (feature_coord queries cache approx_map (rowid r)) as [c|] eqn:E1.
  - destruct (features_of_has idx queries cache approx_map cl cy cd ca rs r c Hr E1)
      as [f [Hf [Eid [Elat Elon]]]].
    assert (Ea : @dict_get Z coord Z.eqb (rowid r) (approx_map_of fs) = Some c).
    { unfold approx_map_of. rewrite <- Eid.
      replace c with (f_lat f, f_lon f)
        by (rewrite Elat, Elon; destruct c; reflexivity).
      apply (approx_get_some fs [] f); [apply features_of_nodup; exact Hn | exact Hf]. }
    unfold feature_coord in *. rewrite Ea.
    destruct (dict_get Z.eqb (rowid r) queries) as [q|];
      [destruct (negb (falsy q)); [destruct (cget q cache) as [[x|]|]|]|];
      try reflexivity; try exact E1.
  - assert (Ea : @dict_get Z coord Z.eqb (rowid r) (approx_map_of fs) = None).
    { unfold approx_map_of.
      assert (Ho : forall f, In f fs -> f_id f <> rowid r).
      { intros f Hf Eid.
        destruct (features_of_in _ _ _ _ _ _ _ _ _ _ Hf)
          as [r' [c' [Hr' [Eid' [Hc' _]]]]].
        assert (r' = r)
          by (apply (rowid_inj rs); [exact Hn | exact Hr' | exact Hr | congruence]).
        subst r'. rewrite E1 in Hc'. discriminate. }
      exact (approx_get_other fs [] (rowid r) Ho). }
    unfold feature_coord in *. rewrite Ea.
    destruct (dict_get Z.eqb (rowid r) queries) as [q|];
      [destruct (negb (falsy q)); [destruct (cget q cache) as [[x|]|]|]|];
      try discriminate E1;
      destruct (dict_get Z.eqb (rowid r) approx_map); try discriminate E1;
      exact E1.
Qed.

(** X8.  A second run on the same table, with the cache the first run has
    saved and the feature file it has written as approximate file, looks
    nothing up: no query is missing, no request is made and no sleep taken,
    and the cache is the same; when the row ids are distinct it writes the
    same features. *)
Theorem second_run_is_quiet (t : table) (cache : cache_t)
  (approx_map : dict Z coord) (w : world) (o : outcome W) :
  main_from t cache approx_map w = Some o ->
  exists o',
    main_from t (o_cache o) (approx_map_of (o_features o)) (o_world o) = Some o'
    /\ o_missing o' = []
    /\ o_cache o' = o_cache o
    /\ o_world o' = o_world o
    /\ (NoDup (map rowid (rows t)) -> o_features o' = o_features o).
Proof.
  intros H.
  destruct (loaded_entries_are_kept0 W nominatim t cache approx_map w o H)
    as [[results [El [Ec _]]] [_ [Hin Hkeep]]].
  revert H Ec Hin Hkeep. unfold geocode_nominatim.main_from.
  destruct (or_else (find_col (cols t) (lit "location"))
                    (find_col (cols t) (lit "loc"))) as [cl|]; [|discriminate].
  set (queries := build_queries (idx_of (cols t)) cl _ _ (rows t)).
  match goal with
  | |- (let (_, _) := ?g in _) = _ -> _ => destruct g as [cache1 w1] eqn:Eg
  end.
  intros H. inversion H; subst o; clear H.
  cbn [o_missing o_cache o_world o_queries o_features]. intros Ec Hin Hkeep.
  assert (Em : missing_of (build_unique_qs queries) cache1 = []).
  { unfold missing_of. apply filter_nothing. intros q Hq.
    apply negb_false_iff.
    apply (unique_qs_keys queries [] q) in Hq.
    destruct Hq as [[] | [Hne Hq]].
    destruct (cmem q cache) eqn:Ecm.
    - unfold cmem, dict_mem. fold (cget q cache1). rewrite (Hkeep q Ecm).
      exact Ecm.
    - apply (DictFacts.mem_true_in str (option coord) str_eqb str_eqb_eq).
      rewrite Ec, keys_app_combine by exact El.
      apply in_or_app. right. apply Hin. auto. }
  rewrite Em. cbn [geocode_nominatim.geocode_missing].
  eexists. split; [reflexivity|].
  cbn [o_missing o_cache o_world o_queries o_features].
  split; [reflexivity|]. split; [reflexivity|]. split; [reflexivity|].
  intros Hn. apply features_of_ext. intros r Hr.
  apply feature_coord_again; assumption.
Qed.

End Run.

Import Samples MoreSamples.
Local Open Scope Q_scope.

Lemma positive_entry_is_used_witness :
  exists o,
    main_from deaf (two_rows "Texas" "Texas and Oklahoma")
      [(texas_query, Some (10, 20))] [] start
    = Some o
    /\ o_missing o = [lit "Texas and Oklahoma, United States"]
    /\ last (requests (log (o_world o))) [] = texas_query
    /\ (In texas_query (o_missing o) -> False)
    /\ (exists pres,
          Forall2 (fun m pre => m <> texas_query
                                /\ exists rest post,
                                     pre = m :: rest /\ variants m = pre ++ post)
            (o_missing o) pres
          /\ log (o_world o)
             = log start
               ++ flat_map (fun pre => map Request pre ++ [Sleep 1.1]) pres)
    /\ (forall a, In (Request a) (log (o_world o)) ->
           In (Request a) (log start)
           \/ exists m, In m (o_missing o) /\ m <> texas_query
                        /\ In a (variants m))
    /\ ((forall m, In m (o_missing o) -> In texas_query (variants m) -> False) ->
        In (Request texas_query) (log (o_world o)) ->
        In (Request texas_query) (log start))
    /\ cget texas_query (o_cache o) = Some (Some (10, 20))
    /\ (forall rid, dict_get Z.eqb rid (o_queries o) = Some texas_query ->
           feature_coord (o_queries o) (o_cache o) [] rid = Some (10, 20)).
Proof.
  eexists. split; [vm_compute; reflexivity|].
  split; [vm_compute; reflexivity|]. split; [vm_compute; reflexivity|].
  apply (positive_entry_is_used unit deaf (two_rows "Texas" "Texas and Oklahoma")
           [(texas_query, Some (10, 20))] [] start);
    [vm_compute; reflexivity | vm_compute; reflexivity | discriminate].
Defined.

Lemma run_trace_witness :
  exists o,
    main_from (knows "Texas" (31, -97)) (two_rows "Texas" "Atlantis") [] [] start
    = Some o
    /\ exists pres,
         Forall2 (fun q pre => exists rest post,
                    pre = q :: rest /\ variants q = pre ++ post)
           (o_missing o) pres
         /\ log (o_world o)
            = log start
              ++ flat_map (fun pre => map Request pre ++ [Sleep 1.1]) pres.
Proof.
  eexists. split; [vm_compute; reflexivity|].
  apply (run_trace unit (knows "Texas" (31, -97)) (two_rows "Texas" "Atlantis")
           [] [] start).
  vm_compute; reflexivity.
Defined.

Lemma new_entries_come_from_the_service_witness :
  exists o,
    main_from (knows "Texas" (31, -97)) (two_rows "Texas" "Atlantis") [] [] start
    = Some o
    /\ In texas_query (o_missing o)
    /\ cget texas_query (o_cache o) = Some (Some (31, -97))
    /\ match cget texas_query (o_cache o) with
       | Some (Some c) =>
           exists a e, In a (variants texas_query)
                       /\ fst (knows "Texas" (31, -97) a e) = Some c
       | Some None => exists e, silent (knows "Texas" (31, -97))
                                  (variants texas_query) e
       | None => False
       end.
Proof.
  eexists. split; [vm_compute; reflexivity|].
  split; [left; vm_compute; reflexivity|].
  split; [vm_compute; reflexivity|].
  apply (new_entries_come_from_the_service unit (knows "Texas" (31, -97))
           (two_rows "Texas" "Atlantis") [] [] start);
    [vm_compute; reflexivity | left; vm_compute; reflexivity].
Defined.

Lemma second_run_is_quiet_witness :
  exists o,
    main_from (knows "Texas" (31, -97)) (two_rows "Texas" "Atlantis") [] [] start
    = Some o
    /\ exists o',
         main_from (knows "Texas" (31, -97)) (two_rows "Texas" "Atlantis")
           (o_cache o) (approx_map_of (o_features o)) (o_world o) = Some o'
         /\ o_missing o' = []
         /\ o_cache o' = o_cache o
         /\ o_world o' = o_world o
         /\ (NoDup (map rowid (rows (two_rows "Texas" "Atlantis"))) ->
             o_features o' = o_features o).
Proof.
  eexists. split; [vm_compute; reflexivity|].
  apply (second_run_is_quiet unit (knows "Texas" (31, -97))
           (two_rows "Texas" "Atlantis") [] [] start).
  vm_compute; reflexivity.
Defined.

End PipelineMore.

(** ** [geocode_missing.py] *)

Module MissingFacts.
Import Py PyFacts Db Geo PipelineFacts.
Import geocode_missing.

(** A longer list of ids leaves the rows to geocode whose id is not among
    the new ones. *)
Lemma to_geocode_more (idx : dict str nat) (cl : str) (ids more : list Z)
  (rs : list row) :
  to_geocode idx cl (ids ++ more) rs
  = filter (fun x => negb (existsb (Z.eqb (fst (fst x))) more))
      (to_geocode idx cl ids rs).
Proof.
  induction rs as [|x rs IH]; [reflexivity|].
  change (to_geocode idx cl (ids ++ more) (x :: rs))
    with ((if existsb (Z.eqb (rowid x)) (ids ++ more) then []
           else if falsy (strip (text_of (cell idx x cl))) then []
                else [(rowid x, strip (text_of (cell idx x cl)), x)])
          ++ to_geocode idx cl (ids ++ more) rs).
  change (to_geocode idx cl ids (x :: rs))
    with ((if existsb (Z.eqb (rowid x)) ids then []
           else if falsy (strip (text_of (cell idx x cl))) then []
                else [(rowid x, strip (text_of (cell idx x cl)), x)])
          ++ to_geocode idx cl ids rs).
  rewrite filter_app, IH, existsb_app. f_equal.
  destruct (existsb (Z.eqb (rowid x)) ids); [reflexivity|].
  cbn [orb].
  destruct (falsy (strip (text_of (cell idx x cl))));
    [destruct (existsb (Z.eqb (rowid x)) more); reflexivity|].
  cbn [filter fst]. destruct (existsb (Z.eqb (rowid x)) more); reflexivity.
Qed.

Lemma flat_map_of_map {A B C} (g : B -> list C) (h : A -> B) (l : list A) :
  flat_map g (map h l) = flat_map (fun x => g (h x)) l.
Proof.
  induction l as [|x l IH]; [reflexivity|].
  cbn [map flat_map]. rewrite IH. reflexivity.
Qed.

Section Run.
Variable F : Type.
Variable id_of : F -> option Z.
Variable W : Type.
Variable nominatim : str -> W -> option coord * W.

Local Abbreviation world := (geocode_nominatim.world W).
Local Abbreviation log := (@geocode_nominatim.log W).
Local Abbreviation item := (item F).

(** What the loop does: a request and a sleep for each row, and a feature
    appended for each answer. *)
Lemma geocode_rows_spec (idx : dict str nat) (cy cd ca : option str)
  (todo : list (Z * str * row)) :
  forall (features : list item) (added : nat) (w : world),
  exists made,
    geocode_rows nominatim idx cy cd ca todo features added w
    = (features ++ map (@Made F) made, (added + List.length made)%nat,
       snd (geocode_rows nominatim idx cy cd ca todo features added w))
    /\ log (snd (geocode_rows nominatim idx cy cd ca todo features added w))
       = log w
         ++ flat_map (fun x => [geocode_nominatim.Request (query_of (snd (fst x)));
                                geocode_nominatim.Sleep 1.1])
              todo
    /\ (forall f, In f made ->
          exists loc r c e,
            In (f_id f, loc, r) todo
            /\ f = new_feature idx cy cd ca (f_id f) loc r c
            /\ fst (nominatim (query_of loc) e) = Some c)
    /\ (NoDup (map (fun x => fst (fst x)) todo) -> NoDup (map f_id made)).
Proof.
  induction todo as [|[[rid loc] r] todo IH]; intros features added w.
  - exists []. cbn [geocode_rows map app List.length flat_map snd].
    rewrite !app_nil_r, Nat.add_0_r.
    repeat split; [intros f [] | intros _; constructor].
  - cbn [geocode_rows]. unfold query_nominatim.
    destruct (nominatim (query_of loc) (geocode_nominatim.ext w)) as [res e] eqn:En.
    set (w1 := sleep 1.1 _).
    assert (Elog : log w1 = log w ++ [geocode_nominatim.Request (query_of loc);
                                      geocode_nominatim.Sleep 1.1]).
    { unfold w1, sleep. cbn. rewrite <- app_assoc. reflexivity. }
    destruct res as [c|].
    + destruct (IH (features ++ [Made F (new_feature idx cy cd ca rid loc r c)])
                   (S added) w1) as [made [E [El [Hm Hn]]]].
      exists (new_feature idx cy cd ca rid loc r c :: made).
      split; [|split; [|split]].
      * rewrite E at 1. cbn [map List.length snd].
        rewrite <- app_assoc. cbn [app]. f_equal. f_equal. lia.
      * rewrite El, Elog. cbn [flat_map fst snd]. rewrite <- app_assoc.
        reflexivity.
      * intros f [<- | Hf].
        -- exists loc, r, c, (geocode_nominatim.ext w).
           split; [left; reflexivity|]. split; [reflexivity|].
           rewrite En. reflexivity.
        -- destruct (Hm f Hf) as [loc' [r' [c' [e' [Hin Hrest]]]]].
           exists loc', r', c', e'. split; [right; exact Hin | exact Hrest].
      * intros Hnd. cbn [map fst] in Hnd. inversion Hnd as [|? ? Hx Hnd']; subst.
        cbn [map]. constructor; [|exact (Hn Hnd')].
        intros Hin. apply in_map_iff in Hin as [f [Ef Hf]].
        destruct (Hm f Hf) as [loc' [r' [c' [e' [Hin _]]]]].
        apply Hx. cbn [new_feature f_id] in Ef. rewrite <- Ef.
        apply (in_map (fun x => fst (fst x)) _ _ Hin).
    + destruct (IH features added w1) as [made [E [El [Hm Hn]]]].
      exists made. split; [exact E|]. split; [|split].
      * rewrite El, Elog. cbn [flat_map fst snd]. rewrite <- app_assoc.
        reflexivity.
      * intros f Hf. destruct (Hm f Hf) as [loc' [r' [c' [e' [Hin Hrest]]]]].
        exists loc', r', c', e'. split; [right; exact Hin | exact Hrest].
      * intros Hnd. cbn [map fst] in Hnd. inversion Hnd; subst. auto.
Qed.

Lemma paced_pairs (qs : list str) :
  geocode_nominatim.paced
    (flat_map (fun q => [geocode_nominatim.Request q; geocode_nominatim.Sleep 1.1]) qs)
  = true.
Proof.
  induction qs as [|q qs IH]; [reflexivity|].
  cbn [flat_map app geocode_nominatim.paced]. exact IH.
Qed.

(** The ids of the file, looked up feature by feature. *)
Lemma existing_ids_mem (file : list F) (rid : Z) :
  existsb (Z.eqb rid) (fst (load_existing_ids id_of file))
  = existsb (fun g => match id_of g with
                      | Some i => Z.eqb i rid
                      | None => false
                      end) file.
Proof.
  unfold load_existing_ids. cbn [fst].
  induction file as [|g file IH]; [reflexivity|].
  cbn [flat_map existsb]. rewrite existsb_app, IH. f_equal.
  destruct (id_of g) as [i|]; cbn [existsb];
    [rewrite orb_false_r; apply Z.eqb_sym | reflexivity].
Qed.

(** The rows to geocode are the rows of the table without a feature in the
    file and with a location text, in the order of the table. *)
Lemma to_geocode_filter (idx : dict str nat) (cl : str) (file : list F)
  (rs : list row) :
  to_geocode idx cl (fst (load_existing_ids id_of file)) rs
  = map (fun r => (rowid r, strip (text_of (cell idx r cl)), r))
      (filter (fun r =>
                 negb (existsb (fun g => match id_of g with
                                         | Some i => Z.eqb i (rowid r)
                                         | None => false
                                         end) file)
                 && negb (falsy (strip (text_of (cell idx r cl)))))
         rs).
Proof.
  induction rs as [|r rs IH]; [reflexivity|].
  change (to_geocode idx cl (fst (load_existing_ids id_of file)) (r :: rs))
    with ((if existsb (Z.eqb (rowid r)) (fst (load_existing_ids id_of file))
           then []
           else if falsy (strip (text_of (cell idx r cl))) then []
                else [(rowid r, strip (text_of (cell idx r cl)), r)])
          ++ to_geocode idx cl (fst (load_existing_ids id_of file)) rs).
  rewrite IH, existing_ids_mem. cbn [filter].
  destruct (existsb _ file); cbn [negb andb app]; [reflexivity|].
  destruct (falsy (strip (text_of (cell idx r cl)))); reflexivity.
Qed.

(** The loop, in closed form: the features appended are those of the rows
    whose request is answered, the service answering the requests in turn;
    each request is followed by a sleep. *)
Lemma geocode_rows_exact (idx : dict str nat) (cy cd ca : option str)
  (todo : list (Z * str * row)) :
  forall (features : list item) (added : nat) (w : world),
    let made :=
      flat_map
        (fun xa => match snd xa with
                   | Some c =>
                       [new_feature idx cy cd ca (fst (fst (fst xa)))
                          (snd (fst (fst xa))) (snd (fst xa)) c]
                   | None => []
                   end)
        (combine todo
           (answers nominatim (map (fun x => query_of (snd (fst x))) todo)
              (geocode_nominatim.ext w))) in
    geocode_rows nominatim idx cy cd ca todo features added w
    = (features ++ map (@Made F) made, (added + List.length made)%nat,
       {| geocode_nominatim.ext :=
            geocode_nominatim.after nominatim
              (map (fun x => query_of (snd (fst x))) todo)
              (geocode_nominatim.ext w);
          geocode_nominatim.log :=
            log w
            ++ flat_map (fun x => [geocode_nominatim.Request (query_of (snd (fst x)));
                                   geocode_nominatim.Sleep 1.1])
                 todo |}).
Proof.
  induction todo as [|[[rid loc] r] todo IH]; intros features added w; cbv zeta.
  - cbn [geocode_rows map answers combine flat_map app List.length
         geocode_nominatim.after].
    rewrite !app_nil_r, Nat.add_0_r. destruct w; reflexivity.
  - cbn [geocode_rows map answers combine flat_map fst snd
         geocode_nominatim.after].
    unfold query_nominatim.
    destruct (nominatim (query_of loc) (geocode_nominatim.ext w)) as [res e] eqn:En.
    cbn [fst snd].
    destruct res as [c|]; rewrite IH; cbv zeta; unfold sleep;
      cbn [geocode_nominatim.ext geocode_nominatim.log map app List.length];
      rewrite <- !app_assoc; cbn [app]; f_equal; f_equal; lia.
Qed.

Lemma made_ids (idx : dict str nat) (cy cd ca : option str)
  (rs : list row) (loc : row -> str) (ans : list (option coord)) (f : feature) :
  In f (flat_map
          (fun ra => match snd ra with
                     | Some c =>
                         [new_feature idx cy cd ca (rowid (fst ra))
                            (loc (fst ra)) (fst ra) c]
                     | None => []
                     end)
          (combine rs ans)) ->
  exists r, In r rs /\ f_id f = rowid r.
Proof.
  intros H. apply in_flat_map in H as [[r a] [Hin Hf]].
  cbn [fst snd] in Hf. destruct a as [c|]; [|destruct Hf].
  destruct Hf as [<- | []]. exists r. split; [|reflexivity].
  exact (in_combine_l _ _ _ _ Hin).
Qed.

Lemma made_nodup (idx : dict str nat) (cy cd ca : option str)
  (rs : list row) (loc : row -> str) (ans : list (option coord)) :
  NoDup (map rowid rs) ->
  NoDup (map f_id
           (flat_map
              (fun ra => match snd ra with
                         | Some c =>
                             [new_feature idx cy cd ca (rowid (fst ra))
                                (loc (fst ra)) (fst ra) c]
                         | None => []
                         end)
              (combine rs ans))).
Proof.
  revert ans. induction rs as [|r rs IH]; intros ans Hn; [constructor|].
  destruct ans as [|a ans]; [constructor|].
  cbn [map] in Hn. inversion Hn as [|? ? Hr Hn']; subst.
  cbn [combine flat_map fst snd]. destruct a as [c|]; [|exact (IH ans Hn')].
  cbn [app map new_feature f_id]. constructor; [|exact (IH ans Hn')].
  intros Hin. apply in_map_iff in Hin as [f [Ef Hf]].
  destruct (made_ids _ _ _ _ _ _ _ _ Hf) as [r' [Hr' E]].
  apply Hr. rewrite <- Ef, E. apply in_map. exact Hr'.
Qed.

(** X9.  One run sends one request for each row of the table that has no
    feature in the file yet and a location text, these rows and no others,
    each once and in the order of the table, and sleeps 1.1 s after each
    request: no request follows another without a sleep. *)
Theorem each_request_is_followed_by_a_sleep (t : table) (file : list F)
  (w : world) (o : outcome F W) :
  main_from id_of nominatim t file w = Some o ->
  exists cl,
    or_else (find_col (cols t) (lit "location")) (find_col (cols t) (lit "loc"))
    = Some cl
    /\ let loc := fun r => strip (text_of (cell (idx_of (cols t)) r cl)) in
       let selected :=
         filter (fun r =>
                   negb (existsb (fun g => match id_of g with
                                           | Some i => Z.eqb i (rowid r)
                                           | None => false
                                           end) file)
                   && negb (falsy (loc r)))
           (rows t) in
       g_todo o = map (fun r => (rowid r, loc r, r)) selected
       /\ log (g_world o)
          = log w
            ++ flat_map (fun r => [geocode_nominatim.Request (query_of (loc r));
                                   geocode_nominatim.Sleep 1.1])
                 selected
       /\ geocode_nominatim.paced
            (flat_map (fun r => [geocode_nominatim.Request (query_of (loc r));
                                 geocode_nominatim.Sleep 1.1])
               selected)
          = true
       /\ (forall s,
             query_of s
             = if existsb (fun k => contains k (lower s))
                    [lit "united states"; lit "usa"; lit "puerto rico"]
               then s
               else s ++ lit ", United States").
Proof.
  unfold main_from.
  destruct (or_else (find_col (cols t) (lit "location"))
                    (find_col (cols t) (lit "loc"))) as [cl|]; [|discriminate].
  cbv zeta. cbn [load_existing_ids].
  pose proof (to_geocode_filter (idx_of (cols t)) cl file (rows t)) as Et.
  unfold load_existing_ids in Et. cbn [fst] in Et. rewrite Et. clear Et.
  rewrite geocode_rows_exact. cbv zeta.
  intros H. inversion H; subst o; clear H. cbn [g_world g_todo geocode_nominatim.log].
  exists cl. split; [reflexivity|].
  split; [reflexivity|]. split; [|split].
  - f_equal. rewrite flat_map_of_map. reflexivity.
  - rewrite <- (flat_map_of_map
                  (fun q => [geocode_nominatim.Request q; geocode_nominatim.Sleep 1.1])
                  (fun r => query_of (strip (text_of (cell (idx_of (cols t)) r cl))))).
    apply paced_pairs.
  - intros s. unfold query_of. cbn [existsb].
    destruct (contains (lit "united states") (lower s));
      destruct (contains (lit "usa") (lower s));
      destruct (contains (lit "puerto rico") (lower s)); reflexivity.
Qed.

(** X10.  The features read from the file are written back unchanged and
    first.  After them comes one feature for each row that is asked for (a
    row without a feature in the file and with a location text) and whose
    request is answered, in the order of the table, the service answering
    the requests one after the other: it has the id of the row, its
    stripped location text, its cells and the coordinate answered.  None of
    the new ids is the id of a feature of the file, and when the row ids
    are distinct so are the new ids. *)
Theorem features_are_appended (t : table) (file : list F)
  (w : world) (o : outcome F W) :
  main_from id_of nominatim t file w = Some o ->
  exists cl,
    or_else (find_col (cols t) (lit "location")) (find_col (cols t) (lit "loc"))
    = Some cl
    /\ let idx := idx_of (cols t) in
       let cy := or_else (find_col (cols t) (lit "year"))
                   (find_col (cols t) (lit "date")) in
       let cd := find_col (cols t) (lit "disaster") in
       let ca := find_col (cols t) (lit "article") in
       let loc := fun r => strip (text_of (cell idx r cl)) in
       let selected :=
         filter (fun r =>
                   negb (existsb (fun g => match id_of g with
                                           | Some i => Z.eqb i (rowid r)
                                           | None => false
                                           end) file)
                   && negb (falsy (loc r)))
           (rows t) in
       let made :=
         flat_map
           (fun ra => match snd ra with
                      | Some c =>
                          [{| f_id := rowid (fst ra);
                              f_lon := snd c;
                              f_lat := fst c;
                              f_year := cell_opt idx (fst ra) cy;
                              f_disaster := cell_opt idx (fst ra) cd;
                              f_article := cell_opt idx (fst ra) ca;
                              f_location := Some (loc (fst ra)) |}]
                      | None => []
                      end)
           (combine selected
              (answers nominatim (map (fun r => query_of (loc r)) selected)
                 (geocode_nominatim.ext w))) in
       g_features o = map (@Read F) file ++ map (@Made F) made
       /\ g_added o = List.length made
       /\ (forall f g, In f made -> In g file -> id_of g <> Some (f_id f))
       /\ (NoDup (map rowid (rows t)) -> NoDup (map f_id made)).
Proof.
  unfold main_from.
  destruct (or_else (find_col (cols t) (lit "location"))
                    (find_col (cols t) (lit "loc"))) as [cl|]; [|discriminate].
  cbv zeta. cbn [load_existing_ids].
  pose proof (to_geocode_filter (idx_of (cols t)) cl file (rows t)) as Et.
  unfold load_existing_ids in Et. cbn [fst] in Et. rewrite Et. clear Et.
  rewrite geocode_rows_exact. cbv zeta.
  intros H. inversion H; subst o; clear H.
  cbn [g_world g_todo g_features g_added].
  exists cl. split; [reflexivity|].
  set (loc := fun r => strip (text_of (cell (idx_of (cols t)) r cl))).
  set (selected := filter _ (rows t)).
  rewrite map_map. cbn [fst snd].
  set (ans := answers nominatim _ _).
  assert (Em : forall (rs : list row) (an : list (option coord)),
            flat_map
              (fun xa : Z * str * row * option coord =>
                 match snd xa with
                 | Some c =>
                     [new_feature (idx_of (cols t))
                        (or_else (find_col (cols t) (lit "year"))
                           (find_col (cols t) (lit "date")))
                        (find_col (cols t) (lit "disaster"))
                        (find_col (cols t) (lit "article"))
                        (fst (fst (fst xa))) (snd (fst (fst xa))) (snd (fst xa)) c]
                 | None => []
                 end)
              (combine (map (fun r => (rowid r, loc r, r)) rs) an)
            = flat_map
                (fun ra : row * option coord =>
                   match snd ra with
                   | Some c =>
                       [new_feature (idx_of (cols t))
                          (or_else (find_col (cols t) (lit "year"))
                             (find_col (cols t) (lit "date")))
                          (find_col (cols t) (lit "disaster"))
                          (find_col (cols t) (lit "article"))
                          (rowid (fst ra)) (loc (fst ra)) (fst ra) c]
                   | None => []
                   end)
                (combine rs an)).
  { induction rs as [|r rs IH]; intros an; [reflexivity|].
    destruct an as [|a an]; [reflexivity|].
    cbn [map combine flat_map fst snd]. rewrite IH. reflexivity. }
  rewrite Em. split; [reflexivity|]. split; [reflexivity|]. split.
  - intros f g Hf Hg E.
    destruct (made_ids _ _ _ _ selected loc ans f Hf) as [r [Hr Er]].
    unfold selected in Hr. apply filter_In in Hr as [_ Hr].
    apply andb_true_iff in Hr as [Hr _]. apply negb_true_iff in Hr.
    assert (Ht : existsb (fun g => match id_of g with
                                   | Some i => Z.eqb i (rowid r)
                                   | None => false
                                   end) file = true).
    { apply existsb_exists. exists g. split; [exact Hg|].
      rewrite E, Er. apply Z.eqb_refl. }
    congruence.
  - intros Hn. apply (made_nodup _ _ _ _ selected loc ans).
    unfold selected. clear -Hn. induction (rows t) as [|r rs IH]; [constructor|].
    cbn [map] in Hn. inversion Hn as [|? ? Hr Hn']; subst.
    cbn [filter]. destruct (_ && _); [|exact (IH Hn')].
    cbn [map]. constructor; [|exact (IH Hn')].
    intros Hin. apply Hr. apply in_map_iff in Hin as [r' [E Hin]].
    apply filter_In in Hin as [Hin _]. rewrite <- E. apply in_map. exact Hin.
Qed.

End Run.

Lemma existing_ids_app (F : Type) (id_of : F -> option Z)
  (file : list F) (made : list feature) :
  fst (load_existing_ids (item_id id_of)
         (map (@Read F) file ++ map (Made F) made))
  = fst (load_existing_ids id_of file) ++ map f_id made.
Proof.
  unfold load_existing_ids. cbn [fst]. rewrite flat_map_app. f_equal.
  - induction file as [|g file IH]; [reflexivity|].
    cbn [map flat_map item_id]. rewrite IH. reflexivity.
  - induction made as [|f made IH]; [reflexivity|].
    cbn [map flat_map item_id app]. rewrite IH. reflexivity.
Qed.

(** X11.  A row that the service did not answer leaves no trace in the file:
    a second run on the file the first has written asks again for exactly
    the rows of the first run that got no feature, in the same order. *)
Theorem rerun_asks_for_the_unanswered (F W : Type) (id_of : F -> option Z)
  (nominatim : str -> W -> option coord * W)
  (t : table) (file : list F) (w : geocode_nominatim.world W)
  (o : outcome F W) :
  main_from id_of nominatim t file w = Some o ->
  exists made,
    g_features o = map (@Read F) file ++ map (Made F) made
    /\ forall w', exists o',
         main_from (item_id id_of) nominatim t (g_features o) w' = Some o'
         /\ g_todo o'
            = filter (fun x => negb (existsb (Z.eqb (fst (fst x))) (map f_id made)))
                (g_todo o).
Proof.
  unfold main_from.
  destruct (or_else (find_col (cols t) (lit "location"))
                    (find_col (cols t) (lit "loc"))) as [cl|]; [|discriminate].
  cbv zeta. cbn [load_existing_ids].
  set (ids := flat_map _ file).
  set (todo := to_geocode (idx_of (cols t)) cl ids (rows t)).
  match goal with
  | |- context [geocode_rows nominatim ?i ?a ?b ?c todo ?fs 0 w] =>
      destruct (geocode_rows_spec F W nominatim i a b c todo fs 0 w)
        as [made [E _]];
      rewrite E
  end.
  intros H. inversion H; subst o; clear H.
  cbn [g_world g_todo g_features g_added].
  exists made. split; [reflexivity|]. intros w'.
  set (ids' := flat_map _ (map (@Read F) file ++ map (Made F) made)).
  assert (Ei : ids' = ids ++ map f_id made)
    by (apply (existing_ids_app F id_of file made)).
  set (todo' := to_geocode (idx_of (cols t)) cl ids' (rows t)).
  match goal with
  | |- context [geocode_rows nominatim ?i ?a ?b ?c todo' ?fs 0 w'] =>
      destruct (geocode_rows nominatim i a b c todo' fs 0 w') as [[fs' n'] w'']
  end.
  eexists. split; [reflexivity|]. cbn [g_todo].
  unfold todo', todo. rewrite Ei. apply to_geocode_more.
Qed.

Import Samples MoreSamples.
Local Open Scope Q_scope.

Lemma each_request_is_followed_by_a_sleep_witness :
  exists o,
    main_from id_some (knows "Atlantis, United States" (1, 2))
      (two_rows "Texas" "Atlantis") [feature_at 1 (31, -97)] start = Some o
    /\ geocode_nominatim.log (g_world o)
       = [geocode_nominatim.Request (lit "Atlantis, United States");
          geocode_nominatim.Sleep 1.1]
    /\ exists cl,
         or_else (find_col (cols (two_rows "Texas" "Atlantis")) (lit "location"))
           (find_col (cols (two_rows "Texas" "Atlantis")) (lit "loc"))
         = Some cl
         /\ let loc := fun r =>
                         strip (text_of (cell (idx_of (cols (two_rows "Texas" "Atlantis")))
                                           r cl)) in
            let selected :=
              filter (fun r =>
                        negb (existsb (fun g => match id_some g with
                                                | Some i => Z.eqb i (rowid r)
                                                | None => false
                                                end) [feature_at 1 (31, -97)])
                        && negb (falsy (loc r)))
                (rows (two_rows "Texas" "Atlantis")) in
            g_todo o = map (fun r => (rowid r, loc r, r)) selected
            /\ geocode_nominatim.log (g_world o)
               = geocode_nominatim.log start
                 ++ flat_map (fun r => [geocode_nominatim.Request (query_of (loc r));
                                        geocode_nominatim.Sleep 1.1])
                      selected
            /\ geocode_nominatim.paced
                 (flat_map (fun r => [geocode_nominatim.Request (query_of (loc r));
                                      geocode_nominatim.Sleep 1.1])
                    selected)
               = true
            /\ (forall s,
                  query_of s
                  = if existsb (fun k => contains k (lower s))
                         [lit "united states"; lit "usa"; lit "puerto rico"]
                    then s
                    else s ++ lit ", United States").
Proof.
  eexists. split; [vm_compute; reflexivity|].
  split; [vm_compute; reflexivity|].
  apply (each_request_is_followed_by_a_sleep feature id_some unit
           (knows "Atlantis, United States" (1, 2))
           (two_rows "Texas" "Atlantis") [feature_at 1 (31, -97)] start).
  vm_compute; reflexivity.
Defined.

Lemma features_are_appended_witness :
  exists o,
    main_from id_some (knows "Atlantis, United States" (1, 2))
      (two_rows "Texas" "Atlantis") [feature_at 1 (31, -97)] start = Some o
    /\ map (item_id id_some) (g_features o) = [Some 1%Z; Some 2%Z]
    /\ exists cl,
         or_else (find_col (cols (two_rows "Texas" "Atlantis")) (lit "location"))
           (find_col (cols (two_rows "Texas" "Atlantis")) (lit "loc"))
         = Some cl
         /\ let t := two_rows "Texas" "Atlantis" in
            let idx := idx_of (cols t) in
            let cy := or_else (find_col (cols t) (lit "year"))
                        (find_col (cols t) (lit "date")) in
            let cd := find_col (cols t) (lit "disaster") in
            let ca := find_col (cols t) (lit "article") in
            let loc := fun r => strip (text_of (cell idx r cl)) in
            let selected :=
              filter (fun r =>
                        negb (existsb (fun g => match id_some g with
                                                | Some i => Z.eqb i (rowid r)
                                                | None => false
                                                end) [feature_at 1 (31, -97)])
                        && negb (falsy (loc r)))
                (rows t) in
            let made :=
              flat_map
                (fun ra => match snd ra with
                           | Some c =>
                               [{| f_id := rowid (fst ra);
                                   f_lon := snd c;
                                   f_lat := fst c;
                                   f_year := cell_opt idx (fst ra) cy;
                                   f_disaster := cell_opt idx (fst ra) cd;
                                   f_article := cell_opt idx (fst ra) ca;
                                   f_location := Some (loc (fst ra)) |}]
                           | None => []
                           end)
                (combine selected
                   (answers (knows "Atlantis, United States" (1, 2))
                      (map (fun r => query_of (loc r)) selected)
                      (geocode_nominatim.ext start))) in
            g_features o
            = map (@Read feature) [feature_at 1 (31, -97)] ++ map (Made feature) made
            /\ g_added o = List.length made
            /\ (forall f g, In f made -> In g [feature_at 1 (31, -97)] ->
                            id_some g <> Some (f_id f))
            /\ (NoDup (map rowid (rows t)) -> NoDup (map f_id made)).
Proof.
  eexists. split; [vm_compute; reflexivity|].
  split; [vm_compute; reflexivity|].
  apply (features_are_appended feature id_some unit
           (knows "Atlantis, United States" (1, 2))
           (two_rows "Texas" "Atlantis") [feature_at 1 (31, -97)] start).
  vm_compute; reflexivity.
Defined.

Lemma rerun_asks_for_the_unanswered_witness :
  exists o,
    main_from id_some deaf (two_rows "Texas" "Atlantis")
      [feature_at 1 (31, -97)] start = Some o
    /\ exists made,
         g_features o
         = map (@Read feature) [feature_at 1 (31, -97)] ++ map (Made feature) made
         /\ forall w', exists o',
              main_from (item_id id_some) deaf (two_rows "Texas" "Atlantis")
                (g_features o) w' = Some o'
              /\ g_todo o'
                 = filter (fun x => negb (existsb (Z.eqb (fst (fst x)))
                                            (map f_id made)))
                     (g_todo o).
Proof.
  eexists. split; [vm_compute; reflexivity|].
  apply (rerun_asks_for_the_unanswered feature unit id_some deaf
           (two_rows "Texas" "Atlantis") [feature_at 1 (31, -97)] start).
  vm_compute; reflexivity.
Defined.

End MissingFacts.

(** ** [list_unmatched.py] *)

Module UnmatchedFacts.
Import Py PyFacts Db Geo.

(** The report looks a row up exactly as the generator does. *)
Lemma row_coord_same (idx : dict str nat) (cl : str) (r : row) :
  list_unmatched.row_coord idx cl r = generate_geojson.row_coord idx cl r.
Proof.
  unfold list_unmatched.row_coord, generate_geojson.row_coord.
  destruct (truthy (cell idx r cl)); cbn [negb]; [reflexivity|].
  cbn [filter flat_map].
  destruct (dict_mem str_eqb (lit "main_article") idx);
    destruct (dict_mem str_eqb (lit "notes") idx);
    cbn [flat_map app]; rewrite ?app_nil_r;
    match goal with
    | |- (if negb (falsy ?c) then _ else _) = _ => destruct c; reflexivity
    end.
Qed.

(** X12.  The report of unmatched rows and the feature file of the
    generator divide the table between them: the ids of the features
    followed by the ids of the report are the row ids of the table, up to
    their order.  Without a location-like column the generator writes
    nothing, and the report fails on the first row. *)
Theorem unmatched_rows_are_the_rows_without_feature (t : table) :
  (forall fs,
      generate_geojson.main t = Some fs ->
      exists us,
        list_unmatched.main t = Some us
        /\ Permutation (map f_id fs ++ map (fun u => fst (fst (fst u))) us)
             (map rowid (rows t)))
  /\ (generate_geojson.main t = None ->
      list_unmatched.main t = match rows t with [] => Some [] | _ :: _ => None end).
Proof.
  unfold generate_geojson.main, list_unmatched.main.
  destruct (or_else (find_col (cols t) (lit "location"))
                    (find_col (cols t) (lit "loc"))) as [cl|];
    [|split; [discriminate | reflexivity]].
  split; [|discriminate].
  intros fs H. inversion H; subst fs; clear H.
  eexists. split; [reflexivity|].
  induction (rows t) as [|r rs IH]; [constructor|].
  cbn [generate_geojson.features_of flat_map].
  rewrite row_coord_same.
  destruct (generate_geojson.row_coord (idx_of (cols t)) cl r).
  - cbn [map f_id app]. apply perm_skip. exact IH.
  - cbn [map app fst]. apply Permutation_sym.
    apply Permutation_cons_app. apply Permutation_sym. exact IH.
Qed.

End UnmatchedFacts.

(** ** More on [csv_to_db.py], and [scraping.py] *)

Module TableFacts.
Import Py PyFacts SanitizeFacts NormalizeFacts csv_to_db.

(** Replacing the runs of a class by an underscore changes nothing in a
    text where the class holds single underscores only. *)
Lemma sub_plus_single (cls : N -> bool) (s : str) :
  forall b,
    Forall (fun c => cls c = (c =? underscore)) s ->
    no_double_underscore s = true ->
    (b = true -> match s with c :: _ => (c =? underscore) = false | [] => True end) ->
    sub_plus_go cls (lit "_") b s = s.
Proof.
  induction s as [|c s IH]; intros b Hc Hn Hb; [reflexivity|].
  inversion Hc as [|? ? Ec Hc']; subst.
  assert (Hn' : no_double_underscore s = true).
  { destruct s as [|d s]; [reflexivity|].
    cbn [no_double_underscore] in Hn. apply andb_true_iff in Hn. tauto. }
  cbn [sub_plus_go]. rewrite Ec. destruct (c =? underscore) eqn:E.
  - destruct b; [specialize (Hb eq_refl); discriminate Hb|].
    apply N.eqb_eq in E. subst c.
    change (lit "_" ++ ?x) with (underscore :: x). f_equal.
    apply IH; [exact Hc' | exact Hn'|]. intros _.
    destruct s as [|d s]; [exact I|].
    cbn [no_double_underscore] in Hn. apply andb_true_iff in Hn as [Hn _].
    apply negb_true_iff in Hn. exact Hn.
  - f_equal. apply IH; [exact Hc' | exact Hn' | discriminate].
Qed.

(** A snake_case identifier is left as it is. *)
Ltac ident_arith := bool_arith; unfold underscore in *; try lia.

Lemma sanitize_fixes_snake_case (s : str) :
  snake_case s = true -> sanitize s = s.
Proof.
  destruct s as [|c0 t0]; [discriminate|].
  intros H. cbn [snake_case] in H. revert H.
  set (s := c0 :: t0).
  rewrite !andb_true_iff. intros [[[Hfirst Hall] Hlast] Hnd].
  rewrite forallb_forall in Hall. apply negb_true_iff in Hlast.
  assert (Hrev : match rev s with c :: _ => (c =? underscore) = false | [] => True end).
  { destruct (rev s) as [|d r] eqn:Er; [exact I|].
    rewrite <- (last_of_rev s r d 0 Er). exact Hlast. }
  assert (Hlastid : match rev s with c :: _ => ident_char c = true | [] => True end).
  { destruct (rev s) as [|d r] eqn:Er; [exact I|].
    apply Hall. apply in_rev. rewrite Er. left. reflexivity. }
  assert (E1 : strip s = s).
  { apply strip_fix. split; [cbn; ident_arith|].
    destruct (rev s) as [|d r]; [exact I|]. ident_arith. }
  assert (E2 : replace (lit "$") (lit "usd") s = s).
  { change (lit "$") with [36]. apply replace_absent. apply Forall_forall.
    intros x Hx. specialize (Hall x Hx). ident_arith. }
  assert (E3 : sub_plus (fun c => negb (is_ascii_alnum c)) (lit "_") s = s).
  { apply sub_plus_single; [|exact Hnd|discriminate].
    apply Forall_forall. intros x Hx. specialize (Hall x Hx).
    destruct (x =? underscore) eqn:Ex.
    - apply N.eqb_eq in Ex. subst x. reflexivity.
    - ident_arith. }
  assert (E4 : sub_plus (fun c => c =? underscore) (lit "_") s = s).
  { apply sub_plus_single; [|exact Hnd|discriminate].
    apply Forall_forall. intros x Hx. reflexivity. }
  assert (E5 : strip_by (fun c => c =? underscore) s = s).
  { apply strip_fix. split; [cbn; ident_arith | exact Hrev]. }
  assert (E6 : lower s = s).
  { unfold lower. rewrite <- (map_id s) at 2. apply map_ext_in.
    intros x Hx. specialize (Hall x Hx). unfold lower_char.
    destruct (is_ascii_upper x) eqn:Eu; [ident_arith|].
    destruct (between 192 222 x && negb (x =? 215)) eqn:Eb; [|reflexivity].
    unfold between in Eb. ident_arith. }
  unfold sanitize. rewrite E1, E2, E3, E4, E5, E6.
  unfold s at 1 2. cbn [falsy].
  destruct (is_digit c0) eqn:Ed; [ident_arith | reflexivity].
Qed.

Lemma sanitize_is_snake_case (col : str) : snake_case (sanitize col) = true.
Proof.
  assert (E : sanitize col
              = spec_name (words (replace (lit "$") (lit "usd") col))).
  { unfold sanitize, spec_name.
    change (fun c : N => negb (is_ascii_alnum c)) with na.
    change (fun c : N => c =? underscore) with us.
    rewrite sanitize_body, words_replace_strip.
    destruct (join (lit "_")
                (map lower (words (replace (lit "$") (lit "usd") col))));
      reflexivity. }
  rewrite E. apply spec_name_snake_case, words_wordlike.
Qed.

(** X13.  [sanitize] is idempotent: a name it has made is left as it is. *)
Theorem sanitize_idempotent (col : str) :
  sanitize (sanitize col) = sanitize col.
Proof. apply sanitize_fixes_snake_case, sanitize_is_snake_case. Qed.

(** *** The table of the scraper *)

Lemma extend_to_length (n : nat) (r : list str) :
  (List.length r <= n)%nat -> List.length (scraping.extend_to n r) = n.
Proof.
  intros H. unfold scraping.extend_to.
  destruct (List.length r <? n)%nat eqn:E.
  - rewrite length_app, repeat_length. lia.
  - apply Nat.ltb_ge in E. lia.
Qed.

Lemma extend_to_shape (n : nat) (r : list str) :
  scraping.extend_to n r = r ++ repeat [] (n - List.length r).
Proof.
  unfold scraping.extend_to. destruct (List.length r <? n)%nat eqn:E; [reflexivity|].
  apply Nat.ltb_ge in E. replace (n - List.length r)%nat with 0%nat by lia.
  cbn [repeat]. rewrite app_nil_r. reflexivity.
Qed.

Lemma max_cols_row (header : list str) (rows : list (list str)) (r : list str) :
  In r rows -> (List.length r <= scraping.max_cols header rows)%nat.
Proof.
  unfold scraping.max_cols. intros H.
  assert (List.length r <= fold_right Nat.max 0 (map (@List.length str) rows))%nat.
  { induction rows as [|x rows IH]; [destruct H|].
    cbn [map fold_right]. destruct H as [-> | H]; [lia|].
    specialize (IH H). lia. }
  lia.
Qed.

Lemma csv_table_rect_lengths (trs : list (list str))
  (header : list str) (rows : list (list str)) :
  scraping.csv_table trs = Some (header, rows) ->
  exists n, Forall (fun r => List.length r = n) (header :: rows).
Proof.
  destruct trs as [|first rest]; [discriminate|].
  unfold scraping.csv_table. intros H. inversion H; subst header rows; clear H.
  exists (scraping.max_cols first rest). constructor.
  - apply extend_to_length. unfold scraping.max_cols. lia.
  - apply Forall_forall. intros r Hr. apply in_map_iff in Hr as [x [<- Hx]].
    apply extend_to_length. apply max_cols_row. exact Hx.
Qed.

(** X14.  The header and the rows that the scraper writes all have the same
    number of cells, the largest number of cells of a row of the table read;
    each is the row read, followed by empty cells. *)
Theorem csv_table_is_rectangular (trs : list (list str))
  (header : list str) (rows : list (list str)) :
  scraping.csv_table trs = Some (header, rows) ->
  let n := fold_right Nat.max 0%nat (map (@List.length str) trs) in
  Forall (fun r => List.length r = n) (header :: rows)
  /\ header :: rows
     = map (fun r => r ++ repeat [] (n - List.length r)) trs.
Proof.
  destruct trs as [|first rest]; [discriminate|].
  unfold scraping.csv_table. intros H. inversion H; subst header rows; clear H.
  cbn [map fold_right].
  change (Nat.max (List.length first)
            (fold_right Nat.max 0%nat (map (@List.length str) rest)))
    with (scraping.max_cols first rest).
  set (n := scraping.max_cols first rest). cbv zeta. split.
  - constructor.
    + apply extend_to_length. unfold n, scraping.max_cols. lia.
    + apply Forall_forall. intros r Hr. apply in_map_iff in Hr as [x [<- Hx]].
      apply extend_to_length. apply max_cols_row. exact Hx.
  - rewrite extend_to_shape. f_equal. apply map_ext. intros r.
    apply extend_to_shape.
Qed.

(** *** The table loaded into the database *)

Lemma distinct_nodup (l : list str) :
  csv_to_db_main.distinct l = true <-> NoDup l.
Proof.
  induction l as [|x l IH]; cbn [csv_to_db_main.distinct].
  - split; [constructor | reflexivity].
  - rewrite andb_true_iff, negb_true_iff, IH. split.
    + intros [Hx Hl]. constructor; [|exact Hl]. intros Hin.
      assert (Ht : existsb (str_eqb x) l = true).
      { apply existsb_exists. exists x. split; [exact Hin | apply str_eqb_refl]. }
      congruence.
    + intros Hn. inversion Hn as [|? ? Hx Hl]; subst. split; [|exact Hl].
      destruct (existsb (str_eqb x) l) eqn:E; [|reflexivity].
      apply existsb_exists in E as [y [Hy E]]. apply str_eqb_eq in E. subst y.
      contradiction.
Qed.

Lemma nodup_twice (a b : list str) (x : str) : NoDup (a ++ x :: x :: b) -> False.
Proof.
  intros H. apply NoDup_remove_2 in H. apply H.
  apply in_or_app. right. left. reflexivity.
Qed.

Section Load.
Variable table_fits : list str -> bool.
Variable insert_fits : list str -> list (list str) -> bool.

Local Abbreviation main := (csv_to_db_main.main table_fits insert_fits).
Local Abbreviation create_table_ok := (csv_to_db_main.create_table_ok table_fits).

(** X15.  The table of the scraper loaded into the database (the CSV file
    giving back the records written).  The table is made exactly when the
    header has a cell, the names made of its cells are distinct and none of
    them is [id] (and the database takes the statement): then no row needs
    padding, each row handed to the insertion has as many cells as there
    are columns and is the row written with its cells stripped.  Otherwise
    the run fails before any row is read; this is so whenever the scraper
    has added two or more empty cells to the header, which both get the
    name [col]. *)
Theorem scraped_table_loads_without_padding (trs : list (list str))
  (header : list str) (rows : list (list str)) :
  scraping.csv_table trs = Some (header, rows) ->
  let cols := map sanitize header in
  main (header :: rows)
  = (if create_table_ok cols
        && match rows with
           | [] => true
           | _ :: _ => insert_fits cols (map (map strip) rows)
           end
     then csv_to_db_main.Loaded cols (map (map strip) rows)
     else csv_to_db_main.Failed)
  /\ Forall (fun r => List.length r = List.length cols) (map (map strip) rows)
  /\ (create_table_ok cols = true
      <-> header <> [] /\ NoDup (lit "id" :: cols) /\ table_fits cols = true)
  /\ (forall first rest,
        trs = first :: rest ->
        (List.length first + 2
         <= fold_right Nat.max 0%nat (map (@List.length str) rest))%nat ->
        main (header :: rows) = csv_to_db_main.Failed).
Proof.
  intros H cols.
  destruct (csv_table_rect_lengths trs header rows H) as [n Hn].
  inversion Hn as [|? ? Hh Hr]; subst.
  assert (Hlen : Forall (fun r => List.length r = List.length cols) rows).
  { unfold cols. rewrite length_map. eapply Forall_impl; [|exact Hr].
    intros r Er. cbv beta in Er. congruence. }
  assert (Hrows : map (csv_to_db_main.insert_row (List.length cols)) rows
                  = map (map strip) rows).
  { apply map_ext_in. intros r Hin. rewrite Forall_forall in Hlen.
    specialize (Hlen r Hin). unfold csv_to_db_main.insert_row.
    rewrite Hlen, Nat.ltb_irrefl. reflexivity. }
  assert (Hstrip : Forall (fun r => List.length r = List.length cols)
                     (map (map strip) rows)).
  { apply Forall_forall. intros r Hin. apply in_map_iff in Hin as [x [<- Hx]].
    rewrite Forall_forall in Hlen. rewrite length_map. exact (Hlen x Hx). }
  assert (Hmain : main (header :: rows)
                  = (if create_table_ok cols
                        && match rows with
                           | [] => true
                           | _ :: _ => insert_fits cols (map (map strip) rows)
                           end
                     then csv_to_db_main.Loaded cols (map (map strip) rows)
                     else csv_to_db_main.Failed)).
  { unfold csv_to_db_main.main. fold cols.
    destruct (create_table_ok cols); cbn [andb]; [|reflexivity].
    rewrite Hrows. destruct rows as [|r rows]; [reflexivity|].
    cbn [map]. cbn [map] in Hstrip.
    assert (Hf : forallb (fun r0 => (List.length r0 =? List.length cols)%nat)
                   (map strip r :: map (map strip) rows) = true).
    { apply forallb_forall. intros x Hx. rewrite Forall_forall in Hstrip.
      apply Nat.eqb_eq. exact (Hstrip x Hx). }
    rewrite Hf. reflexivity. }
  assert (Hok : create_table_ok cols = true
                <-> header <> [] /\ NoDup (lit "id" :: cols)
                    /\ table_fits cols = true).
  { unfold csv_to_db_main.create_table_ok.
    rewrite !andb_true_iff, distinct_nodup, negb_true_iff.
    assert (He : match cols with [] => true | _ :: _ => false end = false
                 <-> header <> []).
    { unfold cols. destruct header; cbn [map]; split; congruence. }
    rewrite He. tauto. }
  split; [exact Hmain|]. split; [exact Hstrip|]. split; [exact Hok|].
  intros first rest Et Hpad. rewrite Hmain.
  destruct (create_table_ok cols) eqn:Ec; [|reflexivity].
  exfalso. destruct (proj1 Hok eq_refl) as [_ [Hnd _]]. subst trs.
  unfold scraping.csv_table in H. inversion H as [[Eh Erows]]. clear H.
  unfold cols in Hnd. rewrite <- Eh in Hnd. rewrite extend_to_shape in Hnd.
  assert (Ek : exists k, (scraping.max_cols first rest - List.length first
                          = S (S k))%nat).
  { unfold scraping.max_cols.
    exists (Nat.max (List.length first)
              (fold_right Nat.max 0%nat (map (@List.length str) rest))
            - List.length first - 2)%nat.
    lia. }
  destruct Ek as [k Ek]. rewrite Ek in Hnd. cbn [repeat] in Hnd.
  rewrite map_app in Hnd. cbn [map] in Hnd.
  inversion Hnd as [|? ? _ Hnd']; subst.
  exact (nodup_twice _ _ _ Hnd').
Qed.
End Load.

Lemma csv_table_is_rectangular_witness :
  scraping.csv_table [[lit "Year"; lit "Location"]; [lit "1900"]]
  = Some ([lit "Year"; lit "Location"], [[lit "1900"; []]])
  /\ Forall (fun r => List.length r = 2%nat)
       ([lit "Year"; lit "Location"] :: [[lit "1900"; []]])
  /\ [lit "Year"; lit "Location"] :: [[lit "1900"; []]]
     = map (fun r => r ++ repeat [] (2 - List.length r))
         [[lit "Year"; lit "Location"]; [lit "1900"]].
Proof.
  split; [reflexivity|].
  apply (csv_table_is_rectangular
           [[lit "Year"; lit "Location"]; [lit "1900"]]
           [lit "Year"; lit "Location"] [[lit "1900"; []]]).
  reflexivity.
Defined.

Lemma scraped_table_loads_without_padding_witness :
  scraping.csv_table [[lit "Year"; lit "Location"]; [lit "1900"]]
  = Some ([lit "Year"; lit "Location"], [[lit "1900"; []]])
  /\ csv_to_db_main.main (fun _ => true) (fun _ _ => true)
       ([lit "Year"; lit "Location"] :: [[lit "1900"; []]])
     = csv_to_db_main.Loaded [lit "year"; lit "location"] [[lit "1900"; []]]
  /\ scraping.csv_table [[lit "Year"]; [lit "1900"; lit "Texas"; lit "flood"]]
     = Some ([lit "Year"; []; []], [[lit "1900"; lit "Texas"; lit "flood"]])
  /\ csv_to_db_main.main (fun _ => true) (fun _ _ => true)
       ([lit "Year"; []; []] :: [[lit "1900"; lit "Texas"; lit "flood"]])
     = csv_to_db_main.Failed.
Proof.
  split; [reflexivity|]. split.
  - exact (proj1 (scraped_table_loads_without_padding
                    (fun _ => true) (fun _ _ => true)
                    [[lit "Year"; lit "Location"]; [lit "1900"]]
                    [lit "Year"; lit "Location"] [[lit "1900"; []]] eq_refl)).
  - split; [reflexivity|].
    apply (proj2 (proj2 (proj2 (scraped_table_loads_without_padding
                    (fun _ => true) (fun _ _ => true)
                    [[lit "Year"]; [lit "1900"; lit "Texas"; lit "flood"]]
                    [lit "Year"; []; []] [[lit "1900"; lit "Texas"; lit "flood"]]
                    eq_refl)))
             [lit "Year"] [[lit "1900"; lit "Texas"; lit "flood"]] eq_refl).
    cbn. lia.
Defined.

End TableFacts.
